(** * The domain blocklist check of maddy (internal/check/domainbl)

    A shallow embedding of [lookup.go] and of the policy decision of
    [domainbl.go], with the properties of the lookup engine stated over it.

    Go values are modelled as follows: [int] and [byte] as [Z], [string] as
    [string], a slice as a [list] (the nil slice is [[]]), a
    [map[string]struct{}] as a [gset string], the [error] interface as the
    inductive [error], a panic as the [Panic] outcome.  The goroutines of
    [lookupDomainBLs] are modelled by a labelled transition system whose
    labels are the scheduler's choices. *)

From Stdlib Require Import ZArith List String Ascii Bool Lia DecimalString DecimalN.
From stdpp Require Import base numbers list strings gmap sets.

Local Open Scope string_scope.
Local Open Scope list_scope.
Local Open Scope Z_scope.

(** ** Go's [net.IP] *)

Module net.

(** [net.IP] is a byte slice; the nil IP is the empty list. *)
Abbreviation IP := (list Z).

Definition IPv4len : nat := 4.
Definition IPv6len : nat := 16.

Definition isZeros (p : list Z) : bool := forallb (Z.eqb 0) p.

(** [func (ip IP) To4() IP] *)
Definition To4 (ip : IP) : IP :=
  if Nat.eqb (length ip) IPv4len then ip
  else if Nat.eqb (length ip) IPv6len
          && isZeros (take 10 ip)
          && bool_decide (ip !! 10%nat = Some 255)
          && bool_decide (ip !! 11%nat = Some 255)
       then take 4 (drop 12 ip)
       else [].

Definition uitoa (v : Z) : string :=
  NilZero.string_of_uint (N.to_uint (Z.to_N v)).

(** [func (ip IP) String() string], on a four byte address. *)
Definition String4 (ip : IP) : string :=
  match ip with
  | [a; b; c; d] =>
      uitoa a +:+ "." +:+ uitoa b +:+ "." +:+ uitoa c +:+ "." +:+ uitoa d
  | _ => "?"
  end.

End net.

(** ** Outcomes of a Go call: a normal return or a panic *)

Inductive outcome (A : Type) : Type :=
| Return (a : A)
| Panic (v : string).
Arguments Return {A} a.
Arguments Panic {A} v.

(** ** The [error] values the package sees or builds *)

Inductive error : Type :=
| DNSError (IsNotFound : bool) (Err : string)      (* *net.DNSError *)
| OtherError (msg : string)                        (* any other resolver error *)
| errBadBLResponse                                 (* errors.New("bad response from BL") *)
| Canceled                                         (* context.Canceled *)
| ErrorfZone (zone : string) (cause : error)       (* fmt.Errorf("%s: %v", zone, err) *)
| ErrorfRecovered (rcvr : string).                 (* fmt.Errorf("%v", rcvr) *)

(** [dns.Resolver.LookupHost]: the host name to the pair [(addrs, err)]. *)
Definition Resolver := string -> list string * option error.

(** [type List struct { Zone string; Bits byte; ScoreAdj int }] *)
Record List : Type := mkList { Zone : string; Bits : Z; ScoreAdj : Z }.

(** [type lookup struct { domain string; bl List }] *)
Record lookup : Type := mkLookup { domain : string; bl : List }.

(** [type result struct { zone string; score int; err error }] *)
Record result : Type := mkResult { zone : string; score : Z; err : option error }.

Definition byte (z : Z) : Z := z mod 256.

(** The inner loop of [lookupDomainBL]: [remaining] iterations are left and
    the loop variable is [bit]; [true] when the loop returns the score. *)
Fixpoint bits_loop (Bits res : Z) (remaining : nat) (bit : Z) : bool :=
  match remaining with
  | O => false
  | S k =>
      let n := byte (Z.shiftl 1 bit) in
      if negb (Z.land Bits n =? 0) && negb (Z.land res n =? 0) then true
      else bits_loop Bits res k (bit + 1)
  end.

(** ** Go slices over a store of backing arrays *)

Module slice.

(** A slice header; [ptr] is the address of the backing array, taken from
    the first element of the slice. *)
Record t : Type := mk { ptr : nat; len : nat; cap : nat }.

(** The store: the cells of every backing array, by address. *)
Abbreviation heap := (list (list string)).

Definition array (h : heap) (s : t) : list string := default [] (h !! ptr s).

(** The elements a holder of the header [s] sees. *)
Definition read (h : heap) (s : t) : list string := take (len s) (array h s).

(** [s[:0]] *)
Definition reslice0 (s : t) : t := mk (ptr s) 0 (cap s).

(** [append(s, x)]: in place when the capacity allows, otherwise into a
    fresh and larger array, which leaves the old one as it was. *)
Definition append (hs : heap * t) (x : string) : heap * t :=
  let (h, s) := hs in
  if Nat.ltb (len s) (cap s)
  then (<[ptr s := <[len s := x]> (array h s)]> h, mk (ptr s) (S (len s)) (cap s))
  else
    let newcap := S (2 * cap s)%nat in
    ((h ++ [read h s ++ x :: replicate (newcap - S (len s))%nat ""])%list,
     mk (length h) (S (len s)) newcap).

(** A header that is valid in a store. *)
Definition valid (h : heap) (s : t) : Prop :=
  (len s <= cap s)%nat /\ (ptr s < length h)%nat /\ length (array h s) = cap s.

End slice.

(** [cleanupDomains] on the store: [order] is the order in which
    [range unique] yields the keys. *)
Definition cleanupDomains_store (order : list string) (h : slice.heap) (domains : slice.t)
  : slice.heap * slice.t :=
  foldl slice.append (h, slice.reslice0 domains) order.

(** Bit [bit] is set in both the mask and the octet, for one of the eight
    bit positions. *)
Definition overlap (Bits res : Z) : Prop :=
  exists bit, 0 <= bit < 8 /\ Z.testbit Bits bit = true /\ Z.testbit res bit = true.

Section domainbl.

(** [net.ParseIP] and [publicsuffix.Domain] come from outside the
    repository; the development is parametric in them.  [ParseIP] returns
    the nil IP for a string that is no IP literal, [publicsuffix_Domain]
    returns [None] when the library returns an error. *)
Variable ParseIP : string -> net.IP.
Variable publicsuffix_Domain : string -> option string.

(** The loop over [addrs] of [lookupDomainBL]. *)
Fixpoint addrs_loop (bl : List) (addrs : list string) : outcome (Z * option error) :=
  match addrs with
  | [] => Return (0, None)
  | addr :: rest =>
      match ParseIP addr with
      | [] => Return (0, Some errBadBLResponse)
      | ip =>
          match net.To4 ip !! 3%nat with
          | None => Panic "runtime error: index out of range [3] with length 0"
          | Some res =>
              if bits_loop (Bits bl) res 8 0 then Return (ScoreAdj bl, None)
              else addrs_loop bl rest
          end
      end
  end.

Definition blDomain (domain : string) (bl : List) : string :=
  domain +:+ "." +:+ Zone bl.

Definition lookupDomainBL (resolver : Resolver) (domain : string) (bl : List)
  : outcome (Z * option error) :=
  match resolver (blDomain domain bl) with
  | (_, Some e) =>
      match e with
      | DNSError true _ => Return (0, None)
      | _ => Return (0, Some e)
      end
  | (addrs, None) => addrs_loop bl addrs
  end.

(** [addr] is an IPv4 literal whose last octet is [res]:
    [net.ParseIP(addr)] is not nil and [ip.To4()[3]] is [res]. *)
Definition IPv4_octet (addr : string) (res : Z) : Prop :=
  ParseIP addr <> [] /\ net.To4 (ParseIP addr) !! 3%nat = Some res.

Definition is_IPv4 (addr : string) : Prop := exists res, IPv4_octet addr res.

(** [addr] is an IPv6 literal: it parses, and [To4] gives nil. *)
Definition is_IPv6 (addr : string) : Prop :=
  ParseIP addr <> [] /\ net.To4 (ParseIP addr) = [].

(** [addr] is an IPv4 literal whose last octet shares a bit with [Bits]. *)
Definition hits_mask (Bits : Z) (addr : string) : Prop :=
  exists res, IPv4_octet addr res /\ overlap Bits res.

(** [a] is an IPv4 literal that does not hit the mask. *)
Definition IPv4_miss (Bits : Z) (a : string) : Prop :=
  is_IPv4 a /\ ~ hits_mask Bits a.

(** *** [cleanupDomains] *)

(** [v4[3], v4[2], v4[1], v4[0] = v4[0], v4[1], v4[2], v4[3]] *)
Definition reverse4 (v4 : net.IP) : net.IP :=
  match v4 with
  | [a; b; c; d] => [d; c; b; a]
  | _ => v4
  end.

(** One iteration of the first loop: the key it stores in [unique], or
    [None] when it takes a [continue]. *)
Definition cleanup_key (domain : string) : option string :=
  if bool_decide (domain = "") then None
  else
    match ParseIP domain with
    | [] =>
        match publicsuffix_Domain domain with
        | Some base => Some base
        | None => Some domain
        end
    | ip =>
        match net.To4 ip with
        | [] => None
        | v4 => Some (net.String4 (reverse4 v4))
        end
    end.

Definition unique_of (domains : list string) : gset string :=
  foldl (fun unique domain =>
           match cleanup_key domain with
           | Some key => {[ key ]} ∪ unique
           | None => unique
           end) ∅ domains.

(** [for domain, _ := range unique]: Go leaves the iteration order of a
    map unspecified, every enumeration of the keys is possible. *)
Definition range_unique (unique : gset string) (order : list string) : Prop :=
  order ≡ₚ elements unique.

(** The value view of [cleanupDomains]: the returned list is one of the
    enumerations of [unique]. *)
Definition cleanupDomains (domains out : list string) : Prop :=
  range_unique (unique_of domains) out.

(** One of the possible results, for evaluation. *)
Definition cleanupDomains_exec (domains : list string) : list string :=
  elements (unique_of domains).

(** *** [lookupDomainBLs] *)

(** Go's [int] is 64 bits wide here; [+=] wraps around. *)
Definition int_wrap (z : Z) : Z := (z + 2 ^ 63) mod 2 ^ 64 - 2 ^ 63.

(** The sends of the producer loop, in program order. *)
Definition jobs (domains : list string) (bls : list List) : list lookup :=
  flat_map (fun domain => map (fun bl => mkLookup domain bl) bls) domains.

(** A worker goroutine: blocked in its [select], running
    [lookupDomainBL] on the job it received, blocked on [resultC <- ...],
    or finished ([wg.Done()] was called). *)
Inductive worker : Type :=
| WSelect
| WLookup (job : lookup)
| WSend (res : result)
| WDone.

Record state : Type := mkState {
  st_pending : list lookup;        (* jobs the producer loop has still to send *)
  st_closed : bool;                (* close(lookupC) was executed *)
  st_workers : list worker;
  st_ctxDone : bool;               (* ctx.Done() is closed *)
  st_score : Z;
  st_hits : list string;
  st_err : option error;
  st_queries : list lookup;        (* ghost: the calls of lookupDomainBL, oldest first *)
  st_returned : option (Z * list string * option error)
}.

Definition set_worker (i : nat) (w : worker) (s : state) : state :=
  mkState (st_pending s) (st_closed s) (<[i := w]> (st_workers s)) (st_ctxDone s)
          (st_score s) (st_hits s) (st_err s) (st_queries s) (st_returned s).

Definition set_pending (p : list lookup) (s : state) : state :=
  mkState p (st_closed s) (st_workers s) (st_ctxDone s)
          (st_score s) (st_hits s) (st_err s) (st_queries s) (st_returned s).

Definition set_closed (s : state) : state :=
  mkState (st_pending s) true (st_workers s) (st_ctxDone s)
          (st_score s) (st_hits s) (st_err s) (st_queries s) (st_returned s).

Definition set_ctxDone (s : state) : state :=
  mkState (st_pending s) (st_closed s) (st_workers s) true
          (st_score s) (st_hits s) (st_err s) (st_queries s) (st_returned s).

Definition set_err (e : error) (s : state) : state :=
  mkState (st_pending s) (st_closed s) (st_workers s) (st_ctxDone s)
          (st_score s) (st_hits s) (Some e) (st_queries s) (st_returned s).

Definition add_hit (z : string) (sc : Z) (s : state) : state :=
  mkState (st_pending s) (st_closed s) (st_workers s) (st_ctxDone s)
          (int_wrap (st_score s + sc)) (st_hits s ++ [z])%list (st_err s)
          (st_queries s) (st_returned s).

Definition log_query (job : lookup) (s : state) : state :=
  mkState (st_pending s) (st_closed s) (st_workers s) (st_ctxDone s)
          (st_score s) (st_hits s) (st_err s) (st_queries s ++ [job])%list
          (st_returned s).

Definition set_returned (s : state) : state :=
  mkState (st_pending s) (st_closed s) (st_workers s) (st_ctxDone s)
          (st_score s) (st_hits s) (st_err s) (st_queries s)
          (Some (st_score s, st_hits s, st_err s)).

(** The body of the aggregator's [for res := range resultC]. *)
Definition aggregate (res : result) (s : state) : state :=
  let s1 := match err res with
            | Some e => set_err (ErrorfZone (zone res) e) s
            | None => s
            end in
  if score res =? 0 then s1 else add_hit (zone res) (score res) s1.

Definition is_done (w : worker) : bool :=
  match w with WDone => true | _ => false end.

(** The scheduler's choices. *)
Inductive label : Type :=
| SendJob (i : nat)      (* [lookupC <- lookup{domain, bl}] meets worker [i]'s select *)
| CtxDone (i : nat)      (* worker [i]'s select takes [<-ctx.Done()] *)
| RecvClosed (i : nat)   (* worker [i]'s select receives from the closed [lookupC] *)
| RunLookup (i : nat)    (* worker [i] runs [lookupDomainBL] *)
| Deliver (i : nat)      (* worker [i]'s [resultC <- ...] meets the aggregator *)
| CloseLookupC           (* [close(lookupC)] *)
| CancelCtx              (* the caller cancels [ctx] *)
| Finish.                (* [wg.Wait()], [close(resultC)], [<-doneScores], [return] *)

Definition step (resolver : Resolver) (l : label) (s : state) : option state :=
  match st_returned s with
  | Some _ => None
  | None =>
      match l with
      | SendJob i =>
          match st_pending s, st_workers s !! i with
          | job :: rest, Some WSelect =>
              Some (set_worker i (WLookup job) (set_pending rest s))
          | _, _ => None
          end
      | CtxDone i =>
          match st_ctxDone s, st_workers s !! i with
          | true, Some WSelect => Some (set_worker i WDone (set_err Canceled s))
          | _, _ => None
          end
      | RecvClosed i =>
          match st_closed s, st_workers s !! i with
          | true, Some WSelect =>
              Some (set_worker i (WLookup (mkLookup "" (mkList "" 0 0))) s)
          | _, _ => None
          end
      | RunLookup i =>
          match st_workers s !! i with
          | Some (WLookup job) =>
              match lookupDomainBL resolver (domain job) (bl job) with
              | Return (sc, e) =>
                  Some (set_worker i (WSend (mkResult (Zone (bl job)) sc e))
                          (log_query job s))
              | Panic v =>
                  Some (set_worker i WDone
                          (set_err (ErrorfRecovered v) (log_query job s)))
              end
          | _ => None
          end
      | Deliver i =>
          match st_workers s !! i with
          | Some (WSend res) => Some (set_worker i WDone (aggregate res s))
          | _ => None
          end
      | CloseLookupC =>
          match st_pending s, st_closed s with
          | [], false => Some (set_closed s)
          | _, _ => None
          end
      | CancelCtx =>
          if st_ctxDone s then None else Some (set_ctxDone s)
      | Finish =>
          if st_closed s && forallb is_done (st_workers s)
          then Some (set_returned s) else None
      end
  end.

(** The state after the goroutines are started, for the list [domains]
    that [cleanupDomains] returned.  A slice never has so many elements
    that [len(domains) * len(bls)] wraps. *)
Definition init (domains : list string) (bls : list List) (concurrency : Z) : state :=
  let lookups := Z.of_nat (length domains) * Z.of_nat (length bls) in
  let concurrency := if concurrency >? lookups then lookups else concurrency in
  mkState (jobs domains bls) false (replicate (Z.to_nat concurrency) WSelect) false
          0 [] None [] None.

(** The transitions, as a relation. *)
Inductive step_rel (resolver : Resolver) : label -> state -> state -> Prop :=
| step_SendJob i job rest s :
    st_returned s = None -> st_pending s = job :: rest ->
    st_workers s !! i = Some WSelect ->
    step_rel resolver (SendJob i) s (set_worker i (WLookup job) (set_pending rest s))
| step_CtxDone i s :
    st_returned s = None -> st_ctxDone s = true ->
    st_workers s !! i = Some WSelect ->
    step_rel resolver (CtxDone i) s (set_worker i WDone (set_err Canceled s))
| step_RecvClosed i s :
    st_returned s = None -> st_closed s = true ->
    st_workers s !! i = Some WSelect ->
    step_rel resolver (RecvClosed i) s
             (set_worker i (WLookup (mkLookup "" (mkList "" 0 0))) s)
| step_RunLookup_return i job sc e s :
    st_returned s = None -> st_workers s !! i = Some (WLookup job) ->
    lookupDomainBL resolver (domain job) (bl job) = Return (sc, e) ->
    step_rel resolver (RunLookup i) s
             (set_worker i (WSend (mkResult (Zone (bl job)) sc e)) (log_query job s))
| step_RunLookup_panic i job v s :
    st_returned s = None -> st_workers s !! i = Some (WLookup job) ->
    lookupDomainBL resolver (domain job) (bl job) = Panic v ->
    step_rel resolver (RunLookup i) s
             (set_worker i WDone (set_err (ErrorfRecovered v) (log_query job s)))
| step_Deliver i res s :
    st_returned s = None -> st_workers s !! i = Some (WSend res) ->
    step_rel resolver (Deliver i) s (set_worker i WDone (aggregate res s))
| step_CloseLookupC s :
    st_returned s = None -> st_pending s = [] -> st_closed s = false ->
    step_rel resolver CloseLookupC s (set_closed s)
| step_CancelCtx s :
    st_returned s = None -> st_ctxDone s = false ->
    step_rel resolver CancelCtx s (set_ctxDone s)
| step_Finish s :
    st_returned s = None -> st_closed s = true ->
    forallb is_done (st_workers s) = true ->
    step_rel resolver Finish s (set_returned s).

Fixpoint run (resolver : Resolver) (sched : list label) (s : state) : option state :=
  match sched with
  | [] => Some s
  | l :: sched' =>
      match step resolver l s with
      | Some s' => run resolver sched' s'
      | None => None
      end
  end.

(** [s'] is reachable from [s]. *)
Definition reaches (resolver : Resolver) (s s' : state) : Prop :=
  exists sched, run resolver sched s = Some s'.

(** What a job adds to the hit list and to the score once its result is
    merged: its zone and score when the score is not zero. *)
Definition result_contrib (res : result) : list (string * Z) :=
  if score res =? 0 then [] else [(zone res, score res)].

Definition job_contrib (resolver : Resolver) (job : lookup) : list (string * Z) :=
  match lookupDomainBL resolver (domain job) (bl job) with
  | Return (sc, e) => result_contrib (mkResult (Zone (bl job)) sc e)
  | Panic _ => []
  end.

Definition worker_contrib (resolver : Resolver) (w : worker) : list (string * Z) :=
  match w with
  | WLookup job => job_contrib resolver job
  | WSend res => result_contrib res
  | _ => []
  end.

Definition sum_scores (l : list (string * Z)) : Z :=
  fold_right Z.add 0 (map snd l).

Definition is_select (w : worker) : bool :=
  match w with WSelect => true | _ => false end.

(** The number of goroutines started by the worker loop. *)
Definition pool_size (domains : list string) (bls : list List) (concurrency : Z) : nat :=
  length (st_workers (init domains bls concurrency)).

Definition past_lookup (w : worker) : bool :=
  match w with WSend _ | WDone => true | _ => false end.

Definition count_workers (f : worker -> bool) (ws : list worker) : nat :=
  length (List.filter f ws).

(** The bookkeeping of the aggregator: the hits merged so far, with those
    still held by the workers and those of the jobs not yet sent, are the
    hits of all the jobs [J]. *)
Definition contrib_inv (resolver : Resolver) (J : list lookup) (s : state) : Prop :=
  exists delivered : list (string * Z),
    st_hits s = map fst delivered /\
    st_score s = int_wrap (sum_scores delivered) /\
    delivered ++ flat_map (worker_contrib resolver) (st_workers s)
      ++ flat_map (job_contrib resolver) (st_pending s)
    ≡ₚ flat_map (job_contrib resolver) J.

(** The control state: [lookupC] is closed only once every job was sent,
    and the call returned only after the close with every worker done,
    with the values of the three shared variables. *)
Definition control_inv (s : state) : Prop :=
  (st_closed s = true -> st_pending s = []) /\
  (forall out, st_returned s = Some out ->
     out = (st_score s, st_hits s, st_err s) /\
     st_closed s = true /\ forallb is_done (st_workers s) = true).

(** Every job sent took a worker out of its [select] for good, and every
    call of [lookupDomainBL] was made by a worker that is past it. *)
Definition pool_inv (L W : nat) (s : state) : Prop :=
  length (st_workers s) = W /\
  (L <= length (st_pending s)
        + count_workers (fun w => negb (is_select w)) (st_workers s))%nat /\
  (length (st_queries s) <= count_workers past_lookup (st_workers s))%nat.

Definition worker_job (w : worker) : list lookup :=
  match w with WLookup job => [job] | _ => [] end.

(** The zero value a receive from the closed [lookupC] yields. *)
Definition zero_job : lookup := mkLookup "" (mkList "" 0 0).

(** The calls of [lookupDomainBL] made, those about to be made and the jobs
    not yet sent are the jobs [J], and [z] zero values received from the
    closed channel; every one of them but the unsent took a worker. *)
Definition queries_inv (J : list lookup) (s : state) : Prop :=
  exists z : nat,
    st_queries s ++ flat_map worker_job (st_workers s) ++ st_pending s
    ≡ₚ J ++ replicate z zero_job /\
    (length J + z
     <= length (st_pending s)
        + count_workers (fun w => negb (is_select w)) (st_workers s))%nat.

(** With no worker, nothing touches the shared variables. *)
Definition idle_inv (s : state) : Prop :=
  st_workers s = [] /\ st_err s = None /\ st_queries s = [] /\
  st_score s = 0 /\ st_hits s = [] /\ st_pending s = [].

(** The value a transition assigns to [err], if it assigns one: the
    aggregator on a failing result, a worker that recovers a panic, a
    worker that sees [ctx.Done()]. *)
Definition err_written (resolver : Resolver) (l : label) (s : state) : option error :=
  match l with
  | CtxDone _ => Some Canceled
  | RunLookup i =>
      match st_workers s !! i with
      | Some (WLookup job) =>
          match lookupDomainBL resolver (domain job) (bl job) with
          | Panic v => Some (ErrorfRecovered v)
          | Return _ => None
          end
      | _ => None
      end
  | Deliver i =>
      match st_workers s !! i with
      | Some (WSend res) =>
          match err res with
          | Some e => Some (ErrorfZone (zone res) e)
          | None => None
          end
      | _ => None
      end
  | _ => None
  end.

(** The assignments to [err] along a run, oldest first. *)
Fixpoint err_trace (resolver : Resolver) (sched : list label) (s : state) : list error :=
  match sched with
  | [] => []
  | l :: sched' =>
      match step resolver l s with
      | Some s' =>
          match err_written resolver l s with
          | Some e => e :: err_trace resolver sched' s'
          | None => err_trace resolver sched' s'
          end
      | None => []
      end
  end.

(** The schedule that serves the jobs one after the other, job [n] by
    worker [k + n], then closes the queue and finishes. *)
Fixpoint seq_sched (resolver : Resolver) (k : nat) (pending : list lookup) : list label :=
  match pending with
  | [] => [CloseLookupC; Finish]
  | job :: rest =>
      SendJob k :: RunLookup k ::
        match lookupDomainBL resolver (domain job) (bl job) with
        | Return _ => Deliver k :: seq_sched resolver (S k) rest
        | Panic _ => seq_sched resolver (S k) rest
        end
  end.

(** An execution of [lookupDomainBLs] that returns [out]: [order] is the
    list [cleanupDomains] returned and [sched] the interleaving. *)
Definition lookupDomainBLs_exec (resolver : Resolver) (order : list string)
           (bls : list List) (concurrency : Z) (sched : list label)
  : option (Z * list string * option error) :=
  match run resolver sched (init order bls concurrency) with
  | Some s => st_returned s
  | None => None
  end.

Definition lookupDomainBLs (resolver : Resolver) (domains : list string)
           (bls : list List) (concurrency : Z)
           (out : Z * list string * option error) : Prop :=
  exists order sched,
    cleanupDomains domains order /\
    lookupDomainBLs_exec resolver order bls concurrency sched = Some out.

End domainbl.

(** ** The policy decision of [state.CheckBody] *)

(** The thresholds of [Check]. *)
Record Check : Type := mkCheck { quarantineThres : Z; rejectThres : Z }.

(** [cfg.Int(name, false, false, def, &field)]: the configured value, or
    the default when the directive is absent. *)
Definition cfg_Int (cfg : gmap string Z) (name : string) (def : Z) : Z :=
  default def (cfg !! name).

(** The two [cfg.Int] calls of [Check.Init]. *)
Definition Init (cfg : gmap string Z) : Check :=
  mkCheck (cfg_Int cfg "quarantine_threshold" 1)
          (cfg_Int cfg "reject_threshold" 9999).

Inductive action : Type := Allow | Quarantine | Reject.

(** The [if]/[else if]/[else] at the end of [CheckBody], once
    [lookupDomainBLs] returned [score] and no error. *)
Definition CheckBody_action (c : Check) (score : Z) : action :=
  if score >=? rejectThres c then Reject
  else if score >=? quarantineThres c then Quarantine
  else Allow.


(** ** Stand-ins for the outside world, used to evaluate the model

    A parser of IP literals (dotted-quad IPv4 and colon-hex IPv6, the
    four-in-six form included), a public suffix list with the rules [com],
    [org], [uk] and [co.uk] next to the default rule, and resolvers in the
    style of the [mockBLResolver] of [lookup_test.go]. *)

Module fixture.

Fixpoint split_on (c : ascii) (s : string) : list string :=
  match s with
  | EmptyString => [""]
  | String a s' =>
      if Ascii.eqb a c then "" :: split_on c s'
      else match split_on c s' with
           | f :: fs => String a f :: fs
           | [] => [String a ""]
           end
  end.

Definition join_dots (labels : list string) : string :=
  match labels with
  | [] => ""
  | l :: ls => fold_left (fun acc x => acc +:+ "." +:+ x) ls l
  end.

Definition hex_val (a : ascii) : option Z :=
  let n := Z.of_nat (nat_of_ascii a) in
  if (48 <=? n) && (n <=? 57) then Some (n - 48)
  else if (97 <=? n) && (n <=? 102) then Some (n - 87)
  else if (65 <=? n) && (n <=? 70) then Some (n - 55)
  else None.

Definition dec_val (a : ascii) : option Z :=
  let n := Z.of_nat (nat_of_ascii a) in
  if (48 <=? n) && (n <=? 57) then Some (n - 48) else None.

(** The value of a non-empty digit string in the given base. *)
Fixpoint digits (val : ascii -> option Z) (base : Z) (acc : Z) (s : string) : option Z :=
  match s with
  | EmptyString => Some acc
  | String a s' =>
      match val a with
      | Some d => digits val base (acc * base + d) s'
      | None => None
      end
  end.

(** A decimal field of a dotted quad: one to three digits, no leading
    zero, at most 255. *)
Definition dec_field (s : string) : option Z :=
  match s with
  | EmptyString => None
  | String a rest =>
      if (Nat.ltb 3 (String.length s))
         || (Ascii.eqb a "0" && negb (Nat.eqb (String.length rest) 0))
      then None
      else match digits dec_val 10 0 s with
           | Some v => if v <=? 255 then Some v else None
           | None => None
           end
  end.

Definition parse_quad (s : string) : option (list Z) :=
  match map dec_field (split_on "." s) with
  | [Some a; Some b; Some c; Some d] => Some [a; b; c; d]
  | _ => None
  end.

(** A hexadecimal group: one to four digits, as two bytes. *)
Definition hex_group (s : string) : option (list Z) :=
  if Nat.eqb (String.length s) 0 || Nat.ltb 4 (String.length s) then None
  else match digits hex_val 16 0 s with
       | Some v => Some [v / 256; v mod 256]
       | None => None
       end.

(** The bytes of the groups before or after the ellipsis; the last group
    may be a dotted quad when [quad_ok]. *)
Fixpoint groups (quad_ok : bool) (fs : list string) : option (list Z) :=
  match fs with
  | [] => Some []
  | [f] =>
      match hex_group f with
      | Some b => Some b
      | None => if quad_ok then parse_quad f else None
      end
  | f :: rest =>
      match hex_group f, groups quad_ok rest with
      | Some b, Some bs => Some (b ++ bs)%list
      | _, _ => None
      end
  end.

Fixpoint split_ellipsis (fs : list string) : list string * option (list string) :=
  match fs with
  | [] => ([], None)
  | f :: rest =>
      if bool_decide (f = "") then ([], Some rest)
      else let (before, after) := split_ellipsis rest in (f :: before, after)
  end.

Definition parse_v6 (s : string) : net.IP :=
  let fs := split_on ":" s in
  let fs := match fs with "" :: "" :: rest => "" :: rest | _ => fs end in
  let fs := match rev fs with "" :: "" :: rest => rev ("" :: rest) | _ => fs end in
  match split_ellipsis fs with
  | (all, None) =>
      match groups true all with
      | Some bs => if Nat.eqb (length bs) 16 then bs else []
      | None => []
      end
  | (before, Some after) =>
      match groups false before, groups true after with
      | Some b, Some a =>
          if Nat.ltb (length b + length a) 16
          then (b ++ replicate (16 - (length b + length a)) 0 ++ a)%list
          else []
      | _, _ => []
      end
  end.

Fixpoint contains (c : ascii) (s : string) : bool :=
  match s with
  | EmptyString => false
  | String a s' => Ascii.eqb a c || contains c s'
  end.

Definition v4InV6Prefix : list Z := [0; 0; 0; 0; 0; 0; 0; 0; 0; 0; 255; 255].

(** [net.ParseIP]: sixteen bytes, or nil. *)
Definition ParseIP (s : string) : net.IP :=
  if contains ":" s then parse_v6 s
  else match parse_quad s with
       | Some q => (v4InV6Prefix ++ q)%list
       | None => []
       end.

Definition rules : list (list string) := [["co"; "uk"]; ["com"]; ["org"]; ["uk"]].

Definition is_suffix_of (rule labels : list string) : bool :=
  bool_decide (drop (length labels - length rule) labels = rule).

(** [publicsuffix.Domain]: the longest matching rule (or the default rule,
    the last label) and one more label; an error for a name with an empty
    label or with no label left of the suffix. *)
Definition publicsuffix_Domain (name : string) : option string :=
  let labels := split_on "." name in
  if existsb (fun l => bool_decide (l = "")) labels then None
  else
    let n := match filter (fun r => is_suffix_of r labels = true) rules with
             | r :: _ => length r
             | [] => 1%nat
             end in
    if Nat.leb (length labels) n then None
    else Some (join_dots (drop (length labels - S n) labels)).

(** The resolver of [lookup_test.go]: the same answer for every host. *)
Definition mockBLResolver (addr : string) (err : option error) : Resolver :=
  fun _ => match err with
           | Some e => ([], Some e)
           | None => ([addr], None)
           end.

(** A resolver given by a table of answers; unlisted hosts do not exist. *)
Definition tableResolver (tbl : list (string * (list string * option error))) : Resolver :=
  fun host =>
    match filter (fun p => bool_decide (fst p = host)) tbl with
    | p :: _ => snd p
    | [] => ([], Some (DNSError true "no such host"))
    end.

End fixture.

(** ** More on the lookup engine *)

Section engine_properties.

Variable ParseIP : string -> net.IP.

(** The job's call of [lookupDomainBL] returns a score other than zero. *)
Definition job_hits (resolver : Resolver) (job : lookup) : bool :=
  match lookupDomainBL ParseIP resolver (domain job) (bl job) with
  | Return (sc, _) => negb (sc =? 0)
  | Panic _ => false
  end.

(** The job's call of [lookupDomainBL] returns an error or panics. *)
Definition job_fails (resolver : Resolver) (job : lookup) : bool :=
  match lookupDomainBL ParseIP resolver (domain job) (bl job) with
  | Return (_, Some _) => true
  | Return (_, None) => false
  | Panic _ => true
  end.

(** The worker holds a failure that [err] has not seen yet. *)
Definition worker_fails (resolver : Resolver) (w : worker) : bool :=
  match w with
  | WLookup job => job_fails resolver job
  | WSend res => match err res with Some _ => true | None => false end
  | _ => false
  end.

(** A worker left its [select] without taking one of the [L] jobs. *)
Definition starved (L : nat) (s : state) : Prop :=
  (L < length (st_pending s)
       + count_workers (fun w => negb (is_select w)) (st_workers s))%nat.

(** While no worker is lost, the failures still to be reported are those of
    the jobs [J], as long as [err] is nil, and [err] is set only when one
    of the jobs fails. *)
Definition fail_inv (resolver : Resolver) (J : list lookup) (s : state) : Prop :=
  starved (length J) s \/
  ((st_err s = None ->
    (count_workers (worker_fails resolver) (st_workers s)
     + length (List.filter (job_fails resolver) (st_pending s))
     = length (List.filter (job_fails resolver) J))%nat) /\
   (st_err s <> None -> (0 < length (List.filter (job_fails resolver) J))%nat) /\
   (count_workers (worker_fails resolver) (st_workers s)
    + length (List.filter (job_fails resolver) (st_pending s))
    <= length (List.filter (job_fails resolver) J))%nat).

End engine_properties.

(** ** The rest of [domainbl.go] *)

Module gostrings.

(** [strings.Split(s, sep)] for a separator of one byte. *)
Fixpoint Split (s : string) (sep : ascii) : list string :=
  match s with
  | EmptyString => [""]
  | String a s' =>
      if Ascii.eqb a sep then "" :: Split s' sep
      else match Split s' sep with
           | f :: fs => String a f :: fs
           | [] => [String a ""]
           end
  end.

(** [strings.Join(elems, sep)] *)
Fixpoint Join (elems : list string) (sep : string) : string :=
  match elems with
  | [] => ""
  | [e] => e
  | e :: rest => e +:+ sep +:+ Join rest sep
  end.

(** The bytes of a string. *)
Definition bytes (s : string) : list ascii := list_ascii_of_string s.

(** [len(s)] *)
Definition len (s : string) : nat := length (bytes s).

(** [s[lo:hi]], for [lo <= hi <= len(s)]. *)
Definition slice (s : string) (lo hi : nat) : string :=
  string_of_list_ascii (take (hi - lo) (drop lo (bytes s))).

(** [s[i]] *)
Definition index (s : string) (i : nat) : option ascii := bytes s !! i.

(** The scan of [strings.LastIndexByte], from index [m - 1] down. *)
Fixpoint last_index_below (l : list ascii) (c : ascii) (m : nat) : option nat :=
  match m with
  | O => None
  | S i =>
      match l !! i with
      | Some a => if Ascii.eqb a c then Some i else last_index_below l c i
      | None => last_index_below l c i
      end
  end.

(** [strings.LastIndexByte(s, c)]; [None] is the result -1. *)
Definition LastIndexByte (s : string) (c : ascii) : option nat :=
  last_index_below (bytes s) c (len s).

End gostrings.

Module strconv.

(** [strconv.ParseInt(s, 10, 32)]: an optional sign and decimal digits,
    within the range of [int32]; [None] stands for the syntax or range
    error. *)
Definition ParseInt (s : string) : option Z :=
  match s with
  | EmptyString => None
  | String c rest =>
      let neg := Ascii.eqb c "-" in
      let digits := if Ascii.eqb c "+" || neg then rest else s in
      match digits with
      | EmptyString => None
      | _ =>
          match NilEmpty.uint_of_string digits with
          | None => None
          | Some d =>
              let un := Z.of_N (N.of_uint d) in
              if neg then (if un <=? 2 ^ 31 then Some (- un) else None)
              else (if un <? 2 ^ 31 then Some un else None)
          end
      end
  end.

(** [strconv.FormatInt(n, 10)] of a number that is not negative. *)
Definition FormatUint (n : N) : string := NilZero.string_of_uint (N.to_uint n).

End strconv.

(** The loop of [bitString.Bits] over the fields, [r] being the [int64]
    sum so far; [None] stands for the error of [strconv.ParseInt]. *)
Fixpoint Bits_loop (r : Z) (values : list string) : option Z :=
  match values with
  | [] => Some (byte r)
  | value :: rest =>
      if Nat.eqb (String.length value) 0 then Bits_loop r rest
      else
        match strconv.ParseInt value with
        | None => None
        | Some n => Bits_loop (int_wrap (r + n)) rest
        end
  end.

(** [func (b bitString) Bits() (byte, error)] *)
Definition bitString_Bits (b : string) : option Z :=
  if Nat.eqb (String.length b) 0 then Some 0
  else Bits_loop 0 (gostrings.Split b "+").

(** The fields that the loop of [Bits] does not skip. *)
Definition nonempty (values : list string) : list string :=
  List.filter (fun value => negb (Nat.eqb (String.length value) 0)) values.




(** *** [state.CheckBody] *)

(** The values stored under [Misc]. *)
Inductive misc_value : Type :=
| MiscInt (n : Z)
| MiscHits (hits : list string).

(** The [Reason] of a [module.CheckResult]: [exterrors.WithFields] of the
    error of [body.Open], or an [exterrors.SMTPError]. *)
Inductive reason : Type :=
| WithFields (e : error) (check : string)
| SMTPError (Code : Z) (EnhancedCode : Z * Z * Z) (Message CheckName : string)
            (Err : option error) (Reason : string) (Misc : gmap string misc_value).

(** [module.CheckResult] *)
Record CheckResult : Type := mkCheckResult {
  cr_Reject : bool;
  cr_Quarantine : bool;
  cr_Reason : option reason
}.

(** [modconfig.FailAction] *)
Record FailAction : Type := mkFailAction { fa_Reject : bool; fa_Quarantine : bool }.

(** What [CheckBody] returns: a [module.CheckResult] literal, or the value
    of [action.Apply] on one. *)
Inductive CheckBody_return : Type :=
| Literal (res : CheckResult)
| Apply (action : FailAction) (res : CheckResult).

Definition modName : string := "check.domainbl".

(** [maximum number of DNS requests in-flight at any given time] *)
Definition concurrency : Z := 8.

Definition internal_error (e : error) : CheckBody_return :=
  Literal (mkCheckResult false false
             (Some (SMTPError 451 (4, 7, 0) "Internal error during policy check"
                              modName (Some e) "" ∅))).

(** [CheckBody] from the point where [lookupDomainBLs] has returned. *)
Definition CheckBody_decide (c : Check) (out : Z * list string * option error)
  : CheckBody_return :=
  let '(score, hits, err) := out in
  match err with
  | Some e => internal_error e
  | None =>
      let rejected (action : FailAction) (reason : string) (misc : gmap string misc_value) :=
        Apply action
              (mkCheckResult false false
                 (Some (SMTPError 550 (5, 7, 0) "Message rejected due to local policy"
                                  modName None reason misc))) in
      if score >=? rejectThres c then
        rejected (mkFailAction true false) "bl score exceeds reject threshold"
                 (<["bl-score" := MiscInt score]>
                    (<["bl-reject-threshold" := MiscInt (rejectThres c)]>
                       (<["bl-hits" := MiscHits hits]> ∅)))
      else if score >=? quarantineThres c then
        rejected (mkFailAction false true) "bl score exceeds quarantine threshold"
                 (<["bl-score" := MiscInt score]>
                    (<["bl-quarantine-threshold" := MiscInt (quarantineThres c)]>
                       (<["bl-hits" := MiscHits hits]> ∅)))
      else Literal (mkCheckResult false false None)
  end.

Section CheckBody.

Variable ParseIP : string -> net.IP.
Variable publicsuffix_Domain : string -> option string.

(** [func (s *state) CheckBody(...) module.CheckResult]: [opened] is the
    error of [body.Open()], if any, [extracted] the value of
    [extractBodyDomains]; the relation holds for every value the call can
    return. *)
Definition CheckBody (c : Check) (bls : list List) (resolver : Resolver)
           (opened : option error) (extracted : list string + error)
           (ret : CheckBody_return) : Prop :=
  match opened with
  | Some e => ret = Literal (mkCheckResult true false (Some (WithFields e modName)))
  | None =>
      match extracted with
      | inr e => ret = internal_error e
      | inl domains =>
          exists out,
            lookupDomainBLs ParseIP publicsuffix_Domain resolver domains bls
                            concurrency out /\
            ret = CheckBody_decide c out
      end
  end.

End CheckBody.

(** ** The pattern check (internal/check/pattern) *)

Module pattern.

(** [type matchResult struct] *)
Record matchResult : Type := mkMatchResult {
  Matches : bool;
  Type_ : string;
  Pattern : string;
  Value : string;
  Action : string
}.

Definition noMatch : matchResult := mkMatchResult false "" "" "" "".

(** [module.Table.Lookup]: the key to [(value, exists, err)]. *)
Definition Table := string -> string * bool * option error.

(** The loop of [checkHostAddress]; [None] when [fuel] iterations did not
    reach a [return]. *)
Fixpoint checkHostAddress_loop (fuel : nat) (hostTable : Table)
         (completeAddress : string) (sep : ascii) (address : string)
  : option (matchResult * option error) :=
  match fuel with
  | O => None
  | S fuel' =>
      match hostTable address with
      | (_, _, Some err) => Some (noMatch, Some err)
      | (action, true, None) =>
          Some (mkMatchResult true "" "" completeAddress action, None)
      | (_, false, None) =>
          let head := gostrings.slice address 0 (gostrings.len address - 1) in
          match gostrings.LastIndexByte head sep with
          | Some p =>
              checkHostAddress_loop fuel' hostTable completeAddress sep
                                    (gostrings.slice address 0 (p + 1))
          | None =>
              let sep := ":"%char in
              match gostrings.LastIndexByte head sep with
              | Some p =>
                  checkHostAddress_loop fuel' hostTable completeAddress sep
                                        (gostrings.slice address 0 (p + 1))
              | None => Some (noMatch, None)
              end
          end
      end
  end.

(** [func checkHostAddress(ctx, hostTable, address) (matchResult, error)]:
    every iteration shortens [address], so [len(address)] iterations are
    enough. *)
Definition checkHostAddress (hostTable : Table) (address : string)
  : option (matchResult * option error) :=
  if Nat.eqb (gostrings.len address) 0 then Some (noMatch, None)
  else checkHostAddress_loop (gostrings.len address) hostTable address "."%char address.

(** [func checkHostTable(ctx, hostTable, name, hostAddress)] *)
Definition checkHostTable (hostTable : Table) (name hostAddress : string)
  : option (matchResult * option error) :=
  match checkHostAddress hostTable hostAddress with
  | None => None
  | Some (_, Some err) => Some (noMatch, Some err)
  | Some (result, None) =>
      if Matches result
      then Some (mkMatchResult (Matches result) (Type_ result) name
                               (Value result) (Action result), None)
      else Some (noMatch, None)
  end.

(** The keys [checkHostAddress] tries, in order: the address, its proper
    prefixes that end in a dot, longest first, and then the proper prefixes
    of the last of these that end in a colon, longest first. *)
Definition prefixes_ending (c : ascii) (address : string) : list string :=
  map (fun m => gostrings.slice address 0 m)
      (List.filter (fun m => match gostrings.index address (m - 1) with
                             | Some a => Ascii.eqb a c
                             | None => false
                             end)
                   (rev (seq 1 (gostrings.len address - 1)))).

Definition candidates (address : string) : list string :=
  let dots := prefixes_ending "."%char address in
  address :: dots ++ prefixes_ending ":"%char (List.last dots address).

(** The first candidate the table knows or fails on decides. *)
Fixpoint first_known (hostTable : Table) (completeAddress : string)
         (keys : list string) : matchResult * option error :=
  match keys with
  | [] => (noMatch, None)
  | key :: rest =>
      match hostTable key with
      | (_, _, Some err) => (noMatch, Some err)
      | (action, true, None) => (mkMatchResult true "" "" completeAddress action, None)
      | (_, false, None) => first_known hostTable completeAddress rest
      end
  end.

(** The scan of [convertToGoRegexp] for the end of the pattern: [m] is
    [n + 1]; the result is the final [n], or [None] for [n < 0]. *)
Fixpoint scan_flags (pattern : list ascii) (m : nat) : option nat :=
  match m with
  | O => None
  | S n =>
      match pattern !! n with
      | Some c =>
          if negb (Ascii.eqb c "/") && (Nat.leb (nat_of_ascii "a") (nat_of_ascii c))
             && (Nat.leb (nat_of_ascii c) (nat_of_ascii "z"))
          then scan_flags pattern n
          else Some n
      | None => Some n
      end
  end.

(** [c >= 'a' && c <= 'z'] *)
Definition lower (c : ascii) : bool :=
  Nat.leb (nat_of_ascii "a") (nat_of_ascii c) && Nat.leb (nat_of_ascii c) (nat_of_ascii "z").

(** The groups for the flags [i], [m] and [s] among [flags], in order. *)
Fixpoint flag_groups (flags : list ascii) : string :=
  match flags with
  | [] => ""
  | f :: rest =>
      (if Ascii.eqb f "i" || Ascii.eqb f "m" || Ascii.eqb f "s"
       then "(?" +:+ String f ")" else "") +:+ flag_groups rest
  end.

(** What the [switch] writes to the builder for one flag. *)
Definition flag_group (c : ascii) : string :=
  if Ascii.eqb c "i" || Ascii.eqb c "m" || Ascii.eqb c "s" || Ascii.eqb c "U"
  then "(?" +:+ String c ")" else "".

(** [func convertToGoRegexp(pattern string) string]; [pattern[1:]] panics
    on the empty string. *)
Definition convertToGoRegexp (pattern : string) : outcome string :=
  if Nat.eqb (gostrings.len pattern) 0
  then Panic "runtime error: slice bounds out of range [1:0]"
  else
    let pattern := gostrings.slice pattern 1 (gostrings.len pattern) in
    match scan_flags (gostrings.bytes pattern) (gostrings.len pattern) with
    | None => Return ""
    | Some n =>
        if Nat.ltb n (gostrings.len pattern - 1)
        then Return (fold_left (fun b c => b +:+ flag_group c)
                               (drop (n + 1) (gostrings.bytes pattern)) ""
                     +:+ gostrings.slice pattern 0 n)
        else Return (gostrings.slice pattern 0 n)
    end.

End pattern.

(** ** Blob storage in a table (internal/storage/blob/table)

    The table is an in-memory map whose operations do not fail.  The
    goroutine of [Create] reads from the pipe the bytes the writer wrote
    before [Sync], in order; [stream] is what is left of them. *)

Module blobtable.

Definition defaultChunkSize : Z := 1 * 1024 * 1024.
Definition smallBufferSize : Z := 128 * 1024.

Inductive blob_error : Type :=
| ErrReadEOF             (* fmt.Errorf("read: %w", io.EOF) *)
| ErrNoSuchBlob          (* module.ErrNoSuchBlob *)
| ErrInvalidChunkCount   (* fmt.Errorf("invalid chunk count: %w", err) *)
| ErrChunkNotExist       (* fmt.Errorf("failed to read chunk: %w", ErrNotExist) *)
| EOF.                   (* io.EOF *)

(** [fmt.Sprintf("%s/%d", key, i)] *)
Definition chunkKey (key : string) (i : nat) : string :=
  key +:+ "/" +:+ strconv.FormatUint (N.of_nat i).

(** The length of [buf] in the goroutine of [Create]: the small buffer for
    a blob of known small size, cut to the chunk size, and a buffer of the
    chunk size otherwise. *)
Definition buf_len (chunkSize blobSize UnknownBlobSize : Z) : Z :=
  if negb (blobSize =? UnknownBlobSize) && (blobSize <=? smallBufferSize)
  then (if smallBufferSize >? chunkSize then chunkSize else smallBufferSize)
  else chunkSize.

(** The loop [for !done] of [Create] with a buffer of [N] bytes:
    [io.ReadFull] fills the buffer, or returns [io.ErrUnexpectedEOF] with
    the bytes that were left, or [io.EOF] with none.  The result is the
    table, [chunks] and whether [err] is set; [None] when [fuel]
    iterations did not end the loop. *)
Fixpoint Create_loop (fuel N : nat) (key : string) (stream : list ascii)
         (chunks : nat) (t : gmap string string)
  : option (gmap string string * nat * bool) :=
  match fuel with
  | O => None
  | S fuel' =>
      if Nat.leb N (length stream) then
        Create_loop fuel' N key (drop N stream) (S chunks)
                    (<[chunkKey key chunks := string_of_list_ascii (take N stream)]> t)
      else if Nat.ltb 0 (length stream) then
        Some (<[chunkKey key chunks := string_of_list_ascii stream]> t, S chunks, false)
      else Some (t, chunks, true)
  end.

(** [for i := 0; i < chunks; i++ { RemoveKey(key/i) }] *)
Definition remove_chunks (key : string) (chunks : nat) (t : gmap string string)
  : gmap string string :=
  foldl (fun t i => delete (chunkKey key i) t) t (seq 0 chunks).

(** The goroutine of [Create] on all the bytes [data] of the blob: the
    table it leaves and the error that [Sync] returns.  [chunks] is not
    negative, so [strconv.FormatInt] writes its decimal digits. *)
Definition Create (chunkSize blobSize UnknownBlobSize : Z) (t : gmap string string)
           (key : string) (data : list ascii)
  : option (gmap string string * option blob_error) :=
  let N := Z.to_nat (buf_len chunkSize blobSize UnknownBlobSize) in
  match Create_loop (S (length data)) N key data 0 t with
  | None => None
  | Some (t1, chunks, false) =>
      Some (<[key := strconv.FormatUint (N.of_nat chunks)]> t1, None)
  | Some (t1, chunks, true) => Some (remove_chunks key chunks t1, Some ErrReadEOF)
  end.

(** [type tableBlobReader struct] *)
Record tableBlobReader : Type := mkReader {
  r_chunks : Z;
  r_nextChunk : nat;
  r_key : string;
  r_buf : list ascii
}.

(** [func (s *Store) getChunkCount(ctx, key) (int, error)] *)
Definition getChunkCount (t : gmap string string) (key : string) : Z + blob_error :=
  match t !! key with
  | None => inr ErrNoSuchBlob
  | Some value =>
      match strconv.ParseInt value with
      | None => inr ErrInvalidChunkCount
      | Some chunks => inl chunks
      end
  end.

(** [func (s *Store) Open(ctx, key) (io.ReadCloser, error)] *)
Definition Open (t : gmap string string) (key : string) : tableBlobReader + blob_error :=
  match getChunkCount t key with
  | inr e => inr e
  | inl chunks => inl (mkReader chunks 0 key [])
  end.

(** The loop of [tableBlobReader.Read]: [room] is [len(p)], [acc] the
    bytes copied into [p] so far, [n] their count.  The result is the
    bytes copied, the count and error returned, and the reader. *)
Fixpoint Read_loop (fuel : nat) (t : gmap string string) (b : tableBlobReader)
         (room : nat) (acc : list ascii) (n : nat)
  : option (list ascii * nat * option blob_error * tableBlobReader) :=
  match fuel with
  | O => None
  | S fuel' =>
      if Nat.ltb 0 room then
        let nr := Nat.min room (length (r_buf b)) in
        let acc := acc ++ take nr (r_buf b) in
        let buf := drop nr (r_buf b) in
        let room := (room - nr)%nat in
        let n := (n + nr)%nat in
        if Nat.eqb (length buf) 0 then
          if Z.of_nat (r_nextChunk b) =? r_chunks b
          then Some (acc, n, Some EOF, mkReader (r_chunks b) (r_nextChunk b) (r_key b) buf)
          else
            match t !! chunkKey (r_key b) (r_nextChunk b) with
            | None =>
                Some (acc, nr, Some ErrChunkNotExist,
                      mkReader (r_chunks b) (r_nextChunk b) (r_key b) [])
            | Some value =>
                Read_loop fuel' t
                          (mkReader (r_chunks b) (S (r_nextChunk b)) (r_key b)
                                    (gostrings.bytes value))
                          room acc n
            end
        else Read_loop fuel' t (mkReader (r_chunks b) (r_nextChunk b) (r_key b) buf)
                       room acc n
      else Some (acc, n, None, b)
  end.

(** [func (b *tableBlobReader) Read(p []byte) (n int, err error)] for a
    [p] of [room] bytes. *)
Definition Read (fuel : nat) (t : gmap string string) (b : tableBlobReader) (room : nat)
  : option (list ascii * nat * option blob_error * tableBlobReader) :=
  Read_loop fuel t b room [] 0.

(** [func (s *Store) delete(ctx, key) error] *)
Definition delete_blob (t : gmap string string) (key : string)
  : gmap string string * option blob_error :=
  match getChunkCount t key with
  | inr e => (t, Some e)
  | inl chunks => (remove_chunks key (Z.to_nat chunks) (delete key t), None)
  end.

(** [func (s *Store) Delete(ctx, keys []string) error] *)
Definition Delete (t : gmap string string) (keys : list string)
  : gmap string string * option blob_error :=
  foldl (fun '(t, lastErr) k =>
           match delete_blob t k with
           | (t', Some e) => (t', Some e)
           | (t', None) => (t', lastErr)
           end) (t, None) keys.

(** A caller that reads with buffers of the given sizes, one after the
    other, until a read returns an error; it keeps the first [n] bytes
    of each buffer. *)
Fixpoint Reads (fuel : nat) (t : gmap string string) (b : tableBlobReader)
         (sizes : list nat) : option (list ascii * option blob_error) :=
  match sizes with
  | [] => Some ([], None)
  | room :: rest =>
      match Read fuel t b room with
      | None => None
      | Some (p, n, Some e, _) => Some (take n p, Some e)
      | Some (p, n, None, b') =>
          match Reads fuel t b' rest with
          | None => None
          | Some (q, e) => Some (take n p ++ q, e)
          end
      end
  end.

(** The bytes a reader has still to deliver when the chunks of its blob
    are [pieces]. *)
Definition remaining (pieces : list (list ascii)) (b : tableBlobReader) : list ascii :=
  r_buf b ++ concat (drop (r_nextChunk b) pieces).

(** The table holds [pieces] as the chunks of [key]. *)
Definition holds (t : gmap string string) (key : string) (pieces : list (list ascii))
  : Prop :=
  forall i piece, pieces !! i = Some piece ->
                  t !! chunkKey key i = Some (string_of_list_ascii piece).

(** The pieces [Create] cuts [data] into. *)
Fixpoint cut (fuel N : nat) (data : list ascii) : list (list ascii) :=
  match fuel with
  | O => []
  | S fuel' =>
      if Nat.leb N (length data) then take N data :: cut fuel' N (drop N data)
      else if Nat.ltb 0 (length data) then [data]
      else []
  end.

(** The table after the chunks [pieces] were set from index [chunks] on. *)
Fixpoint store (key : string) (chunks : nat) (pieces : list (list ascii))
         (t : gmap string string) : gmap string string :=
  match pieces with
  | [] => t
  | p :: ps => store key (S chunks) ps (<[chunkKey key chunks := string_of_list_ascii p]> t)
  end.

End blobtable.


Example ParseIP_v4 : fixture.ParseIP "1.2.3.4" = [0;0;0;0;0;0;0;0;0;0;255;255;1;2;3;4].
Proof. vm_compute. reflexivity. Qed.
Example ParseIP_v6 : fixture.ParseIP "2001:db8::1" = [32;1;13;184;0;0;0;0;0;0;0;0;0;0;0;1].
Proof. vm_compute. reflexivity. Qed.
Example ParseIP_lo : fixture.ParseIP "::1" = [0;0;0;0;0;0;0;0;0;0;0;0;0;0;0;1].
Proof. vm_compute. reflexivity. Qed.
Example ParseIP_any : fixture.ParseIP "::" = [0;0;0;0;0;0;0;0;0;0;0;0;0;0;0;0].
Proof. vm_compute. reflexivity. Qed.
Example ParseIP_mapped : fixture.ParseIP "::ffff:1.2.3.4" = [0;0;0;0;0;0;0;0;0;0;255;255;1;2;3;4].
Proof. vm_compute. reflexivity. Qed.
Example ParseIP_full : fixture.ParseIP "1:2:3:4:5:6:7:8" = [0;1;0;2;0;3;0;4;0;5;0;6;0;7;0;8].
Proof. vm_compute. reflexivity. Qed.
Example ParseIP_bad : map fixture.ParseIP ["example.org"; "1.2.3"; "1.2.3.256"; "01.2.3.4"; ":::"; "1::2::3"; "1:2:3:4:5:6:7:8:9"; ""; "1:2"; "g::"]
   = [[];[];[];[];[];[];[];[];[];[]].
Proof. vm_compute. reflexivity. Qed.
Example psl1 : map fixture.publicsuffix_Domain ["www.mail.example.co.uk"; "example.com"; "com"; "a..b"; "x.y.zz"; "co.uk"; "localhost"]
   = [Some "example.co.uk"; Some "example.com"; None; None; Some "y.zz"; None; None].
Proof. vm_compute. reflexivity. Qed.
(** * Properties *)

Lemma To4_length ip : net.To4 ip = [] \/ length (net.To4 ip) = 4%nat.
Proof.
  unfold net.To4.
  destruct (Nat.eqb (length ip) net.IPv4len) eqn:E4.
  - right. now apply Nat.eqb_eq in E4.
  - destruct (Nat.eqb (length ip) net.IPv6len) eqn:E16; simpl; [|now left].
    apply Nat.eqb_eq in E16.
    destruct (net.isZeros _ && _ && _); [right|now left].
    rewrite length_take, length_drop, E16. reflexivity.
Qed.

(** ** The bit test of [lookupDomainBL] *)

Lemma land_pow2_eqb (x bit : Z) :
  0 <= bit -> (Z.land x (2 ^ bit) =? 0) = negb (Z.testbit x bit).
Proof.
  intros Hb.
  destruct (Z.testbit x bit) eqn:E; simpl.
  - apply Z.eqb_neq. intros H0.
    assert (Z.testbit (Z.land x (2 ^ bit)) bit = true) as Ht.
    { rewrite Z.land_spec, E, Z.pow2_bits_true; auto. }
    rewrite H0, Z.bits_0 in Ht. discriminate.
  - apply Z.eqb_eq. apply Z.bits_inj'. intros n Hn.
    rewrite Z.land_spec, Z.bits_0.
    destruct (Z.eq_dec n bit) as [->|Hne].
    + rewrite E. reflexivity.
    + rewrite Z.pow2_bits_false by lia. apply andb_false_r.
Qed.

Lemma bits_loop_spec (Bits res : Z) (remaining : nat) (bit : Z) :
  0 <= bit -> bit + Z.of_nat remaining <= 8 ->
  bits_loop Bits res remaining bit = true <->
  exists b, bit <= b < bit + Z.of_nat remaining /\
            Z.testbit Bits b = true /\ Z.testbit res b = true.
Proof.
  revert bit. induction remaining as [|k IH]; intros bit H0 H8.
  - simpl. split; [discriminate|]. intros (b & Hb & _). lia.
  - cbn [bits_loop].
    assert (byte (Z.shiftl 1 bit) = 2 ^ bit) as ->.
    { unfold byte. rewrite Z.shiftl_1_l. apply Z.mod_small.
      split; [apply Z.pow_nonneg; lia|].
      apply Z.lt_le_trans with (2 ^ 8); [|reflexivity].
      apply Z.pow_lt_mono_r; lia. }
    rewrite !land_pow2_eqb, !negb_involutive by lia.
    destruct (Z.testbit Bits bit && Z.testbit res bit) eqn:E.
    + apply andb_true_iff in E as [E1 E2].
      split; [|reflexivity]. intros _. exists bit. repeat split; auto; lia.
    + rewrite IH by lia. split.
      * intros (b & Hb & Hx). exists b. split; [lia|exact Hx].
      * intros (b & Hb & H1 & H2).
        destruct (Z.eq_dec b bit) as [->|Hne].
        -- rewrite H1, H2 in E. discriminate.
        -- exists b. split; [lia|auto].
Qed.

Lemma bits_loop_overlap (Bits res : Z) :
  bits_loop Bits res 8 0 = true <-> overlap Bits res.
Proof.
  rewrite bits_loop_spec by (simpl; lia). unfold overlap.
  split; intros (b & Hb & Hx); exists b; (split; [simpl in *; lia|exact Hx]).
Qed.

Section lookupDomainBL_facts.

Variable ParseIP : string -> net.IP.

Local Abbreviation is_IPv4 := (is_IPv4 ParseIP).
Local Abbreviation hits_mask := (hits_mask ParseIP).

Lemma is_IPv4_not_IPv6 addr : is_IPv4 addr -> ~ is_IPv6 ParseIP addr.
Proof. intros (res & _ & Hres) [_ H6]. rewrite H6 in Hres. discriminate. Qed.

(** The loop over addresses that are all IPv4: the weight on a hit, zero
    otherwise. *)
Lemma addrs_loop_cases bl addrs :
  Forall is_IPv4 addrs ->
  (Exists (hits_mask (Bits bl)) addrs /\
     addrs_loop ParseIP bl addrs = Return (ScoreAdj bl, None)) \/
  (~ Exists (hits_mask (Bits bl)) addrs /\
     addrs_loop ParseIP bl addrs = Return (0, None)).
Proof.
  induction addrs as [|addr rest IH]; intros Hall.
  - right. split; [intros H; inversion H|reflexivity].
  - inversion Hall as [|? ? [res [Hnil Hres]] Hall']; subst.
    cbn [addrs_loop]. destruct (ParseIP addr) as [|b0 ip] eqn:EP; [congruence|].
    rewrite Hres.
    destruct (bits_loop (Bits bl) res 8 0) eqn:EB.
    + left. split; [|reflexivity]. left. exists res. split.
      * split; [congruence|]. rewrite EP. exact Hres.
      * now apply bits_loop_overlap.
    + destruct (IH Hall') as [[Hex Heq]|[Hex Heq]].
      * left. split; [now right|exact Heq].
      * right. split; [|exact Heq].
        intros H. inversion H as [? ? (res' & [_ Hres'] & Hov)|]; subst; [|auto].
        rewrite EP, Hres in Hres'. injection Hres' as <-.
        apply bits_loop_overlap in Hov. congruence.
Qed.

(** C3: when the resolution succeeds with IPv4 addresses only, the job
    returns the entry's score weight when one of the eight bit positions
    is set both in the entry's mask and in the last octet of a returned
    address, and zero otherwise; for a weight other than zero this is an
    equivalence.  The result is the weight or zero, never a multiple, and
    never an error.  With mask 128, a single address with last octet 254
    scores the weight and one with last octet 64 scores zero. *)
Theorem lookupDomainBL_bit_match resolver domain bl addrs :
  resolver (blDomain domain bl) = (addrs, None) ->
  Forall is_IPv4 addrs ->
  (Exists (hits_mask (Bits bl)) addrs ->
     lookupDomainBL ParseIP resolver domain bl = Return (ScoreAdj bl, None)) /\
  (~ Exists (hits_mask (Bits bl)) addrs ->
     lookupDomainBL ParseIP resolver domain bl = Return (0, None)) /\
  (ScoreAdj bl <> 0 ->
     (lookupDomainBL ParseIP resolver domain bl = Return (ScoreAdj bl, None)
      <-> Exists (hits_mask (Bits bl)) addrs)) /\
  (lookupDomainBL ParseIP resolver domain bl = Return (ScoreAdj bl, None) \/
   lookupDomainBL ParseIP resolver domain bl = Return (0, None)) /\
  (Bits bl = 128 -> forall addr, addrs = [addr] ->
     (IPv4_octet ParseIP addr 254 ->
        lookupDomainBL ParseIP resolver domain bl = Return (ScoreAdj bl, None)) /\
     (IPv4_octet ParseIP addr 64 ->
        lookupDomainBL ParseIP resolver domain bl = Return (0, None))).
Proof.
  intros Hres Hall. unfold lookupDomainBL. rewrite Hres.
  destruct (addrs_loop_cases bl addrs Hall) as [[Hex Heq]|[Hex Heq]]; rewrite Heq.
  - split; [reflexivity|]. split; [contradiction|].
    split; [intros _; split; auto|]. split; [now left|].
    intros HB addr -> . split; [reflexivity|].
    intros [Hnil H64]. exfalso.
    inversion Hex as [? ? (res & [_ Hr] & Hov)|? ? Hnone]; subst; [|inversion Hnone].
    rewrite H64 in Hr. injection Hr as <-. rewrite HB in Hov.
    destruct Hov as (bit & Hb & H1 & H2).
    assert (bit = 0 \/ bit = 1 \/ bit = 2 \/ bit = 3 \/ bit = 4 \/ bit = 5
            \/ bit = 6 \/ bit = 7) as Hc by lia.
    repeat (destruct Hc as [->|Hc]; [vm_compute in H1, H2; congruence|]).
    subst. vm_compute in H1, H2; congruence.
  - split; [contradiction|]. split; [reflexivity|].
    split; [|split; [now right|]].
    + intros Hne. split; [|contradiction]. intros H. congruence.
    + intros HB addr ->. split; [|reflexivity].
      intros H254. exfalso. apply Hex. left. exists 254. split; [exact H254|].
      rewrite HB. exists 7. repeat split; try lia.
Qed.

End lookupDomainBL_facts.

Lemma lookupDomainBL_bit_match_witness :
  let bl := mkList "domainbl.example.org" 128 1 in
  let resolver := fixture.mockBLResolver "127.0.0.254" None in
  resolver (blDomain "turrible-spammer.example.org" bl) = (["127.0.0.254"], None) /\
  Forall (is_IPv4 fixture.ParseIP) ["127.0.0.254"] /\
  lookupDomainBL fixture.ParseIP resolver "turrible-spammer.example.org" bl
    = Return (1, None).
Proof.
  intros bl resolver.
  assert (Forall (is_IPv4 fixture.ParseIP) ["127.0.0.254"]) as Hall.
  { repeat constructor. exists 254. split; [vm_compute; discriminate|reflexivity]. }
  split; [reflexivity|]. split; [exact Hall|].
  apply (proj1 (lookupDomainBL_bit_match fixture.ParseIP resolver
                  "turrible-spammer.example.org" bl ["127.0.0.254"] eq_refl Hall)).
  apply Exists_cons_hd. exists 254. split; [split; [vm_compute; discriminate|reflexivity]|].
  exists 7. repeat split; lia.
Defined.

(** ** Malformed responses *)

Section malformed_facts.

Variable ParseIP : string -> net.IP.

Local Abbreviation IPv4_miss := (IPv4_miss ParseIP).

Lemma addrs_loop_bad_prefix bl pre addr post :
  Forall (IPv4_miss (Bits bl)) pre -> ParseIP addr = [] ->
  addrs_loop ParseIP bl (pre ++ addr :: post) = Return (0, Some errBadBLResponse).
Proof.
  intros Hpre Hbad. induction Hpre as [|a pre [(res & Hnil & Hres) Hmiss] _ IH].
  - simpl. rewrite Hbad. reflexivity.
  - cbn [app addrs_loop].
    destruct (ParseIP a) as [|b0 ip] eqn:EP; [congruence|]. rewrite Hres.
    destruct (bits_loop (Bits bl) res 8 0) eqn:EB; [|exact IH].
    exfalso. apply Hmiss. exists res. split.
    + split; [congruence|]. rewrite EP. exact Hres.
    + now apply bits_loop_overlap.
Qed.

Lemma addrs_loop_bad_inv bl addrs :
  addrs_loop ParseIP bl addrs = Return (0, Some errBadBLResponse) ->
  exists pre addr post,
    addrs = (pre ++ addr :: post)%list /\
    Forall (IPv4_miss (Bits bl)) pre /\ ParseIP addr = [].
Proof.
  induction addrs as [|a rest IH]; cbn [addrs_loop]; [discriminate|].
  destruct (ParseIP a) as [|b0 ip] eqn:EP.
  - intros _. exists [], a, rest. repeat split; auto.
  - destruct (net.To4 (b0 :: ip) !! 3%nat) as [res|] eqn:Hres; [|discriminate].
    destruct (bits_loop (Bits bl) res 8 0) eqn:EB; [discriminate|].
    intros H. destruct (IH H) as (pre & addr & post & -> & Hpre & Hbad).
    exists (a :: pre), addr, post. repeat split; auto.
    constructor; [|exact Hpre]. split.
    + exists res. split; [congruence|]. rewrite EP. exact Hres.
    + intros (res' & [_ Hres'] & Hov). rewrite EP, Hres in Hres'.
      injection Hres' as <-. apply bits_loop_overlap in Hov. congruence.
Qed.

Lemma addrs_loop_hit_prefix bl pre post :
  Forall (is_IPv4 ParseIP) pre -> Exists (hits_mask ParseIP (Bits bl)) pre ->
  addrs_loop ParseIP bl (pre ++ post) = Return (ScoreAdj bl, None).
Proof.
  induction pre as [|a pre IH]; intros Hall Hex; [inversion Hex|].
  inversion Hall as [|? ? (res & Hnil & Hres) Hall']; subst.
  cbn [app addrs_loop].
  destruct (ParseIP a) as [|b0 ip] eqn:EP; [congruence|]. rewrite Hres.
  destruct (bits_loop (Bits bl) res 8 0) eqn:EB; [reflexivity|].
  apply IH; [exact Hall'|].
  inversion Hex as [? ? (res' & [_ Hres'] & Hov)|]; subst; [|assumption].
  rewrite EP, Hres in Hres'. injection Hres' as <-.
  apply bits_loop_overlap in Hov. congruence.
Qed.

(** C4, as the code has it: when the resolution succeeds and a returned
    address that is no IP literal is preceded only by IPv4 addresses whose
    last octet shares no bit with the entry's mask, the job returns the
    malformed-response error, with score 0.  Addresses that follow a
    hitting address are not examined: the job returns the weight whatever
    they are. *)
Theorem lookupDomainBL_malformed resolver domain bl addrs :
  resolver (blDomain domain bl) = (addrs, None) ->
  (forall pre addr post,
      addrs = pre ++ addr :: post ->
      Forall (IPv4_miss (Bits bl)) pre -> ParseIP addr = [] ->
      lookupDomainBL ParseIP resolver domain bl
      = Return (0, Some errBadBLResponse)) /\
  (forall pre post,
      addrs = pre ++ post ->
      Forall (is_IPv4 ParseIP) pre -> Exists (hits_mask ParseIP (Bits bl)) pre ->
      lookupDomainBL ParseIP resolver domain bl = Return (ScoreAdj bl, None)).
Proof.
  intros Hres. unfold lookupDomainBL. rewrite Hres. split.
  - intros pre addr post -> Hpre Hbad. now apply addrs_loop_bad_prefix.
  - intros pre post -> Hall Hex. now apply addrs_loop_hit_prefix.
Qed.

End malformed_facts.

Lemma lookupDomainBL_malformed_witness :
  let bl := mkList "bl.example.org" 2 1 in
  let resolver := fixture.mockBLResolver "not-an-address" None in
  resolver (blDomain "spam.example.com" bl) = (["not-an-address"], None) /\
  lookupDomainBL fixture.ParseIP resolver "spam.example.com" bl
    = Return (0, Some errBadBLResponse).
Proof.
  intros bl resolver. split; [reflexivity|].
  apply (proj1 (lookupDomainBL_malformed fixture.ParseIP resolver
                  "spam.example.com" bl ["not-an-address"] eq_refl)
           [] "not-an-address" []); [reflexivity|constructor|reflexivity].
Defined.

(** C4 as stated fails: an address that is no IPv4 literal, returned after
    an address that hits, is never looked at; the job returns the weight. *)
Lemma lookupDomainBL_malformed_counterexample :
  ~ (forall (resolver : Resolver) domain bl addrs,
        resolver (blDomain domain bl) = (addrs, None) ->
        Exists (fun a => ~ is_IPv4 fixture.ParseIP a) addrs ->
        lookupDomainBL fixture.ParseIP resolver domain bl
          = Return (0, Some errBadBLResponse)).
Proof.
  intros H.
  specialize (H (fun _ => (["127.0.0.2"; "not-an-address"], None))
                "spam.example.com" (mkList "bl.example.org" 2 1)
                ["127.0.0.2"; "not-an-address"] eq_refl).
  assert (lookupDomainBL fixture.ParseIP
            (fun _ => (["127.0.0.2"; "not-an-address"], None))
            "spam.example.com" (mkList "bl.example.org" 2 1) = Return (1, None))
    as Heval by (vm_compute; reflexivity).
  rewrite Heval in H. enough (Return (1, @None error) = Return (0, Some errBadBLResponse))
    by discriminate.
  apply H. apply Exists_cons_tl, Exists_cons_hd.
  intros (res & Hnil & _). apply Hnil. vm_compute. reflexivity.
Qed.

(** An IPv6 address in the response: [ip.To4()] is nil and indexing it
    panics; [lookupDomainBL] does not return. *)
Lemma lookupDomainBL_IPv6_response_panics :
  is_IPv6 fixture.ParseIP "2001:db8::1" /\
  lookupDomainBL fixture.ParseIP (fixture.mockBLResolver "2001:db8::1" None)
    "spam.example.com" (mkList "bl.example.org" 2 1)
  = Panic "runtime error: index out of range [3] with length 0".
Proof.
  split; [split; [vm_compute; discriminate|]|]; vm_compute; reflexivity.
Qed.

(** ** The resolution step *)

(** C5: the job queries the host name [domain + "." + bl.Zone] and nothing
    else; a [*net.DNSError] with [IsNotFound] gives score 0 and no error,
    every other resolver error is returned as the job's error, with
    score 0. *)
Theorem lookupDomainBL_resolution (ParseIP : string -> net.IP)
        (resolver : Resolver) domain bl :
  blDomain domain bl = domain +:+ "." +:+ Zone bl /\
  (forall resolver' : Resolver,
      resolver' (domain +:+ "." +:+ Zone bl) = resolver (domain +:+ "." +:+ Zone bl) ->
      lookupDomainBL ParseIP resolver' domain bl
      = lookupDomainBL ParseIP resolver domain bl) /\
  (forall addrs msg,
      resolver (domain +:+ "." +:+ Zone bl) = (addrs, Some (DNSError true msg)) ->
      lookupDomainBL ParseIP resolver domain bl = Return (0, None)) /\
  (forall addrs e,
      resolver (domain +:+ "." +:+ Zone bl) = (addrs, Some e) ->
      (forall msg, e <> DNSError true msg) ->
      lookupDomainBL ParseIP resolver domain bl = Return (0, Some e)).
Proof.
  split; [reflexivity|]. unfold lookupDomainBL, blDomain.
  split; [intros resolver' ->; reflexivity|]. split.
  - intros addrs msg ->. reflexivity.
  - intros addrs e -> Hne. destruct e as [[] m| | | | |]; try reflexivity.
    now destruct (Hne m).
Qed.

Lemma lookupDomainBL_resolution_witness :
  let bl := mkList "domainbl.example.org" 128 1 in
  lookupDomainBL fixture.ParseIP
    (fixture.mockBLResolver "" (Some (DNSError true "no such host")))
    "goodguy.example.org" bl = Return (0, None) /\
  lookupDomainBL fixture.ParseIP
    (fixture.mockBLResolver "" (Some (DNSError false "server misbehaving")))
    "failure.example.org" bl
  = Return (0, Some (DNSError false "server misbehaving")).
Proof.
  intros bl. split.
  - apply (proj1 (proj2 (proj2 (lookupDomainBL_resolution fixture.ParseIP
             (fixture.mockBLResolver "" (Some (DNSError true "no such host")))
             "goodguy.example.org" bl))) [] "no such host").
    reflexivity.
  - apply (proj2 (proj2 (proj2 (lookupDomainBL_resolution fixture.ParseIP
             (fixture.mockBLResolver "" (Some (DNSError false "server misbehaving")))
             "failure.example.org" bl))) []).
    + reflexivity.
    + intros msg. discriminate.
Defined.

(** ** The policy decision *)

(** C7: the decision is reject when the score reaches the reject threshold,
    otherwise quarantine when it reaches the quarantine threshold,
    otherwise allow; reject is tested first, so a score that reaches both
    thresholds is rejected whatever their order.  Without configuration
    the quarantine threshold is 1 and the reject threshold is 9999. *)
Theorem CheckBody_action_spec (c : Check) (score : Z) :
  (score >= rejectThres c -> CheckBody_action c score = Reject) /\
  (score < rejectThres c -> score >= quarantineThres c ->
     CheckBody_action c score = Quarantine) /\
  (score < rejectThres c -> score < quarantineThres c ->
     CheckBody_action c score = Allow) /\
  (score >= rejectThres c -> score >= quarantineThres c ->
     rejectThres c < quarantineThres c -> CheckBody_action c score = Reject) /\
  (forall cfg : gmap string Z,
      (cfg !! "quarantine_threshold" = None -> quarantineThres (Init cfg) = 1) /\
      (cfg !! "reject_threshold" = None -> rejectThres (Init cfg) = 9999) /\
      (forall v, cfg !! "quarantine_threshold" = Some v -> quarantineThres (Init cfg) = v) /\
      (forall v, cfg !! "reject_threshold" = Some v -> rejectThres (Init cfg) = v)).
Proof.
  unfold CheckBody_action.
  repeat split; intros; unfold Init, cfg_Int; cbn [quarantineThres rejectThres];
    repeat match goal with
           | H : _ !! _ = _ |- _ => rewrite H
           | |- context [?a >=? ?b] => destruct (Z.geb_spec a b); try lia
           end; reflexivity.
Qed.

Lemma CheckBody_action_spec_witness :
  CheckBody_action (mkCheck 5 1) 7 = Reject /\
  CheckBody_action (Init ∅) 1 = Quarantine /\
  CheckBody_action (Init ∅) 0 = Allow /\
  rejectThres (Init ∅) = 9999.
Proof.
  split; [|split; [|split]].
  - apply (proj1 (proj2 (proj2 (proj2 (CheckBody_action_spec (mkCheck 5 1) 7)))));
      simpl; lia.
  - apply (proj1 (proj2 (CheckBody_action_spec (Init ∅) 1))); vm_compute; congruence.
  - apply (proj1 (proj2 (proj2 (CheckBody_action_spec (Init ∅) 0)))); vm_compute; congruence.
  - apply (proj1 (proj2 (proj2 (proj2 (proj2 (proj2
             (CheckBody_action_spec (Init ∅) 0)))) ∅))).
    reflexivity.
Defined.

(** ** [cleanupDomains] *)

Section cleanupDomains_facts.

Variable ParseIP : string -> net.IP.
Variable publicsuffix_Domain : string -> option string.

Local Abbreviation key_of := (cleanup_key ParseIP publicsuffix_Domain).
Local Abbreviation uniq := (unique_of ParseIP publicsuffix_Domain).
Local Abbreviation cleanup := (cleanupDomains ParseIP publicsuffix_Domain).


Lemma elem_of_foldl_unique (acc : gset string) domains x :
  x ∈ foldl (fun unique domain =>
               match key_of domain with
               | Some key => {[ key ]} ∪ unique
               | None => unique
               end) acc domains
  <-> x ∈ acc \/ exists d, d ∈ domains /\ key_of d = Some x.
Proof.
  revert acc. induction domains as [|d ds IH]; intros acc; simpl.
  - split; [auto|]. intros [H|(d & Hd & _)]; [exact H|]. inversion Hd.
  - rewrite IH. split.
    + intros [H|(d' & Hd' & Hk)].
      * destruct (key_of d) as [k|] eqn:E; [|now left].
        apply elem_of_union in H as [H|H]; [|now left].
        apply elem_of_singleton in H as ->. right. exists d. split; [left|exact E].
      * right. exists d'. split; [now right|exact Hk].
    + intros [H|(d' & Hd' & Hk)].
      * left. destruct (key_of d); [apply elem_of_union; now right|exact H].
      * apply elem_of_cons in Hd' as [->|Hd'].
        -- left. rewrite Hk. apply elem_of_union. left. now apply elem_of_singleton.
        -- right. exists d'. auto.
Qed.

Lemma elem_of_unique_of domains x :
  x ∈ uniq domains <-> exists d, d ∈ domains /\ key_of d = Some x.
Proof.
  unfold unique_of. rewrite elem_of_foldl_unique. split; [|auto].
  intros [H|H]; [|exact H]. set_solver.
Qed.

Lemma size_unique_of domains : (size (uniq domains) <= length domains)%nat.
Proof.
  unfold size, set_size. simpl.
  transitivity (length (omap key_of domains)).
  - apply submseteq_length, NoDup_submseteq; [apply NoDup_elements|].
    intros x Hx. apply elem_of_elements, elem_of_unique_of in Hx as (d & Hd & Hk).
    apply list_elem_of_omap. eauto.
  - induction domains as [|d ds IH]; [reflexivity|].
    change (omap key_of (d :: ds))
      with (match key_of d with Some k => k :: omap key_of ds | None => omap key_of ds end).
    destruct (key_of d); simpl; lia.
Qed.

Lemma cleanupDomains_elem_of domains out x :
  cleanup domains out ->
  x ∈ out <-> exists d, d ∈ domains /\ key_of d = Some x.
Proof.
  unfold cleanupDomains, range_unique. intros ->.
  rewrite elem_of_elements. apply elem_of_unique_of.
Qed.

Lemma cleanupDomains_length domains out :
  cleanup domains out -> (length out <= length domains)%nat.
Proof.
  unfold cleanupDomains, range_unique. intros ->. apply size_unique_of.
Qed.

(** The key one iteration stores, by cases on the input string. *)
Lemma cleanup_key_Some d x :
  key_of d = Some x <->
  d <> "" /\
  ((exists a b c e, ParseIP d <> [] /\ net.To4 (ParseIP d) = [a; b; c; e] /\
                    x = net.String4 [e; c; b; a]) \/
   (ParseIP d = [] /\
    (publicsuffix_Domain d = Some x \/ (publicsuffix_Domain d = None /\ x = d)))).
Proof.
  unfold cleanup_key. case_bool_decide as Hd.
  - split; [discriminate|]. intros [H _]. contradiction.
  - destruct (ParseIP d) as [|b0 ip] eqn:EP.
    + destruct (publicsuffix_Domain d) as [base|] eqn:ED.
      * split.
        -- intros [= <-]. split; [exact Hd|]. right. auto.
        -- intros (_ & [(a & b & c & e & Hn & _)|(_ & [[= ->]|[? _]])]);
             congruence.
      * split.
        -- intros [= <-]. split; [exact Hd|]. right. auto.
        -- intros (_ & [(a & b & c & e & Hn & _)|(_ & [?|[_ ->]])]);
             congruence.
    + pose proof (To4_length (b0 :: ip)) as Hlen.
      destruct (net.To4 (b0 :: ip)) as [|a [|b [|c [|e [|? ?]]]]] eqn:E4;
        try (destruct Hlen as [Hlen|Hlen]; simpl in Hlen; congruence).
      * split; [discriminate|].
        intros (_ & [(a & b & c & e & _ & H & _)|(H & _)]); congruence.
      * split.
        -- intros [= <-]. split; [exact Hd|]. left.
           exists a, b, c, e. repeat split; congruence.
        -- intros (_ & [(a' & b' & c' & e' & _ & [= <- <- <- <-] & ->)|(H & _)]);
             [reflexivity|congruence].
Qed.

Lemma cleanup_key_None d :
  key_of d = None <-> d = "" \/ is_IPv6 ParseIP d.
Proof.
  unfold cleanup_key, is_IPv6. case_bool_decide as Hd.
  - split; auto.
  - destruct (ParseIP d) as [|b0 ip] eqn:EP.
    + destruct (publicsuffix_Domain d); split; try discriminate;
        intros [?|[? _]]; congruence.
    + destruct (net.To4 (b0 :: ip)) eqn:E4.
      * split; [|reflexivity]. intros _. right. split; congruence.
      * split; [discriminate|]. intros [?|[_ ?]]; congruence.
Qed.

Lemma String4_nonempty a b c e : net.String4 [a; b; c; e] <> "".
Proof. unfold net.String4. destruct (net.uitoa a); discriminate. Qed.

(** C6: in the list [cleanupDomains] returns, every non-empty input that
    parses as an IPv4 address appears with its four octets reversed;
    every other non-empty input that is no IP literal appears as its
    registrable domain, or unchanged when [publicsuffix.Domain] fails;
    empty strings and IPv6 literals contribute nothing, every element
    comes from an input of the first two kinds; no element appears twice;
    and the empty string is not an element, given that
    [publicsuffix.Domain] never succeeds with the empty string. *)
Theorem cleanupDomains_normalizes domains out :
  cleanup domains out ->
  (forall d a b c e,
      d ∈ domains -> d <> "" -> ParseIP d <> [] ->
      net.To4 (ParseIP d) = [a; b; c; e] -> net.String4 [e; c; b; a] ∈ out) /\
  (forall d,
      d ∈ domains -> d <> "" -> ParseIP d = [] ->
      match publicsuffix_Domain d with
      | Some base => base ∈ out
      | None => d ∈ out
      end) /\
  (forall d, d ∈ domains -> d = "" \/ is_IPv6 ParseIP d -> key_of d = None) /\
  (forall x,
      x ∈ out ->
      exists d, d ∈ domains /\ d <> "" /\ ~ is_IPv6 ParseIP d /\
        ((exists a b c e, ParseIP d <> [] /\ net.To4 (ParseIP d) = [a; b; c; e] /\
                          x = net.String4 [e; c; b; a]) \/
         (ParseIP d = [] /\
          (publicsuffix_Domain d = Some x \/
           (publicsuffix_Domain d = None /\ x = d))))) /\
  NoDup out /\
  ((forall d base, publicsuffix_Domain d = Some base -> base <> "") -> "" ∉ out).
Proof.
  intros Hout.
  pose proof (fun x => cleanupDomains_elem_of domains out x Hout) as Hin.
  split; [|split; [|split; [|split; [|split]]]].
  - intros d a b c e Hd Hne Hip H4. apply Hin. exists d. split; [exact Hd|].
    apply cleanup_key_Some. split; [exact Hne|]. left. exists a, b, c, e. auto.
  - intros d Hd Hne Hip.
    destruct (publicsuffix_Domain d) as [base|] eqn:ED; apply Hin; exists d;
      (split; [exact Hd|]); apply cleanup_key_Some; (split; [exact Hne|]);
      right; auto.
  - intros d _ H. now apply cleanup_key_None.
  - intros x Hx. apply Hin in Hx as (d & Hd & Hk). exists d.
    split; [exact Hd|].
    assert (~ (d = "" \/ is_IPv6 ParseIP d)) as Hkept.
    { intros H. apply cleanup_key_None in H. congruence. }
    apply cleanup_key_Some in Hk as [Hne Hk].
    split; [exact Hne|]. split; [tauto|exact Hk].
  - unfold cleanupDomains, range_unique in Hout. rewrite Hout. apply NoDup_elements.
  - intros Hpsl Hx. apply Hin in Hx as (d & Hd & Hk).
    apply cleanup_key_Some in Hk
      as (Hne & [(a & b & c & e & _ & _ & Hx)|(_ & [Hx|[_ Hx]])]).
    + symmetry in Hx. now apply String4_nonempty in Hx.
    + now apply Hpsl in Hx.
    + congruence.
Qed.

End cleanupDomains_facts.

Lemma cleanupDomains_normalizes_witness :
  let domains := ["1.2.3.4"; ""; "2001:db8::1"; "www.mail.example.co.uk";
                  "example.co.uk"; "localhost"; "1.2.3.4"] in
  let out := cleanupDomains_exec fixture.ParseIP fixture.publicsuffix_Domain domains in
  cleanupDomains fixture.ParseIP fixture.publicsuffix_Domain domains out /\
  "4.3.2.1" ∈ out /\ "example.co.uk" ∈ out /\ "localhost" ∈ out /\ NoDup out /\
  length out = 3%nat.
Proof.
  intros domains out.
  assert (cleanupDomains fixture.ParseIP fixture.publicsuffix_Domain domains out)
    as Hout by (unfold cleanupDomains, range_unique; reflexivity).
  destruct (cleanupDomains_normalizes fixture.ParseIP fixture.publicsuffix_Domain
              domains out Hout) as (H4 & Hdom & _ & _ & Hnd & _).
  split; [exact Hout|]. split; [|split; [|split; [|split]]].
  - apply (H4 "1.2.3.4" 1 2 3 4); [left|discriminate|vm_compute; discriminate|reflexivity].
  - apply (Hdom "www.mail.example.co.uk");
      [do 3 right; left|discriminate|reflexivity].
  - apply (Hdom "localhost"); [do 5 right; left|discriminate|reflexivity].
  - exact Hnd.
  - vm_compute. reflexivity.
Defined.


(** ** [cleanupDomains] on the caller's slice *)

Lemma slice_valid_append h s x :
  slice.valid h s -> (slice.len s < slice.cap s)%nat ->
  slice.append (h, s) x
  = (<[slice.ptr s := <[slice.len s := x]> (slice.array h s)]> h,
     slice.mk (slice.ptr s) (S (slice.len s)) (slice.cap s)).
Proof.
  intros _ Hlt. unfold slice.append.
  destruct (Nat.ltb_spec (slice.len s) (slice.cap s)); [reflexivity|lia].
Qed.

Lemma take_S_insert {A} (l : list A) (n : nat) (x : A) :
  (n < length l)%nat -> take (S n) (<[n := x]> l) = take n l ++ [x].
Proof.
  intros Hn. rewrite insert_take_drop by exact Hn.
  rewrite take_app, length_take, Nat.min_l by lia.
  rewrite take_ge by (rewrite length_take; lia).
  replace (S n - n)%nat with 1%nat by lia. reflexivity.
Qed.

(** Appends that fit the capacity write the cells after the slice and move
    no array. *)
Lemma foldl_append_in_place order :
  forall h s,
    slice.valid h s -> (slice.len s + length order <= slice.cap s)%nat ->
    foldl slice.append (h, s) order
    = (<[slice.ptr s :=
           take (slice.len s) (slice.array h s) ++ order
             ++ drop (slice.len s + length order) (slice.array h s)]> h,
       slice.mk (slice.ptr s) (slice.len s + length order) (slice.cap s)).
Proof.
  induction order as [|x order IH]; intros h s Hv Hcap.
  - simpl. rewrite Nat.add_0_r, take_drop.
    destruct s as [p l c]. destruct Hv as (Hl & Hp & Ha). simpl in *.
    f_equal. unfold slice.array. simpl.
    destruct (h !! p) as [arr|] eqn:E.
    + simpl. symmetry. now apply list_insert_id.
    + apply lookup_ge_None in E. lia.
  - simpl in Hcap. cbn [foldl]. rewrite slice_valid_append by (auto; lia).
    destruct Hv as (Hl & Hp & Ha).
    set (arr := slice.array h s) in *.
    set (h1 := <[slice.ptr s := <[slice.len s := x]> arr]> h).
    set (s1 := slice.mk (slice.ptr s) (S (slice.len s)) (slice.cap s)).
    assert (slice.array h1 s1 = <[slice.len s := x]> arr) as Harr.
    { unfold slice.array, h1, s1. cbn [slice.ptr].
      rewrite list_lookup_insert_eq by exact Hp. reflexivity. }
    assert (slice.valid h1 s1) as Hv1.
    { unfold slice.valid. rewrite Harr. unfold h1, s1. simpl.
      rewrite !length_insert. repeat split; auto; lia. }
    rewrite (IH h1 s1 Hv1) by (simpl; lia).
    rewrite Harr. unfold h1, s1. simpl.
    rewrite list_insert_insert_eq. f_equal; [|f_equal; lia]. f_equal.
    rewrite drop_insert_lt by lia.
    replace (slice.len s + S (length order))%nat
      with (S (slice.len s + length order)) by lia.
    rewrite take_S_insert by lia. rewrite <- app_assoc.
    reflexivity.
Qed.

Section cleanupDomains_store_facts.

Variable ParseIP : string -> net.IP.
Variable publicsuffix_Domain : string -> option string.

(** C10: [cleanupDomains] works in the caller's backing array.  The
    returned slice has the caller's array and capacity, no array is
    allocated, the returned list is not longer than the input, and after
    the call the caller's slice reads as the normalized entries followed
    by what is left of its old elements: the first [len(out)] raw domains
    are overwritten. *)
Theorem cleanupDomains_store_in_place h domains order :
  slice.valid h domains ->
  cleanupDomains ParseIP publicsuffix_Domain (slice.read h domains) order ->
  let h' := fst (cleanupDomains_store order h domains) in
  let out := snd (cleanupDomains_store order h domains) in
  slice.ptr out = slice.ptr domains /\
  slice.cap out = slice.cap domains /\
  length h' = length h /\
  (forall p, p <> slice.ptr domains -> h' !! p = h !! p) /\
  (slice.len out <= slice.len domains)%nat /\
  slice.read h' out = order /\
  slice.read h' domains
  = (order ++ drop (length order) (slice.read h domains))%list.
Proof.
  intros Hv Hord h' out.
  assert (length order <= slice.len domains)%nat as Hlen.
  { apply cleanupDomains_length in Hord.
    destruct Hv as (Hl & _ & Ha). unfold slice.read in Hord.
    rewrite length_take in Hord. lia. }
  destruct Hv as (Hl & Hp & Ha).
  assert (slice.valid h (slice.reslice0 domains)) as Hv0.
  { unfold slice.valid, slice.reslice0, slice.array in *. simpl. repeat split; auto; lia. }
  unfold h', out, cleanupDomains_store.
  rewrite (foldl_append_in_place order h _ Hv0) by (simpl; lia).
  cbn [fst snd slice.reslice0 slice.ptr slice.len slice.cap take Nat.add app].
  change (slice.array h (slice.mk (slice.ptr domains) 0 (slice.cap domains)))
    with (slice.array h domains).
  set (arr := slice.array h domains) in *.
  split; [reflexivity|]. split; [reflexivity|].
  split; [apply length_insert|].
  split; [intros p Hne; now apply list_lookup_insert_ne|].
  split; [exact Hlen|].
  unfold slice.read, slice.array. simpl.
  rewrite !list_lookup_insert_eq by exact Hp. simpl. split.
  - apply take_app_length.
  - rewrite take_app, (take_ge order) by lia. f_equal.
    fold arr. rewrite take_drop_commute. f_equal. f_equal. lia.
Qed.

End cleanupDomains_store_facts.

Lemma cleanupDomains_store_in_place_witness :
  let h := [["www.example.com"; "mail.example.com"; "2001:db8::1"; ""]] in
  let domains := slice.mk 0 3 4 in
  let order := ["example.com"] in
  slice.valid h domains /\
  cleanupDomains fixture.ParseIP fixture.publicsuffix_Domain (slice.read h domains) order /\
  snd (cleanupDomains_store order h domains) = slice.mk 0 1 4 /\
  slice.read (fst (cleanupDomains_store order h domains)) domains
  = ["example.com"; "mail.example.com"; "2001:db8::1"].
Proof.
  intros h domains order.
  assert (slice.valid h domains) as Hv by (vm_compute; repeat split; lia).
  assert (cleanupDomains fixture.ParseIP fixture.publicsuffix_Domain
            (slice.read h domains) order) as Hord.
  { unfold cleanupDomains, range_unique. vm_compute. reflexivity. }
  split; [exact Hv|]. split; [exact Hord|].
  destruct (cleanupDomains_store_in_place fixture.ParseIP fixture.publicsuffix_Domain
              h domains order Hv Hord) as (_ & _ & _ & _ & _ & _ & Hread).
  split; [reflexivity|]. rewrite Hread. reflexivity.
Defined.

(** ** The transition system of [lookupDomainBLs] *)

Lemma list_split_at {A} (l : list A) (i : nat) (x : A) :
  l !! i = Some x ->
  exists l1 l2, l = l1 ++ x :: l2 /\ forall y, <[i := y]> l = l1 ++ y :: l2.
Proof.
  intros Hi. exists (take i l), (drop (S i) l). split.
  - symmetry. now apply take_drop_middle.
  - intros y. apply insert_take_drop. now apply lookup_lt_Some in Hi.
Qed.

Lemma int_wrap_idem_add a b : 
  ((a + 2 ^ 63) mod 2 ^ 64 - 2 ^ 63 + b + 2 ^ 63) mod 2 ^ 64 = (a + b + 2 ^ 63) mod 2 ^ 64.
Proof.
  replace ((a + 2 ^ 63) mod 2 ^ 64 - 2 ^ 63 + b + 2 ^ 63)
    with ((a + 2 ^ 63) mod 2 ^ 64 + b) by lia.
  rewrite Zplus_mod_idemp_l. f_equal. lia.
Qed.

Section engine_facts.

Variable ParseIP : string -> net.IP.
Variable resolver : Resolver.

Local Abbreviation estep := (step ParseIP resolver).
Local Abbreviation erel := (step_rel ParseIP resolver).
Local Abbreviation erun := (run ParseIP resolver).
Local Abbreviation jcontrib := (job_contrib ParseIP resolver).
Local Abbreviation wcontrib := (worker_contrib ParseIP resolver).

Lemma step_sound l s s' : estep l s = Some s' -> erel l s s'.
Proof.
  unfold step. destruct (st_returned s) eqn:Eret; [discriminate|].
  destruct l as [i|i|i|i|i| | |].
  - destruct (st_pending s) as [|job rest] eqn:Ep; [discriminate|].
    destruct (st_workers s !! i) as [[]|] eqn:Ew; try discriminate.
    intros [= <-]. now apply step_SendJob.
  - destruct (st_ctxDone s) eqn:Ec; [|discriminate].
    destruct (st_workers s !! i) as [[]|] eqn:Ew; try discriminate.
    intros [= <-]. now apply step_CtxDone.
  - destruct (st_closed s) eqn:Ec; [|discriminate].
    destruct (st_workers s !! i) as [[]|] eqn:Ew; try discriminate.
    intros [= <-]. now apply step_RecvClosed.
  - destruct (st_workers s !! i) as [[]|] eqn:Ew; try discriminate.
    destruct (lookupDomainBL ParseIP resolver (domain job) (bl job))
      as [[sc e]|v] eqn:El; intros [= <-].
    + now apply step_RunLookup_return.
    + now apply step_RunLookup_panic.
  - destruct (st_workers s !! i) as [[]|] eqn:Ew; try discriminate.
    intros [= <-]. now apply step_Deliver.
  - destruct (st_pending s) eqn:Ep; [|discriminate].
    destruct (st_closed s) eqn:Ec; [discriminate|].
    intros [= <-]. now apply step_CloseLookupC.
  - destruct (st_ctxDone s) eqn:Ec; [discriminate|].
    intros [= <-]. now apply step_CancelCtx.
  - destruct (st_closed s && forallb is_done (st_workers s)) eqn:Ec; [|discriminate].
    apply andb_true_iff in Ec as [Ec Ed].
    intros [= <-]. apply step_Finish; auto.
Qed.

Lemma step_complete l s s' : erel l s s' -> estep l s = Some s'.
Proof.
  intros H. unfold step.
  destruct H;
    repeat match goal with H : _ = _ |- _ => rewrite H end; reflexivity.
Qed.

(** A property kept by every transition holds along every run. *)
Lemma run_invariant (P : state -> Prop) :
  (forall l s s', P s -> erel l s s' -> P s') ->
  forall sched s s', P s -> erun sched s = Some s' -> P s'.
Proof.
  intros Hstep. induction sched as [|l sched IH]; intros s s' HP; simpl.
  - intros [= <-]. exact HP.
  - destruct (estep l s) as [s1|] eqn:E; [|discriminate].
    apply IH. apply (Hstep l s s1 HP). apply step_sound. exact E.
Qed.

Lemma run_app sched1 sched2 s :
  erun (sched1 ++ sched2) s
  = match erun sched1 s with Some s1 => erun sched2 s1 | None => None end.
Proof.
  revert s. induction sched1 as [|l sched1 IH]; intros s; simpl; [reflexivity|].
  destruct (estep l s); [apply IH|reflexivity].
Qed.

(** Once returned, no transition is left. *)
Lemma step_returned l s out : st_returned s = Some out -> estep l s = None.
Proof. intros H. unfold step. rewrite H. reflexivity. Qed.

Lemma sum_scores_app l1 l2 : sum_scores (l1 ++ l2) = sum_scores l1 + sum_scores l2.
Proof.
  unfold sum_scores. induction l1 as [|x l1 IH]; simpl; [reflexivity|].
  rewrite IH. lia.
Qed.

Lemma sum_scores_Permutation l1 l2 : l1 ≡ₚ l2 -> sum_scores l1 = sum_scores l2.
Proof.
  unfold sum_scores. induction 1; simpl; lia.
Qed.

Lemma int_wrap_add_l a b : int_wrap (int_wrap a + b) = int_wrap (a + b).
Proof. unfold int_wrap. rewrite int_wrap_idem_add. reflexivity. Qed.

Lemma addrs_loop_score bl addrs sc e :
  addrs_loop ParseIP bl addrs = Return (sc, e) -> sc = 0 \/ sc = ScoreAdj bl.
Proof.
  induction addrs as [|a rest IH]; cbn [addrs_loop].
  - intros [= <- _]. now left.
  - destruct (ParseIP a) as [|b0 ip]; [intros [= <- _]; now left|].
    destruct (net.To4 (b0 :: ip) !! 3%nat); [|discriminate].
    destruct (bits_loop _ _ _ _); [intros [= <- _]; now right|exact IH].
Qed.

(** A job scores zero or the weight of its entry. *)
Lemma lookupDomainBL_score d bl sc e :
  lookupDomainBL ParseIP resolver d bl = Return (sc, e) -> sc = 0 \/ sc = ScoreAdj bl.
Proof.
  unfold lookupDomainBL. destruct (resolver (blDomain d bl)) as [addrs [err|]].
  - destruct err as [[] ?| | | | |]; intros [= <- _]; now left.
  - apply addrs_loop_score.
Qed.

(** The zero value received from the closed channel adds nothing. *)
Lemma job_contrib_zero : jcontrib (mkLookup "" (mkList "" 0 0)) = [].
Proof.
  unfold job_contrib. cbn [domain bl].
  destruct (lookupDomainBL ParseIP resolver "" (mkList "" 0 0)) as [[sc e]|v] eqn:E;
    [|reflexivity].
  apply lookupDomainBL_score in E. unfold result_contrib. cbn [score].
  destruct E as [-> | ->]; reflexivity.
Qed.

Lemma workers_done_contrib ws :
  forallb is_done ws = true -> flat_map wcontrib ws = [].
Proof.
  induction ws as [|w ws IH]; simpl; [reflexivity|].
  intros H. apply andb_true_iff in H as [Hw Hws].
  destruct w; try discriminate. simpl. auto.
Qed.

Lemma aggregate_fields res s :
  st_workers (aggregate res s) = st_workers s /\
  st_pending (aggregate res s) = st_pending s /\
  st_hits (aggregate res s) = st_hits s ++ map fst (result_contrib res) /\
  st_score (aggregate res s)
  = (if score res =? 0 then st_score s else int_wrap (st_score s + score res)) /\
  st_closed (aggregate res s) = st_closed s /\
  st_returned (aggregate res s) = st_returned s /\
  st_queries (aggregate res s) = st_queries s /\
  st_ctxDone (aggregate res s) = st_ctxDone s /\
  st_err (aggregate res s)
  = match err res with
    | Some e => Some (ErrorfZone (zone res) e)
    | None => st_err s
    end.
Proof.
  unfold aggregate, result_contrib.
  destruct (err res), (score res =? 0); cbn; rewrite ?app_nil_r; repeat split.
Qed.

Lemma contrib_inv_step J l s s' :
  contrib_inv ParseIP resolver J s -> erel l s s' -> contrib_inv ParseIP resolver J s'.
Proof.
  intros (dl & Hh & Hs & Hp) Hstep. unfold contrib_inv.
  destruct Hstep as [i job rest s _ Hpend Hw|i s _ _ Hw|i s _ _ Hw
                    |i job sc e s _ Hw Hl|i job v s _ Hw Hl|i res s _ Hw
                    |s _ _ _|s _ _|s _ _ _];
    try (destruct (list_split_at _ _ _ Hw) as (l1 & l2 & Hl12 & Hins));
    try (exists dl; split; [exact Hh|]; split; [exact Hs|]);
    cbn [st_workers st_pending st_hits st_score set_worker set_pending set_err
         log_query set_closed set_ctxDone set_returned];
    try exact Hp;
    try (rewrite Hins; rewrite Hl12 in Hp; rewrite <- Hp;
         rewrite !flat_map_app; cbn [flat_map]).
  - rewrite Hpend. cbn [flat_map worker_contrib]. solve_Permutation.
  - cbn [worker_contrib]. reflexivity.
  - cbn [worker_contrib]. rewrite job_contrib_zero. reflexivity.
  - cbn [worker_contrib]. unfold job_contrib at 2. rewrite Hl. reflexivity.
  - cbn [worker_contrib]. unfold job_contrib at 2. rewrite Hl. reflexivity.
  - destruct (aggregate_fields res s) as (Ha1 & Ha2 & Ha3 & Ha4 & _).
    exists (dl ++ result_contrib res).
    cbn [st_workers st_pending st_hits st_score set_worker].
    rewrite Ha1, Ha2, Ha3, Ha4, Hins, Hh, Hs, map_app.
    split; [reflexivity|]. split.
    + rewrite sum_scores_app. unfold result_contrib.
      destruct (score res =? 0); cbn [sum_scores map snd fold_right].
      * f_equal. lia.
      * rewrite int_wrap_add_l. f_equal. lia.
    + rewrite <- Hp, Hl12, !flat_map_app. cbn [flat_map worker_contrib].
      solve_Permutation.
Qed.


Lemma control_inv_step l s s' : control_inv s -> erel l s s' -> control_inv s'.
Proof.
  intros [Hc Hr] Hstep. unfold control_inv.
  destruct Hstep as [i job rest s Hret Hpend Hw|i s Hret _ Hw|i s Hret _ Hw
                    |i job sc e s Hret Hw Hl|i job v s Hret Hw Hl|i res s Hret Hw
                    |s Hret Hpend _|s Hret _|s Hret Hcl Hdone];
    try (destruct (aggregate_fields res s) as (_ & Ha2 & _ & _ & Ha5 & Ha6 & _));
    cbn [st_workers st_pending st_hits st_score st_err st_closed st_returned
         set_worker set_pending set_err log_query set_closed set_ctxDone
         set_returned];
    rewrite ?Ha2, ?Ha5, ?Ha6, ?Hret;
    try (split; [|discriminate]); auto.
  - intros Hcl. specialize (Hc Hcl). congruence.
  - split; [auto|]. intros out [= <-]. auto.
Qed.

Lemma count_workers_app f l1 l2 :
  count_workers f (l1 ++ l2) = (count_workers f l1 + count_workers f l2)%nat.
Proof. unfold count_workers. rewrite List.filter_app, length_app. reflexivity. Qed.

Lemma count_workers_cons f w l :
  count_workers f (w :: l) = ((if f w then 1 else 0) + count_workers f l)%nat.
Proof. unfold count_workers. simpl. destruct (f w); reflexivity. Qed.

Lemma count_workers_le f l : (count_workers f l <= length l)%nat.
Proof.
  induction l as [|w l IH]; [reflexivity|].
  rewrite count_workers_cons. simpl. destruct (f w); lia.
Qed.

Lemma pool_inv_step L W l s s' : pool_inv L W s -> erel l s s' -> pool_inv L W s'.
Proof.
  intros (Hlen & Hbusy & Hq) Hstep. unfold pool_inv.
  destruct Hstep as [i job rest s Hret Hpend Hw|i s Hret _ Hw|i s Hret _ Hw
                    |i job sc e s Hret Hw Hl|i job v s Hret Hw Hl|i res s Hret Hw
                    |s Hret Hpend _|s Hret _|s Hret Hcl Hdone];
    try (destruct (aggregate_fields res s)
          as (Ha1 & Ha2 & _ & _ & _ & _ & Ha7 & _));
    try (destruct (list_split_at _ _ _ Hw) as (l1 & l2 & Hl12 & Hins));
    cbn [st_workers st_pending st_queries set_worker set_pending set_err
         log_query set_closed set_ctxDone set_returned];
    rewrite ?Ha1, ?Ha2, ?Ha7; auto;
    rewrite ?Hins, ?length_insert; rewrite ?Hpend in Hbusy;
    rewrite Hl12 in Hbusy, Hq, Hlen;
    rewrite ?count_workers_app, ?count_workers_cons, ?length_app in *;
    cbn [is_select past_lookup negb length] in *;
    (split; [|split]; lia).
Qed.

Lemma replicate_select_contrib n : flat_map wcontrib (replicate n WSelect) = [].
Proof. induction n; simpl; auto. Qed.

Lemma replicate_select_count f n :
  f WSelect = false -> count_workers f (replicate n WSelect) = 0%nat.
Proof.
  intros Hf. induction n; [reflexivity|].
  cbn [replicate]. rewrite count_workers_cons, Hf. exact IHn.
Qed.

Lemma init_contrib_inv order bls c :
  contrib_inv ParseIP resolver (jobs order bls) (init order bls c).
Proof.
  exists []. cbn. rewrite replicate_select_contrib. repeat split. reflexivity.
Qed.

Lemma init_control_inv order bls c : control_inv (init order bls c).
Proof. split; [discriminate|]. intros out. discriminate. Qed.

Lemma init_pool_inv order bls c :
  pool_inv (length (jobs order bls)) (pool_size order bls c) (init order bls c).
Proof.
  unfold pool_inv, pool_size. cbn [st_workers st_pending st_queries init].
  rewrite !replicate_select_count by reflexivity. repeat split; simpl; lia.
Qed.

Lemma length_jobs order bls : length (jobs order bls) = (length order * length bls)%nat.
Proof.
  unfold jobs. induction order as [|d order IH]; [reflexivity|].
  cbn [flat_map]. rewrite length_app, length_map, IH. simpl. lia.
Qed.

Lemma pool_size_le order bls c :
  (Z.of_nat (pool_size order bls c) <= Z.max 0 c)%Z /\
  (pool_size order bls c <= length (jobs order bls))%nat.
Proof.
  unfold pool_size. cbn [init st_workers]. rewrite length_replicate, length_jobs.
  destruct (Z.gtb_spec c (Z.of_nat (length order) * Z.of_nat (length bls))); lia.
Qed.

(** What a run that returns has computed: the wrapped sum of the scores
    of all the jobs, and their zones, in some order. *)
Lemma run_returns_result order bls c sched s out :
  erun sched (init order bls c) = Some s -> st_returned s = Some out ->
  fst (fst out) = int_wrap (sum_scores (flat_map jcontrib (jobs order bls))) /\
  snd (fst out) ≡ₚ map fst (flat_map jcontrib (jobs order bls)).
Proof.
  intros Hrun Hret.
  pose proof (run_invariant _ (contrib_inv_step (jobs order bls)) sched _ _
                (init_contrib_inv order bls c) Hrun) as (dl & Hh & Hs & Hp).
  pose proof (run_invariant _ control_inv_step sched _ _
                (init_control_inv order bls c) Hrun) as [Hc Hr].
  destruct (Hr out Hret) as (-> & Hcl & Hdone). cbn [fst snd].
  rewrite (Hc Hcl), (workers_done_contrib _ Hdone) in Hp.
  cbn [flat_map] in Hp. rewrite !app_nil_r in Hp.
  rewrite Hs, Hh. split.
  - f_equal. now apply sum_scores_Permutation.
  - now rewrite Hp.
Qed.

Lemma queries_inv_step J l s s' : queries_inv J s -> erel l s s' -> queries_inv J s'.
Proof.
  intros (z & Hp & Hn) Hstep. unfold queries_inv.
  destruct Hstep as [i job rest s Hret Hpend Hw|i s Hret _ Hw|i s Hret _ Hw
                    |i job sc e s Hret Hw Hl|i job v s Hret Hw Hl|i res s Hret Hw
                    |s Hret Hpend _|s Hret _|s Hret Hcl Hdone];
    try (destruct (aggregate_fields res s)
          as (Ha1 & Ha2 & _ & _ & _ & _ & Ha7 & _));
    try (destruct (list_split_at _ _ _ Hw) as (l1 & l2 & Hl12 & Hins));
    [exists z|exists z|exists (S z)|exists z|exists z|exists z|exists z|exists z|exists z];
    cbn [st_workers st_pending st_queries set_worker set_pending set_err
         log_query set_closed set_ctxDone set_returned];
    rewrite ?Ha1, ?Ha2, ?Ha7; auto;
    rewrite ?Hins; rewrite ?Hpend in Hn, Hp;
    rewrite Hl12 in Hn, Hp;
    rewrite ?count_workers_app, ?count_workers_cons, ?flat_map_app in *;
    cbn [is_select negb length flat_map worker_job app] in *;
    (split; [|lia]).
  - etransitivity; [|exact Hp]. solve_Permutation.
  - exact Hp.
  - rewrite replicate_S_end, (app_assoc J). fold zero_job.
    etransitivity; [|exact (Permutation_app_tail [zero_job] Hp)]. solve_Permutation.
  - etransitivity; [|exact Hp]. solve_Permutation.
  - etransitivity; [|exact Hp]. solve_Permutation.
  - exact Hp.
Qed.

Lemma init_queries_inv order bls c : queries_inv (jobs order bls) (init order bls c).
Proof.
  exists 0%nat. cbn [init st_queries st_workers st_pending replicate].
  rewrite replicate_select_count by reflexivity. split; [|lia].
  assert (flat_map worker_job (replicate (Z.to_nat
            (if c >? Z.of_nat (length order) * Z.of_nat (length bls)
             then Z.of_nat (length order) * Z.of_nat (length bls) else c)) WSelect) = [])
    as -> by (induction (Z.to_nat _); simpl; auto).
  now rewrite app_nil_r.
Qed.

(** A run that returns has called [lookupDomainBL] once for every job and
    for nothing else. *)
Lemma run_returns_queries order bls c sched s out :
  erun sched (init order bls c) = Some s -> st_returned s = Some out ->
  st_queries s ≡ₚ jobs order bls.
Proof.
  intros Hrun Hret.
  pose proof (run_invariant _ (queries_inv_step (jobs order bls)) sched _ _
                (init_queries_inv order bls c) Hrun) as (z & Hp & Hn).
  pose proof (run_invariant _ control_inv_step sched _ _
                (init_control_inv order bls c) Hrun) as [Hc Hr].
  pose proof (run_invariant _ (pool_inv_step _ _) sched _ _
                (init_pool_inv order bls c) Hrun) as (Hlen & _ & _).
  destruct (Hr out Hret) as (_ & Hcl & Hdone).
  pose proof (pool_size_le order bls c) as [_ HW].
  pose proof (count_workers_le (fun w => negb (is_select w)) (st_workers s)).
  rewrite (Hc Hcl) in Hp, Hn. simpl in Hn.
  assert (z = 0)%nat as -> by lia.
  assert (flat_map worker_job (st_workers s) = []) as Hnone.
  { clear -Hdone. induction (st_workers s) as [|w ws IH]; [reflexivity|].
    simpl in Hdone. apply andb_true_iff in Hdone as [Hw Hws].
    destruct w; try discriminate. simpl. auto. }
  rewrite Hnone in Hp. cbn [replicate] in Hp. now rewrite !app_nil_r in Hp.
Qed.

(** *** More jobs than workers *)

(** C1 fails on the code, which starts [min(concurrency, lookups)]
    workers that each take one job and exit: with more jobs than
    [concurrency] the producer loop blocks for ever on its next send.
    No execution returns, the queue is never drained, and at most
    [concurrency] lookups are made. *)
Theorem lookupDomainBLs_blocks_over_concurrency order bls concurrency :
  Z.max 0 concurrency < Z.of_nat (length order) * Z.of_nat (length bls) ->
  forall sched s,
    erun sched (init order bls concurrency) = Some s ->
    st_returned s = None /\ st_pending s <> [] /\
    Z.of_nat (length (st_queries s)) <= Z.max 0 concurrency.
Proof.
  intros Hc sched s Hrun.
  pose proof (run_invariant _ (pool_inv_step _ _) sched _ _
                (init_pool_inv order bls concurrency) Hrun) as (Hlen & Hbusy & Hq).
  pose proof (run_invariant _ control_inv_step sched _ _
                (init_control_inv order bls concurrency) Hrun) as [Hcl Hr].
  pose proof (pool_size_le order bls concurrency) as [HW _].
  pose proof (count_workers_le (fun w => negb (is_select w)) (st_workers s)).
  pose proof (count_workers_le past_lookup (st_workers s)).
  rewrite length_jobs in Hbusy.
  assert (st_pending s <> []) as Hne.
  { intros E. rewrite E in Hbusy. simpl in Hbusy. nia. }
  split; [|split; [exact Hne|lia]].
  destruct (st_returned s) as [out|] eqn:Eret; [|reflexivity].
  destruct (Hr out eq_refl) as (_ & Hclosed & _). now apply Hcl in Hclosed.
Qed.

(** *** Nothing to look up *)

Lemma init_no_jobs order bls c :
  order = [] \/ bls = [] ->
  init order bls c = mkState [] false [] false 0 [] None [] None.
Proof.
  intros H. unfold init.
  assert (jobs order bls = []) as ->.
  { destruct H as [-> | ->]; [reflexivity|].
    unfold jobs. induction order; simpl; auto. }
  assert (Z.of_nat (length order) * Z.of_nat (length bls) = 0) as ->
      by (destruct H as [-> | ->]; simpl; lia).
  destruct (Z.gtb_spec c 0); [reflexivity|].
  now rewrite Z2Nat.nonpos by lia.
Qed.

Lemma idle_inv_step l s s' :
  idle_inv s -> erel l s s' -> idle_inv s'.
Proof.
  intros (Hw & He & Hq & Hs & Hh & Hp) Hstep. unfold idle_inv.
  destruct Hstep;
    try match goal with
        | H : st_workers _ !! _ = Some _ |- _ => rewrite Hw in H; discriminate
        end;
    cbn; auto 10.
Qed.

(** C8: with no domain left after normalization, or with no registry
    entry, no state of any execution has made a lookup, every execution
    that returns gives score 0, no hits and no error, the execution that
    closes the queue and finishes does return, and every execution can be
    completed to return in at most two more steps. *)
Theorem lookupDomainBLs_nothing_to_do order bls concurrency :
  order = [] \/ bls = [] ->
  (forall sched s,
      erun sched (init order bls concurrency) = Some s ->
      st_queries s = [] /\
      (forall out, st_returned s = Some out -> out = (0, [], None)) /\
      exists sched' s',
        (length sched' <= 2)%nat /\ erun sched' s = Some s' /\
        st_returned s' = Some (0, [], None)) /\
  lookupDomainBLs_exec ParseIP resolver order bls concurrency [CloseLookupC; Finish]
  = Some (0, [], None).
Proof.
  intros Hempty. unfold lookupDomainBLs_exec.
  rewrite (init_no_jobs order bls concurrency Hempty).
  split; [|reflexivity]. intros sched s Hrun.
  assert (idle_inv (mkState [] false [] false 0 [] None [] None)) as Hinit
      by (repeat split).
  pose proof (run_invariant _ idle_inv_step sched _ _ Hinit Hrun)
    as (Hw & He & Hq & Hs & Hh & Hp).
  assert (control_inv (mkState [] false [] false 0 [] None [] None)) as Hci
      by (split; [discriminate|intros out; discriminate]).
  pose proof (run_invariant _ control_inv_step sched _ _ Hci Hrun) as [Hcl Hr].
  split; [exact Hq|]. split.
  - intros out Hret. destruct (Hr out Hret) as (-> & _). congruence.
  - destruct (st_returned s) as [out|] eqn:Eret.
    + exists [], s. split; [simpl; lia|]. split; [reflexivity|].
      destruct (Hr out eq_refl) as (-> & _). congruence.
    + destruct (st_closed s) eqn:Ecl.
      * exists [Finish], (set_returned s). split; [simpl; lia|].
        unfold run, step. rewrite Eret, Ecl, Hw. cbn.
        split; [reflexivity|]. congruence.
      * exists [CloseLookupC; Finish], (set_returned (set_closed s)).
        split; [simpl; lia|].
        unfold run, step. rewrite Eret, Ecl, Hp. cbn. rewrite Eret, Hw. cbn.
        split; [reflexivity|]. congruence.
Qed.

(** *** Enough workers: the sequential schedule returns *)

Lemma replicate_done k : forallb is_done (replicate k WDone) = true.
Proof. induction k; simpl; auto. Qed.

Lemma seq_sched_returns pending :
  forall k s,
    st_pending s = pending ->
    st_workers s = replicate k WDone ++ replicate (length pending) WSelect ->
    st_closed s = false -> st_returned s = None ->
    exists s', erun (seq_sched ParseIP resolver k pending) s = Some s' /\
               is_Some (st_returned s').
Proof.
  induction pending as [|job rest IH]; intros k s Hp Hw Hc Hr.
  - exists (set_returned (set_closed s)). split; [|eexists; reflexivity].
    cbn [seq_sched]. unfold run, step. rewrite Hr, Hp, Hc. cbn. rewrite Hr, Hw.
    cbn [length replicate]. rewrite app_nil_r.
    rewrite replicate_done. reflexivity.
  - assert (st_workers s !! k = Some WSelect) as Hk.
    { rewrite Hw, lookup_app_r by (rewrite length_replicate; lia).
      rewrite length_replicate, Nat.sub_diag. reflexivity. }
    assert (forall w, <[k := w]> (st_workers s)
                      = replicate k WDone ++ w :: replicate (length rest) WSelect)
      as Hins.
    { intros w. rewrite Hw.
      replace k with (length (replicate k WDone) + 0)%nat at 1
        by (rewrite length_replicate; lia).
      rewrite insert_app_r. reflexivity. }
    assert (forall w, replicate k WDone ++ w :: replicate (length rest) WSelect
                      = <[k := w]> (st_workers s)) as Hins' by (intros; now rewrite Hins).
    cbn [seq_sched].
    set (s1 := set_worker k (WLookup job) (set_pending rest s)).
    assert (estep (SendJob k) s = Some s1) as E1.
    { unfold step. rewrite Hr, Hp, Hk. reflexivity. }
    assert (st_workers s1 !! k = Some (WLookup job)) as Hk1.
    { unfold s1. cbn [st_workers set_worker set_pending].
      rewrite Hins. rewrite lookup_app_r by (rewrite length_replicate; lia).
      rewrite length_replicate, Nat.sub_diag. reflexivity. }
    destruct (lookupDomainBL ParseIP resolver (domain job) (bl job))
      as [[sc e]|v] eqn:El.
    + set (res := mkResult (Zone (bl job)) sc e).
      set (s2 := set_worker k (WSend res) (log_query job s1)).
      set (s3 := set_worker k WDone (aggregate res s2)).
      destruct (aggregate_fields res s2)
        as (Ha1 & Ha2 & _ & _ & Ha5 & Ha6 & _).
      destruct (IH (S k) s3) as (s' & Hrun & Hret).
      * unfold s3. cbn [st_pending set_worker]. rewrite Ha2. reflexivity.
      * unfold s3. cbn [st_workers set_worker]. rewrite Ha1.
        unfold s2, s1. cbn [st_workers set_worker set_pending log_query].
        rewrite !list_insert_insert_eq, Hins.
        rewrite replicate_S_end, <- app_assoc. reflexivity.
      * unfold s3. cbn [st_closed set_worker]. rewrite Ha5. exact Hc.
      * unfold s3. cbn [st_returned set_worker]. rewrite Ha6. exact Hr.
      * exists s'. split; [|exact Hret].
        change (erun (SendJob k :: RunLookup k :: Deliver k
                        :: seq_sched ParseIP resolver (S k) rest) s)
          with (match estep (SendJob k) s with
                | Some x => erun (RunLookup k :: Deliver k
                                    :: seq_sched ParseIP resolver (S k) rest) x
                | None => None
                end).
        rewrite E1.
        assert (estep (RunLookup k) s1 = Some s2) as E2.
        { unfold step. rewrite Hk1, El.
          unfold s1 at 1. cbn [st_returned set_worker set_pending]. rewrite Hr.
          reflexivity. }
        assert (estep (Deliver k) s2 = Some s3) as E3.
        { unfold step. unfold s2 at 1 2.
          cbn [st_returned st_workers set_worker log_query]. unfold s1 at 1 2.
          cbn [st_returned st_workers set_worker set_pending]. rewrite Hr.
          rewrite list_lookup_insert_eq; [reflexivity|].
          rewrite length_insert. now apply lookup_lt_Some in Hk. }
        cbn [run]. rewrite E2, E3. exact Hrun.
    + set (s2 := set_worker k WDone (set_err (ErrorfRecovered v) (log_query job s1))).
      destruct (IH (S k) s2) as (s' & Hrun & Hret); try reflexivity.
      * unfold s2, s1. cbn [st_workers set_worker set_pending log_query set_err].
        rewrite !list_insert_insert_eq, Hins.
        rewrite replicate_S_end, <- app_assoc. reflexivity.
      * exact Hc.
      * exact Hr.
      * exists s'. split; [|exact Hret].
        assert (estep (RunLookup k) s1 = Some s2) as E2.
        { unfold step. rewrite Hk1, El.
          unfold s1 at 1. cbn [st_returned set_worker set_pending]. rewrite Hr.
          reflexivity. }
        cbn [run]. rewrite E1, E2. exact Hrun.
Qed.

(** When the jobs are no more than [concurrency], some execution
    returns. *)
Lemma lookupDomainBLs_exec_returns order bls concurrency :
  Z.of_nat (length order) * Z.of_nat (length bls) <= concurrency ->
  exists sched out,
    lookupDomainBLs_exec ParseIP resolver order bls concurrency sched = Some out.
Proof.
  intros Hc.
  destruct (seq_sched_returns (jobs order bls) 0 (init order bls concurrency))
    as (s' & Hrun & [out Hret]); try reflexivity.
  - cbn [init st_workers replicate app]. f_equal. rewrite length_jobs.
    destruct (Z.gtb_spec concurrency
                (Z.of_nat (length order) * Z.of_nat (length bls))); lia.
  - exists (seq_sched ParseIP resolver 0 (jobs order bls)), out.
    unfold lookupDomainBLs_exec. rewrite Hrun. exact Hret.
Qed.

(** *** The error that is returned *)

Lemma err_trace_last sched :
  forall s s',
    erun sched s = Some s' ->
    st_err s' = match last (err_trace ParseIP resolver sched s) with
                | Some e => Some e
                | None => st_err s
                end.
Proof.
  induction sched as [|l sched IH]; intros s s'; cbn [run err_trace].
  - intros [= <-]. reflexivity.
  - destruct (estep l s) as [s1|] eqn:E; [|discriminate].
    intros Hrun. rewrite (IH _ _ Hrun).
    assert (st_err s1 = match err_written ParseIP resolver l s with
                        | Some e => Some e
                        | None => st_err s
                        end) as Hs1.
    { apply step_sound in E.
      destruct E as [i job rest s _ Hpend Hw|i s _ _ Hw|i s _ _ Hw
                    |i job sc e s _ Hw Hl|i job v s _ Hw Hl|i res s _ Hw
                    |s _ _ _|s _ _|s _ _ _];
        cbn [err_written st_err set_worker set_pending set_err log_query
             set_closed set_ctxDone set_returned];
        rewrite ?Hw, ?Hl; try reflexivity.
      destruct (aggregate_fields res s) as (_ & _ & _ & _ & _ & _ & _ & _ & Ha9).
      rewrite Ha9. destruct (err res); reflexivity. }
    destruct (err_written ParseIP resolver l s) as [e|].
    + rewrite last_cons.
      destruct (last (err_trace ParseIP resolver sched s1)); [reflexivity|exact Hs1].
    + destruct (last (err_trace ParseIP resolver sched s1)); [reflexivity|exact Hs1].
Qed.

End engine_facts.

Lemma lookupDomainBLs_blocks_over_concurrency_witness :
  let order := ["a.example"; "b.example"; "c.example"] in
  let bls := [mkList "bl1.example.org" 2 1; mkList "bl2.example.org" 4 1;
              mkList "bl3.example.org" 8 1] in
  let resolver := fixture.mockBLResolver "127.0.0.2" None in
  Z.max 0 8 < Z.of_nat (length order) * Z.of_nat (length bls) /\
  forall sched s,
    run fixture.ParseIP resolver sched (init order bls 8) = Some s ->
    st_returned s = None /\ st_pending s <> [] /\
    Z.of_nat (length (st_queries s)) <= Z.max 0 8.
Proof.
  intros order bls resolver. split; [reflexivity|].
  apply (lookupDomainBLs_blocks_over_concurrency fixture.ParseIP resolver order bls 8).
  reflexivity.
Defined.

Lemma lookupDomainBLs_nothing_to_do_witness :
  let bls := [mkList "bl.example.org" 2 1] in
  let resolver := fixture.mockBLResolver "127.0.0.2" None in
  cleanupDomains_exec fixture.ParseIP fixture.publicsuffix_Domain [""; "2001:db8::1"] = [] /\
  lookupDomainBLs_exec fixture.ParseIP resolver [] bls 8 [CloseLookupC; Finish]
  = Some (0, [], None).
Proof.
  intros bls resolver. split; [vm_compute; reflexivity|].
  apply (lookupDomainBLs_nothing_to_do fixture.ParseIP resolver [] bls 8).
  left. reflexivity.
Defined.

(** ** The returned error *)

Section returned_error_facts.

Variable ParseIP : string -> net.IP.
Variable resolver : Resolver.

(** C2, as the code has it: every failing result the aggregator receives
    replaces the recorded error, whatever it was, and the error that
    [lookupDomainBLs] returns is the last one assigned to [err] during
    the execution (by the aggregator, by a worker that recovered a panic
    or by a worker that saw the cancellation). *)
Theorem lookupDomainBLs_returns_last_error order bls concurrency sched out :
  lookupDomainBLs_exec ParseIP resolver order bls concurrency sched = Some out ->
  snd out = last (err_trace ParseIP resolver sched (init order bls concurrency)) /\
  (forall s i res e,
      st_returned s = None -> st_workers s !! i = Some (WSend res) ->
      err res = Some e ->
      exists s', step ParseIP resolver (Deliver i) s = Some s' /\
                 st_err s' = Some (ErrorfZone (zone res) e)).
Proof.
  intros Hexec. split.
  - unfold lookupDomainBLs_exec in Hexec.
    destruct (run ParseIP resolver sched (init order bls concurrency))
      as [s|] eqn:Hrun; [|discriminate].
    pose proof (run_invariant ParseIP resolver _ (control_inv_step ParseIP resolver)
                  sched _ _ (init_control_inv order bls concurrency) Hrun) as [_ Hr].
    destruct (Hr out Hexec) as (-> & _). cbn [snd].
    rewrite (err_trace_last ParseIP resolver sched _ _ Hrun).
    destruct (last _); reflexivity.
  - intros s i res e Hret Hw He.
    exists (set_worker i WDone (aggregate res s)). split.
    + unfold step. rewrite Hret, Hw. reflexivity.
    + cbn [st_err set_worker].
      destruct (aggregate_fields res s) as (_ & _ & _ & _ & _ & _ & _ & _ & ->).
      rewrite He. reflexivity.
Qed.

End returned_error_facts.

Lemma lookupDomainBLs_returns_last_error_witness :
  let bls := [mkList "bl.example.org" 2 1] in
  let resolver := fixture.tableResolver
     [("a.example.bl.example.org", ([], Some (OtherError "first failure")));
      ("b.example.bl.example.org", ([], Some (OtherError "second failure")))] in
  let sched := [SendJob 0; SendJob 1; RunLookup 0; RunLookup 1;
                Deliver 0; Deliver 1; CloseLookupC; Finish] in
  let out := (0, [], Some (ErrorfZone "bl.example.org" (OtherError "second failure"))) in
  lookupDomainBLs_exec fixture.ParseIP resolver ["a.example"; "b.example"] bls 8 sched
  = Some out /\
  snd out = last (err_trace fixture.ParseIP resolver sched
                    (init ["a.example"; "b.example"] bls 8)).
Proof.
  intros bls resolver sched out.
  assert (lookupDomainBLs_exec fixture.ParseIP resolver ["a.example"; "b.example"]
            bls 8 sched = Some out) as Hexec by (vm_compute; reflexivity).
  split; [exact Hexec|].
  apply (lookupDomainBLs_returns_last_error fixture.ParseIP resolver
           ["a.example"; "b.example"] bls 8 sched out Hexec).
Defined.

(** C2 as stated fails: with two failing jobs the error of the first one is
    recorded and then replaced; the call returns the second one. *)
Lemma lookupDomainBLs_first_error_counterexample :
  ~ (forall (resolver : Resolver) order bls concurrency sched out,
        lookupDomainBLs_exec fixture.ParseIP resolver order bls concurrency sched
        = Some out ->
        snd out = head (err_trace fixture.ParseIP resolver sched
                          (init order bls concurrency))).
Proof.
  intros H.
  specialize (H (fixture.tableResolver
                   [("a.example.bl.example.org", ([], Some (OtherError "first failure")));
                    ("b.example.bl.example.org", ([], Some (OtherError "second failure")))])
                ["a.example"; "b.example"] [mkList "bl.example.org" 2 1] 8
                [SendJob 0; SendJob 1; RunLookup 0; RunLookup 1;
                 Deliver 0; Deliver 1; CloseLookupC; Finish]
                (0, [], Some (ErrorfZone "bl.example.org" (OtherError "second failure")))).
  vm_compute in H. specialize (H eq_refl). discriminate H.
Qed.

(** ** Totals do not depend on the interleaving *)

Section totals_facts.

Variable ParseIP : string -> net.IP.
Variable publicsuffix_Domain : string -> option string.
Variable resolver : Resolver.

Lemma jobs_Permutation order1 order2 bls :
  order1 ≡ₚ order2 -> jobs order1 bls ≡ₚ jobs order2 bls.
Proof. intros H. unfold jobs. now rewrite H. Qed.

(** C9: two executions of [lookupDomainBLs] on the same domains, entries
    and concurrency, with the same resolver, that both return, return
    the same total score and the same hit zones up to their order,
    whatever the enumeration of the normalized domains and whatever the
    interleaving; and when the jobs are no more than [concurrency], an
    execution that returns exists. *)
Theorem lookupDomainBLs_totals_deterministic domains bls concurrency :
  (forall out1 out2,
      lookupDomainBLs ParseIP publicsuffix_Domain resolver domains bls concurrency out1 ->
      lookupDomainBLs ParseIP publicsuffix_Domain resolver domains bls concurrency out2 ->
      fst (fst out1) = fst (fst out2) /\ snd (fst out1) ≡ₚ snd (fst out2)) /\
  (Z.of_nat (size (unique_of ParseIP publicsuffix_Domain domains))
     * Z.of_nat (length bls) <= concurrency ->
   exists out,
     lookupDomainBLs ParseIP publicsuffix_Domain resolver domains bls concurrency out).
Proof.
  split.
  - intros out1 out2 (o1 & sched1 & Ho1 & He1) (o2 & sched2 & Ho2 & He2).
    unfold lookupDomainBLs_exec in He1, He2.
    destruct (run ParseIP resolver sched1 (init o1 bls concurrency))
      as [s1|] eqn:Hrun1; [|discriminate].
    destruct (run ParseIP resolver sched2 (init o2 bls concurrency))
      as [s2|] eqn:Hrun2; [|discriminate].
    destruct (run_returns_result ParseIP resolver _ _ _ _ _ _ Hrun1 He1) as [Hs1 Hh1].
    destruct (run_returns_result ParseIP resolver _ _ _ _ _ _ Hrun2 He2) as [Hs2 Hh2].
    assert (flat_map (job_contrib ParseIP resolver) (jobs o1 bls)
            ≡ₚ flat_map (job_contrib ParseIP resolver) (jobs o2 bls)) as Hperm.
    { apply Permutation_flat_map, jobs_Permutation.
      unfold cleanupDomains, range_unique in Ho1, Ho2. now rewrite Ho1, Ho2. }
    split.
    + rewrite Hs1, Hs2. f_equal. now apply sum_scores_Permutation.
    + rewrite Hh1, Hh2. now rewrite Hperm.
  - intros Hfit.
    set (order := elements (unique_of ParseIP publicsuffix_Domain domains)).
    destruct (lookupDomainBLs_exec_returns ParseIP resolver order bls concurrency)
      as (sched & out & Hexec); [exact Hfit|].
    exists out, order, sched. split; [|exact Hexec].
    unfold cleanupDomains, range_unique. reflexivity.
Qed.

End totals_facts.

Lemma lookupDomainBLs_totals_deterministic_witness :
  let domains := ["www.example.com"; "mail.example.org"; "example.com"] in
  let bls := [mkList "bl1.example.net" 2 1; mkList "bl2.example.net" 4 5] in
  let resolver := fixture.tableResolver
     [("example.com.bl1.example.net", (["127.0.0.2"], None));
      ("example.org.bl2.example.net", (["127.0.0.4"], None))] in
  let out1 := (6, ["bl1.example.net"; "bl2.example.net"], None) in
  let out2 := (6, ["bl2.example.net"; "bl1.example.net"], None) in
  lookupDomainBLs fixture.ParseIP fixture.publicsuffix_Domain resolver domains bls 8 out1 /\
  lookupDomainBLs fixture.ParseIP fixture.publicsuffix_Domain resolver domains bls 8 out2 /\
  fst (fst out1) = fst (fst out2) /\ snd (fst out1) ≡ₚ snd (fst out2).
Proof.
  intros domains bls resolver out1 out2.
  assert (lookupDomainBLs fixture.ParseIP fixture.publicsuffix_Domain resolver
            domains bls 8 out1) as H1.
  { exists ["example.com"; "example.org"],
           [SendJob 0; RunLookup 0; Deliver 0; SendJob 1; RunLookup 1; Deliver 1;
            SendJob 2; RunLookup 2; Deliver 2; SendJob 3; RunLookup 3; Deliver 3;
            CloseLookupC; Finish].
    split; [|vm_compute; reflexivity].
    unfold cleanupDomains, range_unique.
    replace (elements (unique_of fixture.ParseIP fixture.publicsuffix_Domain domains))
      with ["example.org"; "example.com"] by (vm_compute; reflexivity).
    apply perm_swap. }
  assert (lookupDomainBLs fixture.ParseIP fixture.publicsuffix_Domain resolver
            domains bls 8 out2) as H2.
  { exists ["example.org"; "example.com"],
           [SendJob 3; SendJob 1; SendJob 0; SendJob 2; RunLookup 0; RunLookup 1;
            RunLookup 2; RunLookup 3; Deliver 1; Deliver 0; CloseLookupC;
            Deliver 3; Deliver 2; Finish].
    split; [|vm_compute; reflexivity].
    unfold cleanupDomains, range_unique.
    replace (elements (unique_of fixture.ParseIP fixture.publicsuffix_Domain domains))
      with ["example.org"; "example.com"] by (vm_compute; reflexivity).
    reflexivity. }
  split; [exact H1|]. split; [exact H2|].
  exact (proj1 (lookupDomainBLs_totals_deterministic fixture.ParseIP
                  fixture.publicsuffix_Domain resolver domains bls 8) out1 out2 H1 H2).
Defined.

(** The order of the hit list does depend on the interleaving. *)
Example lookupDomainBLs_hit_order_varies :
  let bls := [mkList "bl1.example.net" 2 1; mkList "bl2.example.net" 4 5] in
  let resolver := fixture.mockBLResolver "127.0.0.6" None in
  lookupDomainBLs_exec fixture.ParseIP resolver ["example.com"] bls 8
    [SendJob 0; SendJob 1; RunLookup 0; RunLookup 1; Deliver 0; Deliver 1;
     CloseLookupC; Finish]
  = Some (6, ["bl1.example.net"; "bl2.example.net"], None) /\
  lookupDomainBLs_exec fixture.ParseIP resolver ["example.com"] bls 8
    [SendJob 0; SendJob 1; RunLookup 0; RunLookup 1; Deliver 1; Deliver 0;
     CloseLookupC; Finish]
  = Some (6, ["bl2.example.net"; "bl1.example.net"], None).
Proof. split; vm_compute; reflexivity. Qed.

(** The scenarios of [lookup_test.go]. *)
Example Test_lookupDomainBL :
  let bl := mkList "domainbl.example.org" 128 1 in
  lookupDomainBL fixture.ParseIP (fixture.mockBLResolver "127.0.0.254" None)
    "turrible-spammer.example.org" bl = Return (1, None) /\
  lookupDomainBL fixture.ParseIP (fixture.mockBLResolver "127.0.0.64" None)
    "turrible-spammer.example.org" bl = Return (0, None) /\
  lookupDomainBL fixture.ParseIP
    (fixture.mockBLResolver "" (Some (DNSError true "")))
    "goodguy.example.org" bl = Return (0, None) /\
  lookupDomainBL fixture.ParseIP
    (fixture.mockBLResolver "" (Some (DNSError false "")))
    "failure.example.org" bl = Return (0, Some (DNSError false "")).
Proof. repeat split; vm_compute; reflexivity. Qed.

(** ** What a returning execution of [lookupDomainBLs] has done *)

Section engine_value_facts.

Variable ParseIP : string -> net.IP.
Variable resolver : Resolver.

Local Abbreviation erel := (step_rel ParseIP resolver).
Local Abbreviation erun := (run ParseIP resolver).

Lemma job_contrib_hits job :
  job_contrib ParseIP resolver job
  = if job_hits ParseIP resolver job
    then [(Zone (bl job), ScoreAdj (bl job))] else [].
Proof.
  unfold job_contrib, job_hits, result_contrib. cbn [score zone].
  destruct (lookupDomainBL ParseIP resolver (domain job) (bl job))
    as [[sc e]|v] eqn:E; [|reflexivity].
  destruct (Z.eqb_spec sc 0) as [|Hne]; [reflexivity|]. cbn [negb].
  apply lookupDomainBL_score in E as [->| ->]; [contradiction|reflexivity].
Qed.

Lemma flat_map_job_contrib J :
  flat_map (job_contrib ParseIP resolver) J
  = map (fun job => (Zone (bl job), ScoreAdj (bl job)))
        (List.filter (job_hits ParseIP resolver) J).
Proof.
  induction J as [|job J IH]; [reflexivity|].
  cbn [flat_map List.filter]. rewrite IH, job_contrib_hits.
  destruct (job_hits ParseIP resolver job); reflexivity.
Qed.

Lemma exec_returned_totals order bls concurrency sched out :
  lookupDomainBLs_exec ParseIP resolver order bls concurrency sched = Some out ->
  let scored := List.filter (job_hits ParseIP resolver) (jobs order bls) in
  snd (fst out) ≡ₚ map (fun job => Zone (bl job)) scored /\
  fst (fst out)
  = int_wrap (fold_right Z.add 0 (map (fun job => ScoreAdj (bl job)) scored)) /\
  (length (snd (fst out)) <= length order * length bls)%nat.
Proof.
  intros Hexec scored. unfold lookupDomainBLs_exec in Hexec.
  destruct (run ParseIP resolver sched (init order bls concurrency))
    as [s|] eqn:Hrun; [|discriminate].
  destruct (run_returns_result ParseIP resolver _ _ _ _ _ _ Hrun Hexec) as [Hs Hh].
  rewrite flat_map_job_contrib in Hs, Hh. fold scored in Hs, Hh.
  rewrite map_map in Hh. cbn [fst] in Hh.
  split; [exact Hh|]. split.
  - rewrite Hs. unfold sum_scores. rewrite map_map. reflexivity.
  - rewrite Hh, length_map. unfold scored.
    rewrite <- (length_jobs order bls).
    clear. induction (jobs order bls) as [|j J IH]; [reflexivity|].
    cbn [List.filter]. destruct (job_hits ParseIP resolver j); simpl; lia.
Qed.

(** The returned totals: the hit list holds, in some order, the zone of
    every job whose lookup scored, once per job, and the score is the sum
    of the weights of these jobs, wrapped to 64 bits. *)
Theorem lookupDomainBLs_returned_totals order bls concurrency sched out :
  lookupDomainBLs_exec ParseIP resolver order bls concurrency sched = Some out ->
  let scored := List.filter (job_hits ParseIP resolver) (jobs order bls) in
  snd (fst out) ≡ₚ map (fun job => Zone (bl job)) scored /\
  fst (fst out)
  = int_wrap (fold_right Z.add 0 (map (fun job => ScoreAdj (bl job)) scored)) /\
  (length (snd (fst out)) <= length order * length bls)%nat.
Proof. apply exec_returned_totals. Qed.


(** *** Lost workers *)

Lemma starved_step L l s s' : starved L s -> erel l s s' -> starved L s'.
Proof.
  unfold starved. intros Hst Hstep.
  destruct Hstep as [i job rest s Hret Hpend Hw|i s Hret _ Hw|i s Hret _ Hw
                    |i job sc e s Hret Hw Hl|i job v s Hret Hw Hl|i res s Hret Hw
                    |s Hret Hpend _|s Hret _|s Hret Hcl Hdone];
    try (destruct (aggregate_fields res s) as (Ha1 & Ha2 & _));
    try (destruct (list_split_at _ _ _ Hw) as (l1 & l2 & Hl12 & Hins));
    cbn [st_workers st_pending set_worker set_pending set_err
         log_query set_closed set_ctxDone set_returned];
    rewrite ?Ha1, ?Ha2; auto;
    rewrite ?Hins; rewrite ?Hpend in Hst; rewrite Hl12 in Hst;
    rewrite ?count_workers_app, ?count_workers_cons in *;
    cbn [is_select negb length] in *; lia.
Qed.

Lemma starved_not_returned order bls concurrency sched s :
  erun sched (init order bls concurrency) = Some s ->
  starved (length (jobs order bls)) s -> st_returned s = None.
Proof.
  intros Hrun Hst.
  pose proof (run_invariant ParseIP resolver _ (pool_inv_step ParseIP resolver _ _)
                sched _ _ (init_pool_inv order bls concurrency) Hrun) as (Hlen & _ & _).
  pose proof (run_invariant ParseIP resolver _ (control_inv_step ParseIP resolver)
                sched _ _ (init_control_inv order bls concurrency) Hrun) as [Hc Hr].
  pose proof (pool_size_le order bls concurrency) as [_ HW].
  pose proof (count_workers_le (fun w => negb (is_select w)) (st_workers s)).
  destruct (st_returned s) as [out|] eqn:Eret; [|reflexivity].
  destruct (Hr out eq_refl) as (_ & Hcl & _).
  unfold starved in Hst. rewrite (Hc Hcl) in Hst. simpl in Hst. lia.
Qed.

Lemma run_starved L sched s s' :
  starved L s -> erun sched s = Some s' -> starved L s'.
Proof. intros Hst. now apply (run_invariant ParseIP resolver _ (starved_step L)). Qed.

Lemma lost_worker_starves L W i w s :
  pool_inv L W s -> st_workers s !! i = Some WSelect -> is_select w = false ->
  starved L (set_worker i w s).
Proof.
  intros (_ & Hbusy & _) Hw Hsel. unfold starved.
  destruct (list_split_at _ _ _ Hw) as (l1 & l2 & Hl12 & Hins).
  cbn [st_workers st_pending set_worker]. rewrite Hins. rewrite Hl12 in Hbusy.
  rewrite ?count_workers_app, ?count_workers_cons in *.
  rewrite Hsel. cbn [is_select negb] in *. lia.
Qed.

Lemma canceled_starved_step L W l s s' :
  pool_inv L W s /\ (st_err s = Some Canceled -> starved L s) ->
  erel l s s' ->
  pool_inv L W s' /\ (st_err s' = Some Canceled -> starved L s').
Proof.
  intros [Hpool Hc] Hstep. split; [eapply pool_inv_step; eauto|].
  pose proof (fun H => starved_step L l s s' H Hstep) as Hkeep.
  destruct Hstep as [i job rest s Hret Hpend Hw|i s Hret _ Hw|i s Hret _ Hw
                    |i job sc e s Hret Hw Hl|i job v s Hret Hw Hl|i res s Hret Hw
                    |s Hret Hpend _|s Hret _|s Hret Hcl Hdone];
    cbn [st_err set_worker set_pending set_err log_query set_closed
         set_ctxDone set_returned] in *; auto; try discriminate.
  - intros _.
    apply (lost_worker_starves L W i WDone (set_err Canceled s)); auto.
  - destruct (aggregate_fields res s) as (_ & _ & _ & _ & _ & _ & _ & _ & Ha9).
    rewrite Ha9. destruct (err res); [discriminate|]. auto.
Qed.

(** A worker that takes the [ctx.Done()] branch of its [select] serves no
    job, and no other worker is left for the job it was started for: from
    then on the call never returns.  So no execution returns
    [context.Canceled]. *)
Theorem lookupDomainBLs_cancellation_blocks order bls concurrency :
  (forall sched1 i sched2 s1 s2 s3,
      erun sched1 (init order bls concurrency) = Some s1 ->
      step ParseIP resolver (CtxDone i) s1 = Some s2 ->
      erun sched2 s2 = Some s3 ->
      st_returned s3 = None) /\
  (forall sched out,
      lookupDomainBLs_exec ParseIP resolver order bls concurrency sched = Some out ->
      snd out <> Some Canceled).
Proof.
  set (L := length (jobs order bls)).
  set (W := pool_size order bls concurrency).
  split.
  - intros sched1 i sched2 s1 s2 s3 Hrun1 Hstep Hrun2.
    apply (starved_not_returned order bls concurrency (sched1 ++ CtxDone i :: sched2)).
    + rewrite run_app, Hrun1. cbn [run]. rewrite Hstep. exact Hrun2.
    + fold L. apply (run_starved L sched2 s2); [|exact Hrun2].
      pose proof (run_invariant ParseIP resolver _ (pool_inv_step ParseIP resolver L W)
                    sched1 _ _ (init_pool_inv order bls concurrency) Hrun1) as Hpool.
      apply step_sound in Hstep. inversion Hstep; subst.
      apply (lost_worker_starves L W i WDone (set_err Canceled s1)); auto.
  - intros sched out Hexec Hc. unfold lookupDomainBLs_exec in Hexec.
    destruct (run ParseIP resolver sched (init order bls concurrency))
      as [s|] eqn:Hrun; [|discriminate].
    pose proof (run_invariant ParseIP resolver _ (control_inv_step ParseIP resolver)
                  sched _ _ (init_control_inv order bls concurrency) Hrun) as [_ Hr].
    destruct (Hr out Hexec) as (-> & _). cbn [snd] in Hc.
    assert (pool_inv L W s /\ (st_err s = Some Canceled -> starved L s)) as [_ Hst].
    { apply (run_invariant ParseIP resolver _ (canceled_starved_step L W) sched
               (init order bls concurrency)); [|exact Hrun].
      split; [apply init_pool_inv|discriminate]. }
    pose proof (starved_not_returned order bls concurrency sched s Hrun (Hst Hc)).
    congruence.
Qed.

(** *** When an error is returned *)

Lemma fail_inv_step J W l s s' :
  pool_inv (length J) W s /\ fail_inv ParseIP resolver J s ->
  erel l s s' ->
  pool_inv (length J) W s' /\ fail_inv ParseIP resolver J s'.
Proof.
  intros [Hpool Hf] Hstep. split; [eapply pool_inv_step; eauto|].
  destruct Hf as [Hst|(Hnone & Hsome & Hle)];
    [left; eapply starved_step; eauto|].
  destruct Hstep as [i job rest s Hret Hpend Hw|i s Hret _ Hw|i s Hret _ Hw
                    |i job sc e s Hret Hw Hl|i job v s Hret Hw Hl|i res s Hret Hw
                    |s Hret Hpend _|s Hret _|s Hret Hcl Hdone];
    try (left; apply (lost_worker_starves (length J) W); auto; fail);
    try (right; split; [|split]; assumption);
    right;
    try (destruct (aggregate_fields res s)
          as (Ha1 & Ha2 & _ & _ & _ & _ & _ & _ & Ha9));
    destruct (list_split_at _ _ _ Hw) as (l1 & l2 & Hl12 & Hins);
    cbn [st_workers st_pending st_err set_worker set_pending set_err log_query];
    rewrite ?Ha1, ?Ha2, ?Ha9, ?Hins; rewrite ?Hpend in Hnone, Hle;
    rewrite Hl12 in Hnone, Hle;
    rewrite ?count_workers_app, ?count_workers_cons in *;
    cbn [worker_fails List.filter] in *.
  - destruct (job_fails ParseIP resolver job); cbn [length] in *;
      (split; [intros H; specialize (Hnone H)|split; [exact Hsome|]]); lia.
  - assert (job_fails ParseIP resolver job
            = match e with Some _ => true | None => false end) as Hjf
        by (unfold job_fails; rewrite Hl; reflexivity).
    rewrite Hjf in *. cbn [err].
    split; [intros H; specialize (Hnone H)|split; [exact Hsome|]]; lia.
  - assert (job_fails ParseIP resolver job = true) as Hjf
        by (unfold job_fails; rewrite Hl; reflexivity).
    rewrite Hjf in *.
    split; [discriminate|]. split; [intros _|]; lia.
  - destruct (err res) as [e|].
    + split; [discriminate|]. split; [intros _|]; lia.
    + split; [intros H; specialize (Hnone H)|split; [exact Hsome|]]; lia.
Qed.

Lemma init_fail_inv order bls c :
  fail_inv ParseIP resolver (jobs order bls) (init order bls c).
Proof.
  right. cbn [init st_err st_workers st_pending].
  rewrite replicate_select_count by reflexivity.
  split; [reflexivity|]. split; [congruence|]. simpl. lia.
Qed.

Lemma exec_error_iff_job_fails order bls concurrency sched out :
  lookupDomainBLs_exec ParseIP resolver order bls concurrency sched = Some out ->
  (snd out <> None <-> Exists (fun job => job_fails ParseIP resolver job = true)
                              (jobs order bls)).
Proof.
  intros Hexec. unfold lookupDomainBLs_exec in Hexec.
  destruct (run ParseIP resolver sched (init order bls concurrency))
    as [s|] eqn:Hrun; [|discriminate].
  pose proof (run_invariant ParseIP resolver _ (control_inv_step ParseIP resolver)
                sched _ _ (init_control_inv order bls concurrency) Hrun) as [Hc Hr].
  destruct (Hr out Hexec) as (-> & Hcl & Hdone). cbn [snd].
  assert (pool_inv (length (jobs order bls)) (pool_size order bls concurrency) s /\
          fail_inv ParseIP resolver (jobs order bls) s) as [_ Hf].
  { apply (run_invariant ParseIP resolver _
             (fail_inv_step (jobs order bls) (pool_size order bls concurrency))
             sched (init order bls concurrency)); [|exact Hrun].
    split; [apply init_pool_inv|apply init_fail_inv]. }
  destruct Hf as [Hst|(Hnone & Hsome & _)].
  { pose proof (starved_not_returned order bls concurrency sched s Hrun Hst).
    congruence. }
  assert (count_workers (worker_fails ParseIP resolver) (st_workers s) = 0%nat) as Hw0.
  { clear -Hdone. induction (st_workers s) as [|w ws IH]; [reflexivity|].
    simpl in Hdone. apply andb_true_iff in Hdone as [Hw Hws].
    rewrite count_workers_cons. destruct w; try discriminate. simpl. auto. }
  rewrite (Hc Hcl), Hw0 in Hnone. simpl in Hnone.
  assert (forall J, (0 < length (List.filter (job_fails ParseIP resolver) J))%nat <->
                    Exists (fun job => job_fails ParseIP resolver job = true) J) as Hex.
  { clear. induction J as [|j J IH]; simpl.
    - split; [lia|]. intros H. inversion H.
    - destruct (job_fails ParseIP resolver j) eqn:E.
      + split; [intros _; now left|simpl; lia].
      + rewrite IH. split; [now right|].
        intros H. inversion H; subst; [congruence|assumption]. }
  rewrite <- Hex. split; [exact Hsome|].
  intros Hpos Herr. specialize (Hnone Herr). lia.
Qed.

(** An execution that returns, returns an error exactly when the lookup of
    one of the jobs returns an error or panics: no failure is swallowed,
    and no error comes from anything else. *)
Theorem lookupDomainBLs_error_iff_job_fails order bls concurrency sched out :
  lookupDomainBLs_exec ParseIP resolver order bls concurrency sched = Some out ->
  (snd out <> None <-> Exists (fun job => job_fails ParseIP resolver job = true)
                              (jobs order bls)).
Proof. apply exec_error_iff_job_fails. Qed.

(** With more jobs than [concurrency], no state that is reached has
    returned. *)
Lemma run_over_concurrency order bls concurrency sched s :
  Z.max 0 concurrency < Z.of_nat (length order) * Z.of_nat (length bls) ->
  erun sched (init order bls concurrency) = Some s -> st_returned s = None.
Proof.
  intros Hc Hrun.
  pose proof (run_invariant ParseIP resolver _ (pool_inv_step ParseIP resolver _ _)
                sched _ _ (init_pool_inv order bls concurrency) Hrun)
    as (Hlen & Hbusy & _).
  pose proof (run_invariant ParseIP resolver _ (control_inv_step ParseIP resolver)
                sched _ _ (init_control_inv order bls concurrency) Hrun) as [Hcl Hr].
  pose proof (pool_size_le order bls concurrency) as [HW _].
  pose proof (count_workers_le (fun w => negb (is_select w)) (st_workers s)).
  rewrite length_jobs in Hbusy.
  destruct (st_returned s) as [out|] eqn:Eret; [|reflexivity].
  destruct (Hr out eq_refl) as (_ & Hclosed & _).
  rewrite (Hcl Hclosed) in Hbusy. simpl in Hbusy. nia.
Qed.



End engine_value_facts.

Lemma lookupDomainBLs_returned_totals_witness :
  let bls := [mkList "bl1.example.net" 2 1; mkList "bl2.example.net" 4 5] in
  let resolver := fixture.tableResolver
     [("example.com.bl1.example.net", (["127.0.0.2"], None));
      ("example.org.bl2.example.net", (["127.0.0.4"], None))] in
  let sched := [SendJob 3; SendJob 1; SendJob 0; SendJob 2; RunLookup 0; RunLookup 1;
                RunLookup 2; RunLookup 3; Deliver 1; Deliver 0; CloseLookupC;
                Deliver 3; Deliver 2; Finish] in
  let out := (6, ["bl2.example.net"; "bl1.example.net"], None) in
  lookupDomainBLs_exec fixture.ParseIP resolver ["example.org"; "example.com"] bls 8 sched
  = Some out /\
  snd (fst out) ≡ₚ ["bl2.example.net"; "bl1.example.net"] /\
  fst (fst out) = 6.
Proof.
  intros bls resolver sched out.
  assert (lookupDomainBLs_exec fixture.ParseIP resolver ["example.org"; "example.com"]
            bls 8 sched = Some out) as Hexec by (vm_compute; reflexivity).
  split; [exact Hexec|].
  destruct (lookupDomainBLs_returned_totals fixture.ParseIP resolver
              ["example.org"; "example.com"] bls 8 sched out Hexec) as (Hh & Hs & _).
  split; [exact Hh|exact Hs].
Defined.

Lemma lookupDomainBLs_cancellation_blocks_witness :
  let bls := [mkList "bl.example.org" 2 1] in
  let resolver := fixture.mockBLResolver "127.0.0.2" None in
  exists s3,
    run fixture.ParseIP resolver
        [CancelCtx; CtxDone 0; SendJob 1; RunLookup 1; Deliver 1]
        (init ["a.example"; "b.example"] bls 8) = Some s3 /\
    st_returned s3 = None /\ st_pending s3 <> [].
Proof.
  intros bls resolver.
  destruct (run fixture.ParseIP resolver
                [CancelCtx; CtxDone 0; SendJob 1; RunLookup 1; Deliver 1]
                (init ["a.example"; "b.example"] bls 8)) as [s3|] eqn:Hrun;
    [|vm_compute in Hrun; discriminate].
  exists s3. split; [reflexivity|]. split.
  - eapply (proj1 (lookupDomainBLs_cancellation_blocks fixture.ParseIP resolver
                     ["a.example"; "b.example"] bls 8)
              [CancelCtx] 0%nat [SendJob 1; RunLookup 1; Deliver 1]);
      [vm_compute; reflexivity|vm_compute; reflexivity|exact Hrun].
  - vm_compute in Hrun. injection Hrun as <-. discriminate.
Defined.

Lemma lookupDomainBLs_error_iff_job_fails_witness :
  let bls := [mkList "bl.example.org" 2 1] in
  let resolver := fixture.tableResolver
     [("a.example.bl.example.org", (["127.0.0.2"], None));
      ("b.example.bl.example.org", ([], Some (DNSError false "server misbehaving")))] in
  let sched := [SendJob 0; SendJob 1; RunLookup 0; RunLookup 1;
                Deliver 1; Deliver 0; CloseLookupC; Finish] in
  let out := (1, ["bl.example.org"],
              Some (ErrorfZone "bl.example.org" (DNSError false "server misbehaving"))) in
  lookupDomainBLs_exec fixture.ParseIP resolver ["a.example"; "b.example"] bls 8 sched
  = Some out /\
  Exists (fun job => job_fails fixture.ParseIP resolver job = true)
         (jobs ["a.example"; "b.example"] bls).
Proof.
  intros bls resolver sched out.
  assert (lookupDomainBLs_exec fixture.ParseIP resolver ["a.example"; "b.example"]
            bls 8 sched = Some out) as Hexec by (vm_compute; reflexivity).
  split; [exact Hexec|].
  apply (proj1 (lookupDomainBLs_error_iff_job_fails fixture.ParseIP resolver
                  ["a.example"; "b.example"] bls 8 sched out Hexec)).
  discriminate.
Defined.

Lemma run_returns_queries_witness :
  let bls := [mkList "bl1.example.net" 2 1; mkList "bl2.example.net" 4 5] in
  let resolver := fixture.mockBLResolver "127.0.0.2" None in
  let sched := [SendJob 1; SendJob 0; RunLookup 0; RunLookup 1; Deliver 1; Deliver 0;
                CloseLookupC; Finish] in
  exists s,
    run fixture.ParseIP resolver sched (init ["example.org"] bls 8) = Some s /\
    st_returned s = Some (1, ["bl1.example.net"], None) /\
    st_queries s ≡ₚ [mkLookup "example.org" (mkList "bl1.example.net" 2 1);
                     mkLookup "example.org" (mkList "bl2.example.net" 4 5)].
Proof.
  intros bls resolver sched.
  destruct (run fixture.ParseIP resolver sched (init ["example.org"] bls 8))
    as [s|] eqn:Hrun; [|vm_compute in Hrun; discriminate].
  exists s. split; [reflexivity|].
  assert (st_returned s = Some (1, ["bl1.example.net"], None)) as Hret
      by (vm_compute in Hrun; injection Hrun as <-; reflexivity).
  split; [exact Hret|].
  apply (run_returns_queries fixture.ParseIP resolver ["example.org"] bls 8 sched s _
           Hrun Hret).
Defined.

(** ** Panics of [lookupDomainBL] *)

Section panic_facts.

Variable ParseIP : string -> net.IP.

Lemma To4_index3_None ip : net.To4 ip !! 3%nat = None <-> net.To4 ip = [].
Proof.
  split; [|intros ->; reflexivity].
  destruct (To4_length ip) as [->|Hlen]; [reflexivity|].
  intros H. apply lookup_ge_None in H. lia.
Qed.

Lemma addrs_loop_panics bl addrs :
  (exists v, addrs_loop ParseIP bl addrs = Panic v) <->
  exists pre addr post,
    addrs = pre ++ addr :: post /\
    Forall (IPv4_miss ParseIP (Bits bl)) pre /\ is_IPv6 ParseIP addr.
Proof.
  induction addrs as [|a rest IH]; cbn [addrs_loop].
  - split; [intros [v H]; discriminate|].
    intros (pre & addr & post & H & _). destruct pre; discriminate.
  - destruct (ParseIP a) as [|b0 ip] eqn:EP.
    + split; [intros [v H]; discriminate|].
      intros (pre & addr & post & H & Hpre & H6).
      destruct pre as [|p pre]; injection H as <- ->.
      * destruct H6 as [H6 _]. congruence.
      * inversion Hpre as [|? ? [(res & Hn & _) _] _]; subst. congruence.
    + destruct (net.To4 (b0 :: ip) !! 3%nat) as [res|] eqn:Hres.
      * destruct (bits_loop (Bits bl) res 8 0) eqn:EB.
        -- split; [intros [v H]; discriminate|].
           intros (pre & addr & post & H & Hpre & H6).
           destruct pre as [|p pre]; injection H as <- ->.
           ++ destruct H6 as [_ H6]. rewrite EP in H6. rewrite H6 in Hres. discriminate.
           ++ inversion Hpre as [|? ? [_ Hmiss] _]; subst. exfalso. apply Hmiss.
              exists res. split; [split; [congruence|now rewrite EP]|].
              now apply bits_loop_overlap.
        -- rewrite IH. split.
           ++ intros (pre & addr & post & -> & Hpre & H6).
              exists (a :: pre), addr, post.
              split; [reflexivity|]. split; [|exact H6].
              constructor; [|exact Hpre]. split.
              ** exists res. split; [congruence|now rewrite EP].
              ** intros (res' & [_ Hres'] & Hov). rewrite EP, Hres in Hres'.
                 injection Hres' as <-. apply bits_loop_overlap in Hov. congruence.
           ++ intros (pre & addr & post & H & Hpre & H6).
              destruct pre as [|p pre]; injection H as <- ->.
              ** destruct H6 as [_ H6]. rewrite EP in H6. rewrite H6 in Hres. discriminate.
              ** inversion Hpre; subst. exists pre, addr, post. auto.
      * split; [|intros _; eexists; reflexivity].
        intros _. exists [], a, rest. split; [reflexivity|]. split; [constructor|].
        split; [congruence|]. rewrite EP. now apply To4_index3_None.
Qed.

(** [lookupDomainBL] panics exactly when the resolution succeeds and an
    IPv6 address is reached, that is, is preceded only by IPv4 addresses
    that do not hit the mask: [ip.To4()] is nil then and [ip.To4()[3]] is
    out of range.  After a resolver error it never panics. *)
Theorem lookupDomainBL_panics_iff resolver domain bl :
  (exists v, lookupDomainBL ParseIP resolver domain bl = Panic v) <->
  exists pre addr post,
    resolver (blDomain domain bl) = (pre ++ addr :: post, None) /\
    Forall (IPv4_miss ParseIP (Bits bl)) pre /\ is_IPv6 ParseIP addr.
Proof.
  unfold lookupDomainBL.
  destruct (resolver (blDomain domain bl)) as [addrs [e|]] eqn:Hres.
  - split.
    + intros [v H]. destruct e as [[] ?| | | | |]; discriminate.
    + intros (pre & addr & post & H & _). discriminate.
  - rewrite addrs_loop_panics. split.
    + intros (pre & addr & post & -> & H). exists pre, addr, post. auto.
    + intros (pre & addr & post & [= ->] & H). exists pre, addr, post. auto.
Qed.

(** An entry whose mask is zero, or whose weight is zero, never scores,
    whatever the resolver answers. *)
Theorem lookupDomainBL_never_scores resolver domain bl sc e :
  Bits bl = 0 \/ ScoreAdj bl = 0 ->
  lookupDomainBL ParseIP resolver domain bl = Return (sc, e) -> sc = 0.
Proof.
  intros Hz Hret. destruct Hz as [Hb|Hs].
  - unfold lookupDomainBL in Hret.
    destruct (resolver (blDomain domain bl)) as [addrs [err|]].
    + destruct err as [[] ?| | | | |]; injection Hret as <- _; reflexivity.
    + clear -Hb Hret. induction addrs as [|a rest IH]; cbn [addrs_loop] in Hret.
      * now injection Hret as <- _.
      * destruct (ParseIP a) as [|b0 ip]; [now injection Hret as <- _|].
        destruct (net.To4 (b0 :: ip) !! 3%nat) as [res|]; [|discriminate].
        destruct (bits_loop (Bits bl) res 8 0) eqn:EB; [|auto].
        apply bits_loop_overlap in EB as (bit & _ & H1 & _).
        rewrite Hb, Z.bits_0 in H1. discriminate.
  - apply lookupDomainBL_score in Hret. lia.
Qed.

End panic_facts.

Lemma lookupDomainBL_panics_iff_witness :
  exists v,
    lookupDomainBL fixture.ParseIP
      (fixture.tableResolver
         [("spam.example.com.bl.example.org", (["127.0.0.4"; "2001:db8::1"], None))])
      "spam.example.com" (mkList "bl.example.org" 2 1) = Panic v.
Proof.
  apply (proj2 (lookupDomainBL_panics_iff fixture.ParseIP _ _ _)).
  exists ["127.0.0.4"], "2001:db8::1", []. split; [reflexivity|]. split.
  - constructor; [|constructor]. split.
    + exists 4. split; [vm_compute; discriminate|reflexivity].
    + intros (res & [_ Hres] & (bit & Hb & H1 & H2)).
      vm_compute in Hres. injection Hres as <-.
      assert (bit = 0 \/ bit = 1 \/ bit = 2 \/ bit = 3 \/ bit = 4 \/ bit = 5
              \/ bit = 6 \/ bit = 7) as Hc by lia.
      repeat (destruct Hc as [->|Hc]; [vm_compute in H1, H2; congruence|]).
      subst. vm_compute in H1, H2; congruence.
  - split; [vm_compute; discriminate|reflexivity].
Defined.

Lemma lookupDomainBL_never_scores_witness :
  exists sc e,
    lookupDomainBL fixture.ParseIP (fixture.mockBLResolver "127.0.0.2" None)
      "spam.example.com" (mkList "bl.example.org" 0 5) = Return (sc, e) /\
    sc = 0.
Proof.
  destruct (lookupDomainBL fixture.ParseIP (fixture.mockBLResolver "127.0.0.2" None)
              "spam.example.com" (mkList "bl.example.org" 0 5)) as [[sc e]|v] eqn:H;
    [|vm_compute in H; discriminate].
  exists sc, e. split; [reflexivity|].
  apply (lookupDomainBL_never_scores fixture.ParseIP
           (fixture.mockBLResolver "127.0.0.2" None)
           "spam.example.com" (mkList "bl.example.org" 0 5) sc e); [|exact H].
  left. reflexivity.
Defined.

(** ** [bitString.Bits] *)

Lemma byte_int_wrap z : byte (int_wrap z) = byte z.
Proof.
  unfold byte, int_wrap.
  pose proof (Z.div_mod (z + 2 ^ 63) (2 ^ 64) ltac:(lia)) as Hdm.
  set (q := (z + 2 ^ 63) / 2 ^ 64) in *.
  replace ((z + 2 ^ 63) mod 2 ^ 64 - 2 ^ 63) with (z + (- (2 ^ 56 * q)) * 256) by lia.
  apply Z_mod_plus_full.
Qed.

Lemma Bits_loop_spec values :
  forall r r',
    byte r = byte r' ->
    Bits_loop r values
    = match mapM strconv.ParseInt (nonempty values) with
      | Some ns => Some (byte (r' + fold_right Z.add 0 ns))
      | None => None
      end.
Proof.
  induction values as [|value rest IH]; intros r r' Hr; cbn [Bits_loop]; unfold nonempty;
    cbn [List.filter]; try fold (nonempty rest).
  - cbn. rewrite Z.add_0_r. now f_equal.
  - destruct (Nat.eqb (String.length value) 0); cbn [negb]; [now apply IH|].
    cbn [mapM]. destruct (strconv.ParseInt value) as [n|]; [|reflexivity].
    rewrite (IH _ (r' + n)).
    + cbn. destruct (mapM strconv.ParseInt _); cbn; [|reflexivity].
      f_equal. f_equal. lia.
    + rewrite byte_int_wrap. unfold byte in *.
      rewrite Zplus_mod, Hr, <- Zplus_mod. reflexivity.
Qed.

Lemma elem_of_nonempty v values : v ∈ nonempty values <-> v ∈ values /\ v <> "".
Proof.
  unfold nonempty. rewrite !list_elem_of_In, filter_In.
  destruct v; cbn; intuition congruence.
Qed.

Lemma bitString_Bits_mapM b :
  bitString_Bits b
  = match mapM strconv.ParseInt (nonempty (gostrings.Split b "+")) with
    | Some ns => Some (fold_right Z.add 0 ns mod 256)
    | None => None
    end.
Proof.
  unfold bitString_Bits. destruct b as [|a b']; [reflexivity|].
  cbn [String.length Nat.eqb]. now rewrite (Bits_loop_spec _ 0 0).
Qed.

(** [Bits] as a whole: the fields between the [+] signs that are not empty
    are parsed as [int32] literals; when one of them is none, the call
    fails, otherwise it returns their sum reduced to a byte. *)
Theorem bitString_Bits_spec b :
  bitString_Bits b
  = match mapM strconv.ParseInt (nonempty (gostrings.Split b "+")) with
    | Some ns => Some (fold_right Z.add 0 ns mod 256)
    | None => None
    end /\
  (bitString_Bits b = None <->
   Exists (fun value => value <> "" /\ strconv.ParseInt value = None)
          (gostrings.Split b "+")) /\
  (forall r, bitString_Bits b = Some r -> 0 <= r < 256).
Proof.
  pose proof (bitString_Bits_mapM b) as Hspec.
  split; [exact Hspec|]. split.
  - rewrite Hspec.
    destruct (mapM strconv.ParseInt (nonempty (gostrings.Split b "+"))) as [ns|] eqn:E.
    + split; [discriminate|]. intros Hex. exfalso.
      assert (Exists (fun x => strconv.ParseInt x = None)
                     (nonempty (gostrings.Split b "+"))) as Hex'.
      { apply Exists_exists in Hex as (v & Hin & Hne & Hp).
        apply Exists_exists. exists v. split; [|exact Hp].
        now apply elem_of_nonempty. }
      apply mapM_None in Hex'. congruence.
    + split; [|reflexivity]. intros _.
      apply mapM_None, Exists_exists in E as (v & Hin & Hp).
      apply elem_of_nonempty in Hin as [Hin Hne].
      apply Exists_exists. exists v. auto.
  - intros r. rewrite Hspec. destruct (mapM _ _); [|discriminate].
    intros [= <-]. apply Z.mod_pos_bound. lia.
Qed.

Lemma append_nil_l (s : string) : "" +:+ s = s.
Proof. reflexivity. Qed.

Lemma append_cons (a : ascii) (s t : string) : String a s +:+ t = String a (s +:+ t).
Proof. reflexivity. Qed.

Lemma Split_cons a s sep :
  gostrings.Split (String a s) sep
  = if Ascii.eqb a sep then "" :: gostrings.Split s sep
    else match gostrings.Split s sep with
         | f :: fs => String a f :: fs
         | [] => [String a ""]
         end.
Proof. reflexivity. Qed.

Lemma Split_not_nil s sep : gostrings.Split s sep <> [].
Proof.
  destruct s as [|a s]; [discriminate|]. rewrite Split_cons.
  destruct (Ascii.eqb a sep); [discriminate|].
  destruct (gostrings.Split s sep); discriminate.
Qed.

Lemma Split_single_app f rest sep :
  gostrings.Split f sep = [f] ->
  gostrings.Split (f +:+ String sep rest) sep = f :: gostrings.Split rest sep.
Proof.
  induction f as [|a f IH]; rewrite ?append_nil_l, ?append_cons, ?Split_cons.
  - intros _. now rewrite Ascii.eqb_refl.
  - destruct (Ascii.eqb a sep); [discriminate|].
    destruct (gostrings.Split f sep) as [|f0 fs] eqn:E.
    + now apply Split_not_nil in E.
    + intros [= -> ->]. now rewrite IH.
Qed.

Lemma Split_Join fields sep :
  fields <> [] -> Forall (fun f => gostrings.Split f sep = [f]) fields ->
  gostrings.Split (gostrings.Join fields (String sep "")) sep = fields.
Proof.
  intros Hne Hall. induction Hall as [|f rest Hf Hrest IH]; [contradiction|].
  destruct rest as [|f' rest]; [exact Hf|].
  change (gostrings.Join (f :: f' :: rest) (String sep ""))
    with (f +:+ String sep "" +:+ gostrings.Join (f' :: rest) (String sep "")).
  rewrite append_cons, append_nil_l.
  rewrite Split_single_app by exact Hf. f_equal. now apply IH.
Qed.

Lemma string_of_uint_no_plus d :
  gostrings.Split (NilEmpty.string_of_uint d) "+" = [NilEmpty.string_of_uint d].
Proof.
  induction d; cbn [NilEmpty.string_of_uint gostrings.Split]; try reflexivity;
    cbn [Ascii.eqb Bool.eqb]; rewrite IHd; reflexivity.
Qed.

Lemma FormatUint_digits n :
  exists a s, strconv.FormatUint n = String a s /\
              Ascii.eqb a "+" = false /\ Ascii.eqb a "-" = false /\
              strconv.FormatUint n = NilEmpty.string_of_uint (N.to_uint n).
Proof.
  unfold strconv.FormatUint, NilZero.string_of_uint.
  destruct (N.to_uint n) eqn:E;
    try (eexists _, _; cbn [NilEmpty.string_of_uint];
         (split; [reflexivity|]); (split; [reflexivity|]); split; reflexivity).
  exfalso. pose proof (DecimalN.Unsigned.of_to n) as H. rewrite E in H.
  cbn in H. subst n. discriminate.
Qed.

Lemma ParseInt_FormatUint n :
  (n < 2 ^ 31)%N -> strconv.ParseInt (strconv.FormatUint n) = Some (Z.of_N n).
Proof.
  intros Hn. destruct (FormatUint_digits n) as (a & s & Hs & Hplus & Hminus & Hd).
  unfold strconv.ParseInt. rewrite Hs, Hplus, Hminus. cbn [orb].
  rewrite <- Hs, Hd, NilEmpty.usu, DecimalN.Unsigned.of_to.
  destruct (Z.ltb_spec (Z.of_N n) (2 ^ 31)); [reflexivity|lia].
Qed.

Lemma FormatUint_no_plus n :
  gostrings.Split (strconv.FormatUint n) "+" = [strconv.FormatUint n].
Proof.
  destruct (FormatUint_digits n) as (_ & _ & _ & _ & _ & ->).
  apply string_of_uint_no_plus.
Qed.

(** Written as decimal numbers joined by [+], a list of numbers below
    [2^31] is read back as their sum reduced to a byte: [8+16+64] is 88, a
    single packed value is itself modulo 256. *)
Theorem bitString_Bits_Join (ns : list N) :
  Forall (fun n => (n < 2 ^ 31)%N) ns ->
  bitString_Bits (gostrings.Join (map strconv.FormatUint ns) "+")
  = Some (Z.of_N (fold_right N.add 0%N ns) mod 256).
Proof.
  intros Hall. destruct ns as [|n0 ns']; [reflexivity|].
  set (ns := n0 :: ns') in *.
  rewrite bitString_Bits_mapM.
  rewrite Split_Join.
  - assert (nonempty (map strconv.FormatUint ns) = map strconv.FormatUint ns) as ->.
    { unfold nonempty. clear. induction ns as [|n ns IH]; [reflexivity|].
      cbn [map List.filter].
      destruct (FormatUint_digits n) as (a & s & -> & _). cbn. now rewrite IH. }
    assert (mapM strconv.ParseInt (map strconv.FormatUint ns) = Some (map Z.of_N ns))
      as ->.
    { apply mapM_Some. clear -Hall. induction Hall as [|n ns Hn _ IH]; cbn [map].
      - constructor.
      - constructor; [now apply ParseInt_FormatUint|exact IH]. }
    f_equal. f_equal. clear. induction ns as [|n ns IH]; [reflexivity|].
    cbn [map fold_right]. rewrite IH. lia.
  - discriminate.
  - clear. induction ns as [|n ns IH]; cbn [map]; constructor; auto.
    apply FormatUint_no_plus.
Qed.

Lemma bitString_Bits_spec_witness :
  bitString_Bits "8++x" = None /\
  Exists (fun value => value <> "" /\ strconv.ParseInt value = None)
         (gostrings.Split "8++x" "+").
Proof.
  assert (bitString_Bits "8++x" = None) as H by (vm_compute; reflexivity).
  split; [exact H|].
  exact (proj1 (proj1 (proj2 (bitString_Bits_spec "8++x"))) H).
Defined.

Lemma bitString_Bits_Join_witness :
  Forall (fun n => (n < 2 ^ 31)%N) [8; 16; 64]%N /\
  bitString_Bits "8+16+64" = Some 88 /\
  bitString_Bits "256" = Some 0.
Proof.
  assert (forall ns, Forall (fun n => (n < 2 ^ 31)%N) ns <->
                     forallb (fun n => (n <? 2 ^ 31)%N) ns = true) as Hdec.
  { intros ns. rewrite forallb_forall, Forall_forall.
    setoid_rewrite list_elem_of_In. setoid_rewrite N.ltb_lt. reflexivity. }
  assert (Forall (fun n => (n < 2 ^ 31)%N) [8; 16; 64]%N) as H1
      by (apply Hdec; reflexivity).
  assert (Forall (fun n => (n < 2 ^ 31)%N) [256]%N) as H2
      by (apply Hdec; reflexivity).
  split; [exact H1|]. split.
  - exact (bitString_Bits_Join [8; 16; 64]%N H1).
  - exact (bitString_Bits_Join [256]%N H2).
Defined.

(** ** [Check.Init] and [readListCfg] *)




Section Init_facts.

Variable ParseIP : string -> net.IP.


End Init_facts.


(** ** [state.CheckBody] *)

Section CheckBody_facts.

Variable ParseIP : string -> net.IP.
Variable publicsuffix_Domain : string -> option string.
Variable resolver : Resolver.

Local Abbreviation CheckBodyR := (CheckBody ParseIP publicsuffix_Domain).
Local Abbreviation all_jobs domains bls :=
  (jobs (cleanupDomains_exec ParseIP publicsuffix_Domain domains) bls).

Lemma jobs_enumeration domains order bls :
  cleanupDomains ParseIP publicsuffix_Domain domains order ->
  jobs order bls ≡ₚ all_jobs domains bls.
Proof.
  intros Ho. apply (jobs_Permutation order _ bls). exact Ho.
Qed.

Lemma filter_Permutation {A} (f : A -> bool) (l1 l2 : list A) :
  l1 ≡ₚ l2 -> List.filter f l1 ≡ₚ List.filter f l2.
Proof.
  induction 1 as [|x l1 l2 _ IH|x y l|l1 l2 l3 _ IH1 _ IH2]; cbn [List.filter].
  - constructor.
  - destruct (f x); [now constructor|exact IH].
  - destruct (f x), (f y); try reflexivity. apply perm_swap.
  - now transitivity (List.filter f l2).
Qed.

(** The answers of [CheckBody] to failures.  A body that cannot be opened
    is rejected.  An error of the extraction, and an error or panic in the
    lookup of any job, give the temporary failure 451 4.7.0 with neither
    [Reject] nor [Quarantine] set, whatever the score is. *)
Theorem CheckBody_failures c bls opened extracted ret :
  CheckBodyR c bls resolver opened extracted ret ->
  (forall e, opened = Some e ->
             ret = Literal (mkCheckResult true false (Some (WithFields e modName)))) /\
  (forall e, opened = None -> extracted = inr e -> ret = internal_error e) /\
  (forall domains,
      opened = None -> extracted = inl domains ->
      Exists (fun job => job_fails ParseIP resolver job = true) (all_jobs domains bls) ->
      exists e, ret = internal_error e).
Proof.
  intros H. split; [|split].
  - intros e ->. exact H.
  - intros e -> ->. exact H.
  - intros domains -> -> Hex. cbn in H.
    destruct H as (out & (order & sched & Ho & Hexec) & ->).
    apply (exec_error_iff_job_fails ParseIP resolver) in Hexec as Hiff.
    destruct out as [[score hits] [e|]].
    + exists e. reflexivity.
    + exfalso. apply (proj2 Hiff); [|reflexivity].
      apply Exists_exists in Hex as (job & Hin & Hf).
      apply Exists_exists. exists job. split; [|exact Hf].
      now rewrite (jobs_enumeration domains order bls Ho).
Qed.

(** Without failing job, [CheckBody] decides on the sum of the weights of
    the jobs that hit, and reports their zones; when no job hits either,
    the score is 0 and the hit list is empty. *)
Theorem CheckBody_decides_on_total c bls domains ret :
  CheckBodyR c bls resolver None (inl domains) ret ->
  Forall (fun job => job_fails ParseIP resolver job = false) (all_jobs domains bls) ->
  let scored := List.filter (job_hits ParseIP resolver) (all_jobs domains bls) in
  let score := int_wrap (fold_right Z.add 0 (map (fun job => ScoreAdj (bl job)) scored)) in
  (exists hits,
      hits ≡ₚ map (fun job => Zone (bl job)) scored /\
      ret = CheckBody_decide c (score, hits, None)) /\
  (scored = [] -> ret = CheckBody_decide c (0, [], None)).
Proof.
  intros H Hok scored score. cbn in H.
  destruct H as (out & (order & sched & Ho & Hexec) & ->).
  pose proof (jobs_enumeration domains order bls Ho) as Hperm.
  apply (exec_error_iff_job_fails ParseIP resolver) in Hexec as Hiff.
  apply (exec_returned_totals ParseIP resolver) in Hexec as (Hh & Hs & _).
  destruct out as [[sc hits] e]. cbn [fst snd] in *.
  assert (e = None) as ->.
  { destruct e as [e|]; [|reflexivity]. exfalso.
    destruct Hiff as [Hiff _]. specialize (Hiff ltac:(discriminate)).
    apply Exists_exists in Hiff as (job & Hin & Hf).
    rewrite Hperm in Hin. rewrite Forall_forall in Hok.
    specialize (Hok _ Hin). congruence. }
  pose proof (filter_Permutation (job_hits ParseIP resolver) _ _ Hperm) as Hfp.
  fold scored in Hfp.
  assert (sc = score) as ->.
  { rewrite Hs. unfold score. f_equal.
    assert (forall l1 l2 : list Z, l1 ≡ₚ l2 ->
                                   fold_right Z.add 0 l1 = fold_right Z.add 0 l2) as Hsum
        by (induction 1; simpl; lia).
    apply Hsum. now rewrite Hfp. }
  assert (hits ≡ₚ map (fun job => Zone (bl job)) scored) as Hhits
      by (now rewrite Hh, Hfp).
  split.
  - exists hits. split; [exact Hhits|reflexivity].
  - intros Hnil. unfold score in *. rewrite Hnil in *. cbn in Hhits.
    apply Permutation_nil_r in Hhits as ->. reflexivity.
Qed.

(** [CheckBody] passes the constant 8 as [concurrency]: a message with
    more than 8 jobs, normalized domains times entries, gets no answer. *)
Theorem CheckBody_over_eight_jobs c bls domains ret :
  8 < Z.of_nat (size (unique_of ParseIP publicsuffix_Domain domains))
      * Z.of_nat (length bls) ->
  ~ CheckBodyR c bls resolver None (inl domains) ret.
Proof.
  intros Hjobs H. cbn in H.
  destruct H as (out & (order & sched & Ho & Hexec) & _).
  unfold lookupDomainBLs_exec in Hexec.
  destruct (run ParseIP resolver sched (init order bls concurrency))
    as [s|] eqn:Hrun; [|discriminate].
  rewrite (run_over_concurrency ParseIP resolver order bls concurrency sched s) in Hexec;
    [discriminate| |exact Hrun].
  unfold cleanupDomains, range_unique in Ho.
  assert (length order = size (unique_of ParseIP publicsuffix_Domain domains)) as ->
      by (now rewrite Ho).
  exact Hjobs.
Qed.

End CheckBody_facts.

Lemma CheckBody_failures_witness :
  let bls := [mkList "bl.example.org" 2 1] in
  let resolver := fixture.mockBLResolver "" (Some (DNSError false "server misbehaving")) in
  let ret := internal_error
               (ErrorfZone "bl.example.org" (DNSError false "server misbehaving")) in
  CheckBody fixture.ParseIP fixture.publicsuffix_Domain (Init ∅) bls resolver None
            (inl ["www.example.com"]) ret /\
  exists e, ret = internal_error e.
Proof.
  intros bls resolver ret.
  assert (CheckBody fixture.ParseIP fixture.publicsuffix_Domain (Init ∅) bls resolver
                    None (inl ["www.example.com"]) ret) as H.
  { exists (0, [], Some (ErrorfZone "bl.example.org"
                           (DNSError false "server misbehaving"))).
    split; [|reflexivity].
    exists ["example.com"], [SendJob 0; RunLookup 0; Deliver 0; CloseLookupC; Finish].
    split; [|vm_compute; reflexivity].
    unfold cleanupDomains, range_unique.
    replace (elements (unique_of fixture.ParseIP fixture.publicsuffix_Domain
                                 ["www.example.com"]))
      with ["example.com"] by (vm_compute; reflexivity).
    reflexivity. }
  split; [exact H|].
  apply (proj2 (proj2 (CheckBody_failures fixture.ParseIP fixture.publicsuffix_Domain
                         resolver (Init ∅) bls None (inl ["www.example.com"]) ret H))
           ["www.example.com"] eq_refl eq_refl).
  vm_compute. apply Exists_cons_hd. reflexivity.
Defined.

Lemma CheckBody_decides_on_total_witness :
  let bls := [mkList "bl.example.org" 2 1] in
  let resolver := fixture.mockBLResolver "127.0.0.2" None in
  let ret := CheckBody_decide (Init ∅) (1, ["bl.example.org"], None) in
  CheckBody fixture.ParseIP fixture.publicsuffix_Domain (Init ∅) bls resolver None
            (inl ["www.example.com"]) ret /\
  exists hits, hits ≡ₚ ["bl.example.org"] /\
               ret = CheckBody_decide (Init ∅) (1, hits, None).
Proof.
  intros bls resolver ret.
  assert (CheckBody fixture.ParseIP fixture.publicsuffix_Domain (Init ∅) bls resolver
                    None (inl ["www.example.com"]) ret) as H.
  { exists (1, ["bl.example.org"], None). split; [|reflexivity].
    exists ["example.com"], [SendJob 0; RunLookup 0; Deliver 0; CloseLookupC; Finish].
    split; [|vm_compute; reflexivity].
    unfold cleanupDomains, range_unique.
    replace (elements (unique_of fixture.ParseIP fixture.publicsuffix_Domain
                                 ["www.example.com"]))
      with ["example.com"] by (vm_compute; reflexivity).
    reflexivity. }
  split; [exact H|].
  refine (proj1 (CheckBody_decides_on_total fixture.ParseIP fixture.publicsuffix_Domain
                   resolver (Init ∅) bls ["www.example.com"] ret H _)).
  vm_compute. repeat constructor.
Defined.

Lemma CheckBody_over_eight_jobs_witness :
  let bls := [mkList "bl1.example.org" 2 1; mkList "bl2.example.org" 4 1;
              mkList "bl3.example.org" 8 1] in
  let domains := ["www.a.com"; "www.b.com"; "www.c.com"] in
  8 < Z.of_nat (size (unique_of fixture.ParseIP fixture.publicsuffix_Domain domains))
      * Z.of_nat (length bls) /\
  forall ret,
    ~ CheckBody fixture.ParseIP fixture.publicsuffix_Domain (Init ∅) bls
        (fixture.mockBLResolver "127.0.0.2" None) None (inl domains) ret.
Proof.
  intros bls domains.
  assert (8 < Z.of_nat (size (unique_of fixture.ParseIP fixture.publicsuffix_Domain
                                        domains))
              * Z.of_nat (length bls)) as H by (vm_compute; reflexivity).
  split; [exact H|]. intros ret.
  exact (CheckBody_over_eight_jobs fixture.ParseIP fixture.publicsuffix_Domain
           (fixture.mockBLResolver "127.0.0.2" None) (Init ∅) bls domains ret H).
Defined.

(** ** [cleanupDomains] depends on the set of its inputs only *)

Section unique_facts.

Variable ParseIP : string -> net.IP.
Variable publicsuffix_Domain : string -> option string.

Local Abbreviation uniq := (unique_of ParseIP publicsuffix_Domain).

(** The keys [cleanupDomains] collects do not depend on the order of the
    raw strings nor on how often each occurs: two inputs with the same
    elements give the same set, hence the same possible results, and the
    keys of a concatenation are the union of the keys of its parts. *)
Theorem cleanupDomains_set_semantics (domains1 domains2 : list string) :
  uniq (domains1 ++ domains2) = uniq domains1 ∪ uniq domains2 /\
  ((forall d, d ∈ domains1 <-> d ∈ domains2) ->
   uniq domains1 = uniq domains2 /\
   forall out,
     cleanupDomains ParseIP publicsuffix_Domain domains1 out <->
     cleanupDomains ParseIP publicsuffix_Domain domains2 out).
Proof.
  split.
  - apply set_eq. intros x. rewrite elem_of_union, !elem_of_unique_of.
    split.
    + intros (d & Hd & Hk). apply elem_of_app in Hd as [Hd|Hd]; [left|right]; eauto.
    + intros [(d & Hd & Hk)|(d & Hd & Hk)]; exists d;
        (split; [apply elem_of_app; auto|exact Hk]).
  - intros Hsame.
    assert (uniq domains1 = uniq domains2) as Heq.
    { apply set_eq. intros x. rewrite !elem_of_unique_of.
      split; intros (d & Hd & Hk); exists d; (split; [now apply Hsame|exact Hk]). }
    split; [exact Heq|]. intros out. unfold cleanupDomains. now rewrite Heq.
Qed.

End unique_facts.

Lemma cleanupDomains_set_semantics_witness :
  let domains1 := ["www.example.com"; "1.2.3.4"; "www.example.com"] in
  let domains2 := ["1.2.3.4"; "www.example.com"] in
  (forall d, d ∈ domains1 <-> d ∈ domains2) /\
  unique_of fixture.ParseIP fixture.publicsuffix_Domain domains1
  = unique_of fixture.ParseIP fixture.publicsuffix_Domain domains2.
Proof.
  intros domains1 domains2.
  assert (forall d, d ∈ domains1 <-> d ∈ domains2) as Hsame.
  { intros d. unfold domains1, domains2. rewrite !elem_of_cons, elem_of_nil. tauto. }
  split; [exact Hsame|].
  exact (proj1 (proj2 (cleanupDomains_set_semantics fixture.ParseIP
                         fixture.publicsuffix_Domain domains1 domains2) Hsame)).
Defined.

(** ** Strings as byte sequences *)

Lemma bytes_String a s : gostrings.bytes (String a s) = a :: gostrings.bytes s.
Proof. reflexivity. Qed.

Lemma bytes_append s t :
  gostrings.bytes (s +:+ t) = gostrings.bytes s ++ gostrings.bytes t.
Proof.
  induction s as [|a s IH]; [reflexivity|].
  rewrite append_cons, !bytes_String, IH. reflexivity.
Qed.

Lemma bytes_of_list l : gostrings.bytes (string_of_list_ascii l) = l.
Proof. apply list_ascii_of_string_of_list_ascii. Qed.

Lemma string_of_bytes s : string_of_list_ascii (gostrings.bytes s) = s.
Proof. apply string_of_list_ascii_of_string. Qed.

Lemma string_of_list_app l1 l2 :
  string_of_list_ascii (l1 ++ l2) = string_of_list_ascii l1 +:+ string_of_list_ascii l2.
Proof.
  induction l1 as [|a l1 IH]; [reflexivity|].
  cbn [app string_of_list_ascii]. rewrite IH, append_cons. reflexivity.
Qed.

Lemma slice_prefix s k : gostrings.slice s 0 k = string_of_list_ascii (take k (gostrings.bytes s)).
Proof. unfold gostrings.slice. rewrite Nat.sub_0_r. reflexivity. Qed.

Lemma slice_all s : gostrings.slice s 0 (gostrings.len s) = s.
Proof.
  rewrite slice_prefix. unfold gostrings.len.
  rewrite take_ge by lia. apply string_of_bytes.
Qed.

Lemma bytes_slice_prefix s k :
  gostrings.bytes (gostrings.slice s 0 k) = take k (gostrings.bytes s).
Proof. rewrite slice_prefix. apply bytes_of_list. Qed.

Lemma len_slice_prefix s k :
  (k <= gostrings.len s)%nat -> gostrings.len (gostrings.slice s 0 k) = k.
Proof.
  intros Hk. unfold gostrings.len in *. rewrite bytes_slice_prefix, length_take. lia.
Qed.

Lemma slice_slice_prefix s k m :
  (m <= k)%nat -> gostrings.slice (gostrings.slice s 0 k) 0 m = gostrings.slice s 0 m.
Proof.
  intros Hm. rewrite (slice_prefix (gostrings.slice s 0 k)), bytes_slice_prefix.
  rewrite take_take, Nat.min_l by lia. symmetry. apply slice_prefix.
Qed.

Lemma last_index_below_take l c k m :
  (m <= k)%nat ->
  gostrings.last_index_below (take k l) c m = gostrings.last_index_below l c m.
Proof.
  intros Hm. induction m as [|i IH]; [reflexivity|].
  cbn [gostrings.last_index_below].
  rewrite lookup_take_lt by lia. rewrite IH by lia. reflexivity.
Qed.

Lemma last_index_below_Some l c m p :
  gostrings.last_index_below l c m = Some p ->
  (p < m)%nat /\ (l !! p = Some c).
Proof.
  induction m as [|i IH]; cbn [gostrings.last_index_below]; [discriminate|].
  destruct (l !! i) as [a|] eqn:E.
  - destruct (Ascii.eqb_spec a c) as [->|_].
    + intros [= <-]. split; [lia|exact E].
    + intros H. apply IH in H as [? ?]. split; [lia|assumption].
  - intros H. apply IH in H as [? ?]. split; [lia|assumption].
Qed.

(** ** [convertToGoRegexp] *)

Lemma append_assoc_str (s t u : string) : (s +:+ t) +:+ u = s +:+ (t +:+ u).
Proof.
  induction s as [|a s IH]; [reflexivity|]. rewrite !append_cons, IH. reflexivity.
Qed.

Lemma append_nil_r_str (s : string) : s +:+ "" = s.
Proof. induction s as [|a s IH]; [reflexivity|]. now rewrite append_cons, IH. Qed.

Lemma lower_not_slash c : pattern.lower c = true -> Ascii.eqb c "/" = false.
Proof.
  intros H. destruct (Ascii.eqb_spec c "/") as [->|]; [discriminate H|reflexivity].
Qed.

Lemma lower_not_U c : pattern.lower c = true -> Ascii.eqb c "U" = false.
Proof.
  intros H. destruct (Ascii.eqb_spec c "U") as [->|]; [discriminate H|reflexivity].
Qed.

Lemma scan_flags_stops B c F k :
  pattern.lower c = false -> Forall (fun f => pattern.lower f = true) F ->
  (k <= length F)%nat ->
  pattern.scan_flags (B ++ c :: F) (length B + 1 + k) = Some (length B).
Proof.
  intros Hc HF. induction k as [|k IH]; intros Hk.
  - rewrite Nat.add_0_r, Nat.add_1_r. cbn [pattern.scan_flags].
    rewrite list_lookup_middle by reflexivity.
    fold (pattern.lower c) in *. unfold pattern.lower in Hc.
    rewrite <- andb_assoc, Hc, andb_false_r. reflexivity.
  - replace (length B + 1 + S k)%nat with (S (length B + 1 + k)) by lia.
    cbn [pattern.scan_flags].
    destruct (lookup_lt_is_Some_2 F k ltac:(lia)) as [f Hf].
    assert ((B ++ c :: F) !! (length B + 1 + k)%nat = Some f) as ->.
    { rewrite lookup_app_r by lia.
      replace (length B + 1 + k - length B)%nat with (S k) by lia. exact Hf. }
    assert (pattern.lower f = true) as Hlow.
    { rewrite Forall_forall in HF. apply HF. eapply list_elem_of_lookup_2; eauto. }
    rewrite (lower_not_slash f Hlow). unfold pattern.lower in Hlow.
    cbn [negb]. rewrite andb_true_l, Hlow. apply IH. lia.
Qed.

Lemma scan_flags_all_lower F k :
  Forall (fun f => pattern.lower f = true) F -> (k <= length F)%nat ->
  pattern.scan_flags F k = None.
Proof.
  intros HF. induction k as [|k IH]; intros Hk; [reflexivity|].
  cbn [pattern.scan_flags].
  destruct (lookup_lt_is_Some_2 F k ltac:(lia)) as [f Hf]. rewrite Hf.
  assert (pattern.lower f = true) as Hlow.
  { rewrite Forall_forall in HF. apply HF. eapply list_elem_of_lookup_2; eauto. }
  rewrite (lower_not_slash f Hlow). unfold pattern.lower in Hlow.
  cbn [negb]. rewrite andb_true_l, Hlow. apply IH. lia.
Qed.

Lemma fold_flag_groups F acc :
  Forall (fun f => pattern.lower f = true) F ->
  fold_left (fun b c => b +:+ pattern.flag_group c) F acc
  = acc +:+ pattern.flag_groups F.
Proof.
  intros HF. revert acc. induction HF as [|f F Hf _ IH]; intros acc; cbn [fold_left].
  - cbn. now rewrite append_nil_r_str.
  - rewrite IH. cbn [pattern.flag_groups]. rewrite <- append_assoc_str. f_equal. f_equal.
    unfold pattern.flag_group. rewrite (lower_not_U f Hf), orb_false_r. reflexivity.
Qed.

Lemma slice_tail a s : gostrings.slice (String a s) 1 (gostrings.len (String a s)) = s.
Proof.
  unfold gostrings.slice, gostrings.len. rewrite bytes_String. cbn [length].
  rewrite Nat.sub_succ, Nat.sub_0_r.
  change (drop 1 (a :: gostrings.bytes s)) with (gostrings.bytes s).
  rewrite take_ge by apply le_n. apply string_of_bytes.
Qed.

(** [convertToGoRegexp] drops the first byte, takes the lowercase letters
    at the end as flags, drops the byte before them whatever it is, and
    puts a group in front of the rest for each flag [i], [m] or [s].  The
    flag [U] of the [switch] is never applied: an upper case letter ends
    the flags, so [/re/U] becomes [re/].  A pattern that is all lowercase
    after its first byte gives the empty string, and the empty pattern
    panics. *)
Theorem convertToGoRegexp_spec (a0 c : ascii) (body flags : string) :
  (pattern.lower c = false ->
   Forall (fun f => pattern.lower f = true) (gostrings.bytes flags) ->
   pattern.convertToGoRegexp (String a0 (body +:+ String c flags))
   = Return (pattern.flag_groups (gostrings.bytes flags) +:+ body)) /\
  (Forall (fun f => pattern.lower f = true) (gostrings.bytes flags) ->
   pattern.convertToGoRegexp (String a0 flags) = Return "") /\
  pattern.convertToGoRegexp (String a0 (body +:+ "/U")) = Return (body +:+ "/") /\
  (exists v, pattern.convertToGoRegexp "" = Panic v).
Proof.
  assert (forall c' flags',
             pattern.lower c' = false ->
             Forall (fun f => pattern.lower f = true) (gostrings.bytes flags') ->
             forall body',
             pattern.convertToGoRegexp (String a0 (body' +:+ String c' flags'))
             = Return (pattern.flag_groups (gostrings.bytes flags') +:+ body')) as Hmain.
  { intros c' flags' Hc HF body'. unfold pattern.convertToGoRegexp.
    change (gostrings.len (String a0 (body' +:+ String c' flags')) =? 0)%nat with false.
    cbn iota. rewrite slice_tail.
    set (X := body' +:+ String c' flags').
    assert (gostrings.bytes X = gostrings.bytes body' ++ c' :: gostrings.bytes flags')
      as HX by (unfold X; now rewrite bytes_append, bytes_String).
    assert (gostrings.len X
            = (length (gostrings.bytes body') + 1 + length (gostrings.bytes flags'))%nat)
      as Hlen by (unfold gostrings.len; rewrite HX, length_app; simpl; lia).
    rewrite Hlen, HX, scan_flags_stops by auto.
    assert (gostrings.slice X 0 (length (gostrings.bytes body')) = body') as Hbody.
    { rewrite slice_prefix, HX, take_app_length. apply string_of_bytes. }
    rewrite Hbody.
    destruct (Nat.ltb_spec (length (gostrings.bytes body'))
                (length (gostrings.bytes body') + 1 + length (gostrings.bytes flags') - 1))
      as [Hlt|Hge].
    - replace (gostrings.bytes body' ++ c' :: gostrings.bytes flags')
        with ((gostrings.bytes body' ++ [c']) ++ gostrings.bytes flags')
        by (now rewrite <- app_assoc).
      rewrite drop_app_length' by (rewrite length_app; simpl; lia).
      rewrite fold_flag_groups by exact HF. reflexivity.
    - assert (gostrings.bytes flags' = []) as ->
          by (destruct (gostrings.bytes flags'); [reflexivity|simpl in Hge; lia]).
      reflexivity. }
  split; [intros Hc HF; now apply Hmain|]. split; [|split].
  - intros HF. unfold pattern.convertToGoRegexp.
    change (gostrings.len (String a0 flags) =? 0)%nat with false.
    cbn iota. rewrite slice_tail.
    rewrite scan_flags_all_lower; [reflexivity|exact HF|reflexivity].
  - assert (body +:+ "/U" = (body +:+ "/") +:+ "U") as ->
        by (now rewrite append_assoc_str).
    rewrite (Hmain "U"%char "" eq_refl (List.Forall_nil _) (body +:+ "/")).
    reflexivity.
  - eexists. reflexivity.
Qed.

Lemma convertToGoRegexp_spec_witness :
  pattern.lower "/" = false /\
  Forall (fun f => pattern.lower f = true) (gostrings.bytes "im") /\
  pattern.convertToGoRegexp "/^test$/im" = Return "(?i)(?m)^test$".
Proof.
  assert (Forall (fun f => pattern.lower f = true) (gostrings.bytes "im")) as HF
      by (repeat constructor).
  split; [reflexivity|]. split; [exact HF|].
  exact (proj1 (convertToGoRegexp_spec "/" "/" "^test$" "im") eq_refl HF).
Defined.

(** ** [checkHostAddress] *)

Lemma last_cons_default {A} (x d : A) (rest : list A) :
  List.last (x :: rest) d = List.last rest x.
Proof.
  revert x d. induction rest as [|y rest IH]; intros x d; [reflexivity|].
  change (List.last (x :: y :: rest) d) with (List.last (y :: rest) d).
  rewrite (IH y d), (IH y x). reflexivity.
Qed.

Lemma last_map_default {A B} (f : A -> B) (L : list A) (d : A) :
  List.last (map f L) (f d) = f (List.last L d).
Proof.
  revert d. induction L as [|x L IH]; intros d; [reflexivity|].
  cbn [map]. rewrite !last_cons_default. apply IH.
Qed.

Lemma last_In {A} (L : list A) (d : A) : L <> [] -> In (List.last L d) L.
Proof.
  intros Hne. destruct (exists_last Hne) as (L0 & y & ->). rewrite last_last.
  apply in_or_app. right. now left.
Qed.

Section checkHostAddress_facts.

Variable hostTable : pattern.Table.
Variable address : string.

Local Abbreviation l := (gostrings.bytes address).
Local Abbreviation n := (gostrings.len address).
Local Abbreviation sl := (gostrings.slice address 0).

(** The lengths of the proper prefixes of the prefix of length [k] that
    end in [c], longest first. *)
Local Abbreviation ends_in c :=
  (fun m : nat => match l !! (m - 1)%nat with
                  | Some a => Ascii.eqb a c
                  | None => false
                  end).
Local Abbreviation cand_lens c k := (List.filter (ends_in c) (rev (seq 1 (k - 1)))).

Lemma filter_rev_seq c m :
  List.filter (ends_in c) (rev (seq 1 m))
  = match gostrings.last_index_below l c m with
    | None => []
    | Some p => (p + 1)%nat :: List.filter (ends_in c) (rev (seq 1 p))
    end.
Proof.
  induction m as [|i IH]; [reflexivity|].
  rewrite seq_S, rev_unit. cbn [List.filter gostrings.last_index_below].
  replace (1 + i - 1)%nat with i by lia.
  destruct (l !! i) as [a|]; [destruct (Ascii.eqb a c)|]; try exact IH.
  now rewrite Nat.add_1_r.
Qed.

Lemma cand_lens_bound c k m : m ∈ cand_lens c k -> (1 <= m < k)%nat.
Proof.
  rewrite list_elem_of_In, filter_In, <- in_rev, in_seq. lia.
Qed.

Lemma prefixes_ending_slice c k :
  (k <= n)%nat -> pattern.prefixes_ending c (sl k) = map sl (cand_lens c k).
Proof.
  intros Hk. unfold pattern.prefixes_ending. rewrite len_slice_prefix by exact Hk.
  rewrite (filter_ext_in _ (ends_in c)).
  - apply map_ext_in. intros m Hm. apply list_elem_of_In, cand_lens_bound in Hm.
    apply slice_slice_prefix. lia.
  - intros m Hm. rewrite <- in_rev, in_seq in Hm.
    unfold gostrings.index. rewrite bytes_slice_prefix, lookup_take_lt by lia.
    reflexivity.
Qed.

Lemma loop_unfold fuel sep k :
  (1 <= k <= n)%nat ->
  pattern.checkHostAddress_loop (S fuel) hostTable address sep (sl k)
  = match hostTable (sl k) with
    | (_, _, Some err) => Some (pattern.noMatch, Some err)
    | (action, true, None) =>
        Some (pattern.mkMatchResult true "" "" address action, None)
    | (_, false, None) =>
        match gostrings.last_index_below l sep (k - 1) with
        | Some p =>
            pattern.checkHostAddress_loop fuel hostTable address sep (sl (p + 1))
        | None =>
            match gostrings.last_index_below l ":" (k - 1) with
            | Some p =>
                pattern.checkHostAddress_loop fuel hostTable address ":" (sl (p + 1))
            | None => Some (pattern.noMatch, None)
            end
        end
    end.
Proof.
  intros Hk. cbn [pattern.checkHostAddress_loop].
  destruct (hostTable (sl k)) as [[action [|]] [err|]]; try reflexivity.
  rewrite len_slice_prefix by lia.
  rewrite slice_slice_prefix by lia.
  assert (forall c, gostrings.LastIndexByte (sl (k - 1)) c
                    = gostrings.last_index_below l c (k - 1)) as HL.
  { intros c. unfold gostrings.LastIndexByte.
    rewrite len_slice_prefix by lia. rewrite bytes_slice_prefix.
    apply last_index_below_take. lia. }
  rewrite !HL.
  destruct (gostrings.last_index_below l sep (k - 1)) as [p|] eqn:E1.
  - apply last_index_below_Some in E1 as [Hp _].
    rewrite slice_slice_prefix by lia. reflexivity.
  - destruct (gostrings.last_index_below l ":" (k - 1)) as [p|] eqn:E2; [|reflexivity].
    apply last_index_below_Some in E2 as [Hp _].
    rewrite slice_slice_prefix by lia. reflexivity.
Qed.

Lemma loop_colon k :
  forall fuel,
    (1 <= k <= n)%nat -> (k <= fuel)%nat ->
    pattern.checkHostAddress_loop fuel hostTable address ":" (sl k)
    = Some (pattern.first_known hostTable address (sl k :: map sl (cand_lens ":" k))).
Proof.
  induction k as [k IH] using lt_wf_ind. intros fuel Hk Hfuel.
  destruct fuel as [|fuel]; [lia|]. rewrite loop_unfold by exact Hk.
  cbn [pattern.first_known].
  destruct (hostTable (sl k)) as [[action [|]] [err|]]; try reflexivity.
  rewrite (filter_rev_seq ":" (k - 1)).
  destruct (gostrings.last_index_below l ":" (k - 1)) as [p|] eqn:E; [|reflexivity].
  apply last_index_below_Some in E as [Hp _].
  rewrite IH by lia. cbn [map]. do 4 f_equal.
  replace (p + 1 - 1)%nat with p by lia. reflexivity.
Qed.

Lemma loop_dot k :
  forall fuel,
    (1 <= k <= n)%nat -> (k <= fuel)%nat ->
    pattern.checkHostAddress_loop fuel hostTable address "." (sl k)
    = Some (pattern.first_known hostTable address
              (sl k :: map sl (cand_lens "." k)
                  ++ map sl (cand_lens ":" (List.last (cand_lens "." k) k)))).
Proof.
  induction k as [k IH] using lt_wf_ind. intros fuel Hk Hfuel.
  destruct fuel as [|fuel]; [lia|]. rewrite loop_unfold by exact Hk.
  cbn [pattern.first_known].
  destruct (hostTable (sl k)) as [[action [|]] [err|]]; try reflexivity.
  rewrite (filter_rev_seq "." (k - 1)).
  destruct (gostrings.last_index_below l "." (k - 1)) as [p|] eqn:E.
  - apply last_index_below_Some in E as [Hp _].
    rewrite IH by lia. rewrite last_cons_default.
    replace (p + 1 - 1)%nat with p by lia. reflexivity.
  - cbn [List.last map app]. rewrite (filter_rev_seq ":" (k - 1)).
    destruct (gostrings.last_index_below l ":" (k - 1)) as [p|] eqn:E2; [|reflexivity].
    apply last_index_below_Some in E2 as [Hp _].
    rewrite loop_colon by lia. cbn [map pattern.first_known]. do 4 f_equal.
    replace (p + 1 - 1)%nat with p by lia. reflexivity.
Qed.

Lemma candidates_lens :
  pattern.candidates address
  = address :: map sl (cand_lens "." n)
      ++ map sl (cand_lens ":" (List.last (cand_lens "." n) n)).
Proof.
  unfold pattern.candidates.
  assert (pattern.prefixes_ending "." address = map sl (cand_lens "." n)) as Hd.
  { transitivity (pattern.prefixes_ending "." (sl n)).
    - f_equal. symmetry. apply slice_all.
    - now apply prefixes_ending_slice. }
  rewrite Hd. f_equal. f_equal.
  assert (List.last (map sl (cand_lens "." n)) address
          = sl (List.last (cand_lens "." n) n)) as ->.
  { transitivity (List.last (map sl (cand_lens "." n)) (sl n)).
    - f_equal. symmetry. apply slice_all.
    - apply last_map_default. }
  apply prefixes_ending_slice.
  pose proof (cand_lens_bound "." n) as Hb.
  destruct (cand_lens "." n) as [|x L]; [apply le_n|].
  assert (List.last (x :: L) n ∈ x :: L) as Hin
      by (apply list_elem_of_In, last_In; discriminate).
  apply Hb in Hin. lia.
Qed.

Lemma candidates_prefix key :
  (1 <= n)%nat -> key ∈ pattern.candidates address ->
  exists k, (1 <= k <= n)%nat /\ key = sl k /\
            (k = n \/ gostrings.index address (k - 1) = Some "."%char
             \/ gostrings.index address (k - 1) = Some ":"%char).
Proof.
  intros Hn. rewrite candidates_lens.
  assert (forall c k m, m ∈ cand_lens c k ->
                        (1 <= m < k)%nat /\ gostrings.index address (m - 1) = Some c)
    as Hc.
  { intros c k m Hm. split; [now apply cand_lens_bound in Hm|].
    apply list_elem_of_In, filter_In in Hm as [_ Hm]. unfold gostrings.index.
    destruct (l !! (m - 1)%nat) as [a|]; [|discriminate].
    apply Ascii.eqb_eq in Hm as ->. reflexivity. }
  intros Hin. apply elem_of_cons in Hin as [->|Hin].
  - exists n. split; [lia|]. split; [symmetry; apply slice_all|now left].
  - apply elem_of_app in Hin as [Hin|Hin];
      apply list_elem_of_fmap in Hin as (m & -> & Hm); apply Hc in Hm as [Hb Hi].
    + exists m. split; [lia|]. split; [reflexivity|]. right. now left.
    + exists m. split; [|split; [reflexivity|right; now right]].
      pose proof (cand_lens_bound "." n) as Hbd.
      destruct (cand_lens "." n) as [|x L]; [simpl in Hb; lia|].
      assert (List.last (x :: L) n ∈ x :: L) as Hl
          by (apply list_elem_of_In, last_In; discriminate).
      apply Hbd in Hl. lia.
Qed.

Lemma first_known_sound keys res err :
  pattern.first_known hostTable address keys = (res, err) ->
  pattern.Matches res = true ->
  err = None /\ pattern.Value res = address /\ pattern.Pattern res = "" /\
  exists key, key ∈ keys /\ hostTable key = (pattern.Action res, true, None).
Proof.
  induction keys as [|key rest IH]; cbn [pattern.first_known].
  - intros [= <- <-]. discriminate.
  - destruct (hostTable key) as [[action [|]] [e|]] eqn:E.
    + intros [= <- <-]. discriminate.
    + intros [= <- <-] _. repeat split. exists key. split; [left|exact E].
    + intros [= <- <-]. discriminate.
    + intros H Hm. destruct (IH H Hm) as (? & ? & ? & k & Hk & Hl).
      repeat split; auto. exists k. split; [now right|exact Hl].
Qed.

Lemma first_known_none keys :
  (forall key, key ∈ keys -> exists v, hostTable key = (v, false, None)) ->
  pattern.first_known hostTable address keys = (pattern.noMatch, None).
Proof.
  induction keys as [|key rest IH]; intros H; [reflexivity|].
  cbn [pattern.first_known]. destruct (H key ltac:(left)) as [v ->].
  apply IH. intros k Hk. apply H. now right.
Qed.

Lemma checkHostAddress_candidates :
  pattern.checkHostAddress hostTable address
  = Some (if Nat.eqb n 0 then (pattern.noMatch, None)
          else pattern.first_known hostTable address (pattern.candidates address)) /\
  forall fuel,
    (1 <= n <= fuel)%nat ->
    pattern.checkHostAddress_loop fuel hostTable address "." address
    = pattern.checkHostAddress hostTable address.
Proof.
  assert (forall fuel, (1 <= n <= fuel)%nat ->
            pattern.checkHostAddress_loop fuel hostTable address "." address
            = Some (pattern.first_known hostTable address (pattern.candidates address)))
    as Hloop.
  { intros fuel Hf. rewrite candidates_lens.
    pose proof (loop_dot n fuel ltac:(lia) ltac:(lia)) as H.
    rewrite !slice_all in H. exact H. }
  unfold pattern.checkHostAddress. destruct (Nat.eqb_spec n 0) as [H0|Hne].
  - split; [reflexivity|]. intros fuel Hf. lia.
  - split; [apply Hloop; lia|]. intros fuel Hf. rewrite !Hloop by lia. reflexivity.
Qed.

End checkHostAddress_facts.

(** [checkHostAddress] always returns: it looks the candidate keys up in
    order, the address first, then its proper prefixes that end in a dot,
    longest first, then the proper prefixes of the shortest of these that
    end in a colon, longest first, and the first key that the table knows,
    or fails on, decides.  Further iterations would change nothing. *)
Theorem checkHostAddress_refines hostTable address :
  pattern.checkHostAddress hostTable address
  = Some (if Nat.eqb (gostrings.len address) 0 then (pattern.noMatch, None)
          else pattern.first_known hostTable address (pattern.candidates address)) /\
  forall fuel,
    (1 <= gostrings.len address <= fuel)%nat ->
    pattern.checkHostAddress_loop fuel hostTable address "." address
    = pattern.checkHostAddress hostTable address.
Proof. apply checkHostAddress_candidates. Qed.

(** A match of [checkHostTable] carries the name of the table as its
    pattern and the whole address as its value, and its action is the
    table's entry for a prefix of the address that is not empty and is the
    address itself or ends in a dot or a colon.  When the table has no
    entry for any such prefix and never fails, there is no match. *)
Theorem checkHostTable_sound hostTable name address :
  (forall res err,
      pattern.checkHostTable hostTable name address = Some (res, err) ->
      pattern.Matches res = true ->
      err = None /\ pattern.Pattern res = name /\ pattern.Value res = address /\
      exists k,
        (1 <= k <= gostrings.len address)%nat /\
        hostTable (gostrings.slice address 0 k) = (pattern.Action res, true, None) /\
        (k = gostrings.len address
         \/ gostrings.index address (k - 1) = Some "."%char
         \/ gostrings.index address (k - 1) = Some ":"%char)) /\
  ((forall k, (1 <= k <= gostrings.len address)%nat ->
              exists v, hostTable (gostrings.slice address 0 k) = (v, false, None)) ->
   pattern.checkHostTable hostTable name address = Some (pattern.noMatch, None)).
Proof.
  unfold pattern.checkHostTable.
  rewrite (proj1 (checkHostAddress_candidates hostTable address)).
  destruct (Nat.eqb_spec (gostrings.len address) 0) as [H0|Hne].
  - split; [|reflexivity]. intros res err [= <- <-]. discriminate.
  - split.
    + intros res err.
      destruct (pattern.first_known hostTable address (pattern.candidates address))
        as [r [e|]] eqn:E; [intros [= <- <-]; discriminate|].
      destruct (pattern.Matches r) eqn:Em; [|intros [= <- <-]; discriminate].
      intros [= <- <-] _. cbn [pattern.Pattern pattern.Value pattern.Action].
      destruct (first_known_sound hostTable address _ _ _ E Em)
        as (_ & Hv & _ & key & Hkey & Hl).
      split; [reflexivity|]. split; [reflexivity|]. split; [exact Hv|].
      apply candidates_prefix in Hkey as (k & Hk & -> & Hend); [|lia].
      exists k. auto.
    + intros Hnone. rewrite first_known_none; [reflexivity|].
      intros key Hkey. apply candidates_prefix in Hkey as (k & Hk & -> & _); [|lia].
      now apply Hnone.
Qed.

Lemma checkHostAddress_refines_witness :
  let table : pattern.Table :=
    fun key => if String.eqb key "192.168." then ("reject", true, None)
               else ("", false, None) in
  pattern.checkHostAddress table "192.168.1.20"
  = Some (pattern.mkMatchResult true "" "" "192.168.1.20" "reject", None) /\
  pattern.candidates "192.168.1.20"
  = ["192.168.1.20"; "192.168.1."; "192.168."; "192."] /\
  pattern.candidates "2001:db8::1" = ["2001:db8::1"; "2001:db8::"; "2001:db8:"; "2001:"].
Proof.
  intros table. split; [|split; vm_compute; reflexivity].
  rewrite (proj1 (checkHostAddress_refines table "192.168.1.20")).
  vm_compute. reflexivity.
Defined.

Lemma checkHostTable_sound_witness :
  let table : pattern.Table :=
    fun key => if String.eqb key "192.168." then ("reject", true, None)
               else ("", false, None) in
  let res := pattern.mkMatchResult true "" "match_host" "192.168.1.20" "reject" in
  pattern.checkHostTable table "match_host" "192.168.1.20" = Some (res, None) /\
  pattern.Pattern res = "match_host" /\ pattern.Value res = "192.168.1.20".
Proof.
  intros table res.
  assert (pattern.checkHostTable table "match_host" "192.168.1.20" = Some (res, None))
    as H by (vm_compute; reflexivity).
  split; [exact H|].
  destruct (proj1 (checkHostTable_sound table "match_host" "192.168.1.20")
              res None H eq_refl) as (_ & Hp & Hv & _).
  split; [exact Hp|exact Hv].
Defined.

(** ** The blob store *)

Lemma append_inj_l (s a b : string) : s +:+ a = s +:+ b -> a = b.
Proof.
  induction s as [|c s IH]; rewrite ?append_nil_l, ?append_cons; [auto|].
  intros H. injection H as H. auto.
Qed.

Lemma FormatUint_inj a b : strconv.FormatUint a = strconv.FormatUint b -> a = b.
Proof.
  intros H.
  destruct (FormatUint_digits a) as (_ & _ & _ & _ & _ & Ha).
  destruct (FormatUint_digits b) as (_ & _ & _ & _ & _ & Hb).
  rewrite Ha, Hb in H.
  apply (f_equal NilEmpty.uint_of_string) in H. rewrite !NilEmpty.usu in H.
  injection H as H. apply (f_equal N.of_uint) in H.
  now rewrite !DecimalN.Unsigned.of_to in H.
Qed.

Lemma chunkKey_inj key i j : blobtable.chunkKey key i = blobtable.chunkKey key j -> i = j.
Proof.
  unfold blobtable.chunkKey. intros H.
  apply append_inj_l, append_inj_l, FormatUint_inj in H. lia.
Qed.

Lemma length_append_str (s u : string) :
  String.length (s +:+ u) = (String.length s + String.length u)%nat.
Proof.
  induction s as [|c s IH]; rewrite ?append_nil_l, ?append_cons; simpl; auto.
Qed.

Lemma chunkKey_not_key key i : blobtable.chunkKey key i <> key.
Proof.
  unfold blobtable.chunkKey. intros H. apply (f_equal String.length) in H.
  rewrite !length_append_str in H. simpl in H. lia.
Qed.

Lemma store_lookup_other key k pieces : forall c0 t,
  (forall i, (i < length pieces)%nat -> k <> blobtable.chunkKey key (c0 + i)) ->
  blobtable.store key c0 pieces t !! k = t !! k.
Proof.
  induction pieces as [|p ps IH]; intros c0 t Hk; simpl; [reflexivity|].
  rewrite IH.
  - apply lookup_insert_ne. intros E. apply (Hk 0%nat); [simpl; lia|].
    now rewrite Nat.add_0_r.
  - intros i Hi. replace (S c0 + i)%nat with (c0 + S i)%nat by lia.
    apply Hk. simpl. lia.
Qed.

Lemma store_lookup_chunk key pieces : forall c0 t i p,
  pieces !! i = Some p ->
  blobtable.store key c0 pieces t !! blobtable.chunkKey key (c0 + i)
  = Some (string_of_list_ascii p).
Proof.
  induction pieces as [|q ps IH]; intros c0 t i p Hp; [discriminate|].
  destruct i as [|i]; simpl in *.
  - injection Hp as ->. rewrite store_lookup_other.
    + rewrite Nat.add_0_r. apply lookup_insert_eq.
    + intros i _ E. apply chunkKey_inj in E. lia.
  - replace (c0 + S i)%nat with (S c0 + i)%nat by lia. now apply IH.
Qed.

Lemma remove_chunks_lookup_other key k n t :
  (forall i, (i < n)%nat -> k <> blobtable.chunkKey key i) ->
  blobtable.remove_chunks key n t !! k = t !! k.
Proof.
  unfold blobtable.remove_chunks. induction n as [|n IH]; intros Hk; [reflexivity|].
  rewrite seq_S, foldl_app. simpl. rewrite lookup_delete_ne.
  - apply IH. intros i Hi. apply Hk. lia.
  - intros E. apply (Hk n); [lia|]. now symmetry.
Qed.

Lemma remove_chunks_lookup_chunk key n t i :
  (i < n)%nat -> blobtable.remove_chunks key n t !! blobtable.chunkKey key i = None.
Proof.
  unfold blobtable.remove_chunks. induction n as [|n IH]; intros Hi; [lia|].
  rewrite seq_S, foldl_app. simpl.
  destruct (decide (i = n)) as [->|Hne].
  - apply lookup_delete_eq.
  - rewrite lookup_delete_ne.
    + apply IH. lia.
    + intros E. apply chunkKey_inj in E. lia.
Qed.

Lemma cut_spec N : (0 < N)%nat -> forall fuel data,
  (length data < fuel)%nat ->
  concat (blobtable.cut fuel N data) = data /\
  Forall (fun p => p <> []) (blobtable.cut fuel N data) /\
  length (blobtable.cut fuel N data)
  = (length data / N + (if (length data mod N =? 0)%nat then 0 else 1))%nat /\
  (forall i, (i < length (blobtable.cut fuel N data))%nat ->
             blobtable.cut fuel N data !! i = Some (take N (drop (i * N) data))).
Proof.
  intros HN. induction fuel as [|fuel IH]; intros data Hf; [lia|].
  simpl. destruct (Nat.leb_spec N (length data)) as [Hle|Hlt].
  - destruct (IH (drop N data)) as (Hc & Hne & Hlen & Hi).
    { rewrite length_drop. lia. }
    rewrite length_drop in Hlen.
    assert (Hdiv : (length data / N = (length data - N) / N + 1)%nat).
    { replace (length data) with ((length data - N) + 1 * N)%nat at 1 by lia.
      apply Nat.div_add. lia. }
    assert (Hmod : (length data mod N = (length data - N) mod N)%nat).
    { replace (length data) with ((length data - N) + 1 * N)%nat at 1 by lia.
      apply Nat.Div0.mod_add. }
    repeat split.
    + simpl. rewrite Hc. apply take_drop.
    + constructor; [|exact Hne]. intros E. apply (f_equal length) in E.
      rewrite length_take in E. simpl in E. lia.
    + simpl. rewrite Hlen, Hdiv, Hmod. lia.
    + intros [|i] Hl; simpl in *.
      * reflexivity.
      * rewrite Hi by lia. rewrite drop_drop. do 3 f_equal; lia.
  - destruct (Nat.ltb_spec 0 (length data)) as [Hpos|Hz].
    + rewrite Nat.div_small, Nat.mod_small by lia.
      destruct (Nat.eqb_spec (length data) 0) as [E|_]; [lia|].
      repeat split.
      * simpl. apply app_nil_r.
      * constructor; [|constructor]. intros ->. simpl in Hpos. lia.
      * intros [|i] Hl; [|simpl in Hl; lia]. simpl. rewrite drop_0.
        rewrite take_ge; [reflexivity|lia].
    + assert (data = []) as -> by (destruct data; simpl in *; [reflexivity|lia]).
      simpl. rewrite Nat.Div0.div_0_l, Nat.Div0.mod_0_l. simpl.
      repeat split; [constructor|intros i Hi; lia].
Qed.

Lemma Create_loop_cut N key : (0 < N)%nat -> forall fuel stream c0 t,
  (length stream < fuel)%nat ->
  blobtable.Create_loop fuel N key stream c0 t
  = Some (blobtable.store key c0 (blobtable.cut fuel N stream) t,
          (c0 + length (blobtable.cut fuel N stream))%nat,
          (length stream mod N =? 0)%nat).
Proof.
  intros HN. induction fuel as [|fuel IH]; intros stream c0 t Hf; [lia|].
  simpl. destruct (Nat.leb_spec N (length stream)) as [Hle|Hlt].
  - rewrite IH by (rewrite length_drop; lia). rewrite length_drop.
    assert (Hmod : (length stream mod N = (length stream - N) mod N)%nat).
    { replace (length stream) with ((length stream - N) + 1 * N)%nat at 1 by lia.
      apply Nat.Div0.mod_add. }
    simpl. rewrite Hmod. do 3 f_equal. lia.
  - destruct (Nat.ltb_spec 0 (length stream)) as [Hpos|Hz].
    + rewrite Nat.mod_small by lia.
      destruct (Nat.eqb_spec (length stream) 0) as [E|_]; [lia|].
      simpl. do 3 f_equal. lia.
    + assert (stream = []) as -> by (destruct stream; simpl in *; [reflexivity|lia]).
      simpl. rewrite Nat.Div0.mod_0_l. simpl. do 3 f_equal. lia.
Qed.

Lemma Create_at chunkSize blobSize Unknown N t key data :
  blobtable.buf_len chunkSize blobSize Unknown = Z.of_nat N -> (0 < N)%nat ->
  let pieces := blobtable.cut (S (length data)) N data in
  blobtable.Create chunkSize blobSize Unknown t key data
  = Some (if (length data mod N =? 0)%nat
          then (blobtable.remove_chunks key (length pieces) (blobtable.store key 0 pieces t),
                Some blobtable.ErrReadEOF)
          else (<[key := strconv.FormatUint (N.of_nat (length pieces))]>
                  (blobtable.store key 0 pieces t), None)).
Proof.
  intros HN Hpos pieces. unfold blobtable.Create. rewrite HN, Nat2Z.id.
  rewrite (Create_loop_cut N key Hpos) by lia. fold pieces.
  now destruct (length data mod N =? 0)%nat.
Qed.

(** A blob whose size is not a multiple of the buffer length is stored:
    the key holds the number of chunks, chunk [i] holds the bytes from
    [i * N] on, at most [N] of them, and no other key changes. *)
Theorem Create_stores_chunks chunkSize blobSize Unknown N t key data :
  blobtable.buf_len chunkSize blobSize Unknown = Z.of_nat N -> (0 < N)%nat ->
  (length data mod N <> 0)%nat ->
  exists t',
    blobtable.Create chunkSize blobSize Unknown t key data = Some (t', None) /\
    t' !! key = Some (strconv.FormatUint (N.of_nat (length data / N + 1))) /\
    (forall i, (i <= length data / N)%nat ->
               t' !! blobtable.chunkKey key i
               = Some (string_of_list_ascii (take N (drop (i * N) data)))) /\
    (forall k, k <> key ->
               (forall i, (i <= length data / N)%nat -> k <> blobtable.chunkKey key i) ->
               t' !! k = t !! k).
Proof.
  intros HN Hpos Hmod.
  rewrite (Create_at _ _ _ N t key data HN Hpos).
  destruct (cut_spec N Hpos (S (length data)) data) as (_ & _ & Hlen & Hi); [lia|].
  destruct (Nat.eqb_spec (length data mod N) 0) as [E|_]; [contradiction|].
  eexists. split; [reflexivity|]. rewrite Hlen. repeat split.
  - rewrite lookup_insert_eq. do 3 f_equal.
  - intros i Hle. rewrite lookup_insert_ne by (intros E; symmetry in E; now apply chunkKey_not_key in E).
    apply (store_lookup_chunk key _ 0%nat t i). apply Hi. rewrite Hlen. lia.
  - intros k Hk Hck. rewrite lookup_insert_ne by congruence.
    apply store_lookup_other. intros i Hlt. apply Hck. lia.
Qed.

(** A blob whose size is a multiple of the buffer length, the empty blob
    among them, is not stored: [Sync] returns the error of the read at the
    end of the data, the chunks written are removed again and no other key
    changes. *)
Theorem Create_exact_multiple_fails chunkSize blobSize Unknown N t key data :
  blobtable.buf_len chunkSize blobSize Unknown = Z.of_nat N -> (0 < N)%nat ->
  (length data mod N = 0)%nat ->
  exists t',
    blobtable.Create chunkSize blobSize Unknown t key data
    = Some (t', Some blobtable.ErrReadEOF) /\
    (forall i, (i < length data / N)%nat -> t' !! blobtable.chunkKey key i = None) /\
    (forall k, (forall i, (i < length data / N)%nat -> k <> blobtable.chunkKey key i) ->
               t' !! k = t !! k).
Proof.
  intros HN Hpos Hmod.
  rewrite (Create_at _ _ _ N t key data HN Hpos).
  destruct (cut_spec N Hpos (S (length data)) data) as (_ & _ & Hlen & _); [lia|].
  rewrite Hmod in *. simpl in *. rewrite Nat.add_0_r in Hlen.
  eexists. split; [reflexivity|]. rewrite Hlen. split.
  - intros i Hi. now apply remove_chunks_lookup_chunk.
  - intros k Hk. rewrite remove_chunks_lookup_other by exact Hk.
    apply store_lookup_other. intros i Hi. apply Hk. lia.
Qed.

Lemma Create_stores_chunks_witness :
  exists t',
    blobtable.Create 4 (-1) (-1) ∅ "k" (gostrings.bytes "hello") = Some (t', None) /\
    t' !! "k" = Some "2" /\
    t' !! "k/0" = Some "hell" /\ t' !! "k/1" = Some "o".
Proof.
  destruct (Create_stores_chunks 4 (-1) (-1) 4 ∅ "k" (gostrings.bytes "hello"))
    as (t' & H & Hk & Hc & _); [reflexivity|lia|vm_compute; lia|].
  exists t'. split; [exact H|]. split; [exact Hk|].
  split; [exact (Hc 0%nat ltac:(vm_compute; lia))|exact (Hc 1%nat ltac:(vm_compute; lia))].
Defined.

Lemma Create_exact_multiple_fails_witness :
  exists t',
    blobtable.Create 4 (-1) (-1) ∅ "k" (gostrings.bytes "12345678")
    = Some (t', Some blobtable.ErrReadEOF) /\
    t' !! "k/0" = None /\ t' !! "k/1" = None /\ t' !! "k" = None.
Proof.
  destruct (Create_exact_multiple_fails 4 (-1) (-1) 4 ∅ "k" (gostrings.bytes "12345678"))
    as (t' & H & Hc & Ho); [reflexivity|lia|reflexivity|].
  exists t'. split; [exact H|].
  split; [exact (Hc 0%nat ltac:(vm_compute; lia))|].
  split; [exact (Hc 1%nat ltac:(vm_compute; lia))|].
  rewrite Ho; [reflexivity|]. intros i _ E. symmetry in E. now apply chunkKey_not_key in E.
Defined.

Lemma Read_loop_spec t key pieces :
  blobtable.holds t key pieces -> Forall (fun p => p <> []) pieces ->
  forall fuel next buf room acc n,
    (next <= length pieces)%nat -> (room + (length pieces - next) < fuel)%nat ->
    let b := blobtable.mkReader (Z.of_nat (length pieces)) next key buf in
    let R := blobtable.remaining pieces b in
    exists next' buf',
      (next' <= length pieces)%nat /\
      blobtable.Read_loop fuel t b room acc n
      = Some (acc ++ take room R, (n + Nat.min room (length R))%nat,
              (if (0 <? room)%nat && (length R <=? room)%nat
               then Some blobtable.EOF else None),
              blobtable.mkReader (Z.of_nat (length pieces)) next' key buf') /\
      blobtable.remaining pieces
        (blobtable.mkReader (Z.of_nat (length pieces)) next' key buf') = drop room R.
Proof.
  intros Hholds Hne. unfold blobtable.remaining. simpl.
  induction fuel as [|fuel IH]; intros next buf room acc n Hnext Hfuel; [lia|].
  simpl. destruct (Nat.ltb_spec 0 room) as [Hroom|Hroom].
  2:{ assert (room = 0%nat) as -> by lia. exists next, buf. simpl.
      rewrite app_nil_r, Nat.add_0_r. auto. }
  destruct (le_lt_dec (length buf) room) as [Hle|Hgt].
  - rewrite Nat.min_r by lia. rewrite take_ge, drop_ge by lia. simpl.
    destruct (Z.eqb_spec (Z.of_nat next) (Z.of_nat (length pieces))) as [E|E].
    + assert (next = length pieces) as -> by lia.
      exists (length pieces), []. rewrite drop_all. simpl. rewrite !app_nil_r.
      rewrite take_ge, drop_ge by lia. rewrite Nat.min_r by lia.
      destruct (Nat.leb_spec (length buf) room); [|lia]. auto.
    + destruct (lookup_lt_is_Some_2 pieces next) as [p Hp]; [lia|].
      rewrite (Hholds _ _ Hp). unfold gostrings.bytes.
      rewrite list_ascii_of_string_of_list_ascii.
      assert (Hp0 : p <> []).
      { rewrite Forall_forall in Hne. apply Hne. eapply list_elem_of_lookup_2, Hp. }
      destruct (IH (S next) p (room - length buf)%nat (acc ++ buf)
                   (n + length buf)%nat) as (next' & buf' & Hn' & HR & Hrem); [lia|lia|].
      exists next', buf'. split; [exact Hn'|].
      rewrite (drop_S _ _ _ Hp). simpl concat.
      assert (Hlp : (0 < length p)%nat) by (destruct p; simpl; [congruence|lia]).
      split.
      * rewrite HR. rewrite (take_app buf), (take_ge buf) by lia.
        rewrite <- app_assoc. rewrite !length_app.
        assert (Hmin : (n + length buf
                        + Nat.min (room - length buf)
                                  (length p + length (concat (drop (S next) pieces)))
                        = n + Nat.min room (length buf + (length p
                                  + length (concat (drop (S next) pieces)))))%nat) by lia.
        rewrite Hmin. clear Hmin.
        assert (Hc : (0 <? room - length buf)%nat
                     && (length p + length (concat (drop (S next) pieces))
                         <=? room - length buf)%nat
                     = (length buf + (length p + length (concat (drop (S next) pieces)))
                        <=? room)%nat); [|rewrite Hc; reflexivity].
        destruct (Nat.ltb_spec 0 (room - length buf));
          destruct (Nat.leb_spec (length p + length (concat (drop (S next) pieces)))
                                 (room - length buf));
          destruct (Nat.leb_spec (length buf + (length p + length (concat (drop (S next) pieces))))
                                 room); simpl; try reflexivity; lia.
      * rewrite Hrem. rewrite (drop_app buf), (drop_ge buf) by lia. reflexivity.
  - rewrite Nat.min_l by lia.
    destruct (Nat.eqb_spec (length (drop room buf)) 0) as [E|_].
    { rewrite length_drop in E. lia. }
    replace (room - room)%nat with 0%nat by lia.
    destruct fuel as [|fuel]; [lia|]. simpl.
    exists next, (drop room buf). split; [exact Hnext|].
    rewrite length_app. rewrite take_app_le, drop_app_le by lia.
    destruct (Nat.leb_spec (length buf + length (concat (drop next pieces))) room); [lia|].
    rewrite Nat.min_l by lia. auto.
Qed.

Lemma Reads_spec t key pieces :
  blobtable.holds t key pieces -> Forall (fun p => p <> []) pieces ->
  forall fuel sizes next buf,
    (next <= length pieces)%nat ->
    Forall (fun room => (0 < room)%nat /\ (room + length pieces < fuel)%nat) sizes ->
    let b := blobtable.mkReader (Z.of_nat (length pieces)) next key buf in
    let R := blobtable.remaining pieces b in
    blobtable.Reads fuel t b sizes
    = Some (take (list_sum sizes) R,
            if (0 <? list_sum sizes)%nat && (length R <=? list_sum sizes)%nat
            then Some blobtable.EOF else None).
Proof.
  intros Hholds Hne fuel. induction sizes as [|room rest IH]; intros next buf Hnext Hs b R.
  { reflexivity. }
  apply Forall_cons in Hs as [[Hroom Hfuel] Hrest].
  destruct (Read_loop_spec t key pieces Hholds Hne fuel next buf room [] 0%nat Hnext)
    as (next' & buf' & Hn' & HR & Hrem); [lia|].
  subst R. fold b in HR, Hrem. remember (blobtable.remaining pieces b) as R eqn:ER.
  cbn [blobtable.Reads]. unfold blobtable.Read. rewrite HR. clear HR.
  change (list_sum (room :: rest)) with (room + list_sum rest)%nat.
  destruct (Nat.ltb_spec 0 room) as [_|]; [|lia]. cbn [andb app Nat.add list_sum].
  destruct (Nat.ltb_spec 0 (room + list_sum rest)) as [_|]; [|lia]. cbn [andb].
  destruct (Nat.leb_spec (length R) room) as [Hle|Hgt].
  - destruct (Nat.leb_spec (length R) (room + list_sum rest)); [|lia].
    rewrite Nat.min_r by lia. rewrite (take_ge R room) by lia.
    rewrite (take_ge R (length R)) by lia. now rewrite (take_ge R (room + _)) by lia.
  - rewrite (IH next' buf' Hn' Hrest). rewrite Hrem. clear IH.
    rewrite Nat.min_l by lia. rewrite take_take, Nat.min_id, take_take_drop.
    rewrite length_drop.
    destruct (Nat.ltb_spec 0 (list_sum rest));
      destruct (Nat.leb_spec (length R - room) (list_sum rest));
      destruct (Nat.leb_spec (length R) (room + list_sum rest));
      simpl; try reflexivity; lia.
Qed.

Lemma Create_holds chunkSize blobSize Unknown N t key data :
  blobtable.buf_len chunkSize blobSize Unknown = Z.of_nat N -> (0 < N)%nat ->
  (length data mod N <> 0)%nat ->
  exists t' pieces,
    blobtable.Create chunkSize blobSize Unknown t key data = Some (t', None) /\
    t' !! key = Some (strconv.FormatUint (N.of_nat (length pieces))) /\
    blobtable.holds t' key pieces /\ Forall (fun p => p <> []) pieces /\
    concat pieces = data /\ length pieces = (length data / N + 1)%nat /\
    t' = <[key := strconv.FormatUint (N.of_nat (length pieces))]>
           (blobtable.store key 0 pieces t).
Proof.
  intros HN Hpos Hmod.
  rewrite (Create_at _ _ _ N t key data HN Hpos).
  destruct (cut_spec N Hpos (S (length data)) data) as (Hc & Hne & Hlen & _); [lia|].
  destruct (Nat.eqb_spec (length data mod N) 0) as [E|_]; [contradiction|].
  eexists _, _. split; [reflexivity|]. split; [apply lookup_insert_eq|].
  split; [|auto].
  intros i p Hp. rewrite lookup_insert_ne by (intros E; symmetry in E; now apply chunkKey_not_key in E).
  now apply (store_lookup_chunk key _ 0%nat t i p).
Qed.

Lemma getChunkCount_FormatUint t key n :
  (Z.of_nat n < 2 ^ 31) ->
  t !! key = Some (strconv.FormatUint (N.of_nat n)) ->
  blobtable.getChunkCount t key = inl (Z.of_nat n).
Proof.
  intros Hn Hk. unfold blobtable.getChunkCount. rewrite Hk.
  rewrite ParseInt_FormatUint by lia. now rewrite nat_N_Z.
Qed.

(** A blob that was stored reads back: after [Create] and [Open], reads
    with buffers of any positive sizes deliver the bytes of the blob in
    order, and the read that delivers the last byte returns [io.EOF]. *)
Theorem Create_Open_Reads chunkSize blobSize Unknown N t key data fuel sizes :
  blobtable.buf_len chunkSize blobSize Unknown = Z.of_nat N -> (0 < N)%nat ->
  (length data mod N <> 0)%nat ->
  Z.of_nat (length data / N + 1) < 2 ^ 31 ->
  Forall (fun room => (0 < room)%nat /\ (room + (length data / N + 1) < fuel)%nat) sizes ->
  exists t' b,
    blobtable.Create chunkSize blobSize Unknown t key data = Some (t', None) /\
    blobtable.Open t' key = inl b /\
    blobtable.Reads fuel t' b sizes
    = Some (take (list_sum sizes) data,
            if (length data <=? list_sum sizes)%nat then Some blobtable.EOF else None).
Proof.
  intros HN Hpos Hmod Hcount Hs.
  destruct (Create_holds _ _ _ N t key data HN Hpos Hmod)
    as (t' & pieces & HC & Hk & Hholds & Hne & Hcat & Hlen & _).
  exists t', (blobtable.mkReader (Z.of_nat (length pieces)) 0 key []).
  split; [exact HC|]. rewrite <- Hlen in Hcount, Hs. split.
  - unfold blobtable.Open. now rewrite (getChunkCount_FormatUint t' key _ Hcount Hk).
  - rewrite (Reads_spec t' key pieces Hholds Hne fuel sizes 0%nat []); [|lia|exact Hs].
    unfold blobtable.remaining. simpl. rewrite drop_0, Hcat. do 2 f_equal.
    assert (length data <> 0)%nat.
    { intros E. rewrite E in Hmod. now rewrite Nat.Div0.mod_0_l in Hmod. }
    destruct (Nat.ltb_spec 0 (list_sum sizes));
      destruct (Nat.leb_spec (length data) (list_sum sizes)); simpl; try reflexivity; lia.
Qed.

(** Deleting a blob that was stored removes its key and all its chunks,
    changes no other key, and the blob can no longer be opened. *)
Theorem Create_Delete chunkSize blobSize Unknown N t key data :
  blobtable.buf_len chunkSize blobSize Unknown = Z.of_nat N -> (0 < N)%nat ->
  (length data mod N <> 0)%nat ->
  Z.of_nat (length data / N + 1) < 2 ^ 31 ->
  exists t' t'',
    blobtable.Create chunkSize blobSize Unknown t key data = Some (t', None) /\
    blobtable.Delete t' [key] = (t'', None) /\
    t'' !! key = None /\
    (forall i, (i <= length data / N)%nat -> t'' !! blobtable.chunkKey key i = None) /\
    (forall k, k <> key ->
               (forall i, (i <= length data / N)%nat -> k <> blobtable.chunkKey key i) ->
               t'' !! k = t !! k) /\
    blobtable.Open t'' key = inr blobtable.ErrNoSuchBlob.
Proof.
  intros HN Hpos Hmod Hcount.
  destruct (Create_holds _ _ _ N t key data HN Hpos Hmod)
    as (t' & pieces & HC & Hk & Hholds & Hne & Hcat & Hlen & Ht').
  rewrite <- Hlen in Hcount.
  exists t', (blobtable.remove_chunks key (length pieces) (delete key t')).
  split; [exact HC|].
  assert (Hkey : blobtable.remove_chunks key (length pieces) (delete key t') !! key = None).
  { rewrite remove_chunks_lookup_other.
    - apply lookup_delete_eq.
    - intros i _ E. symmetry in E. now apply chunkKey_not_key in E. }
  split.
  { cbn [blobtable.Delete foldl]. unfold blobtable.delete_blob.
    rewrite (getChunkCount_FormatUint t' key _ Hcount Hk). now rewrite Nat2Z.id. }
  split; [exact Hkey|]. split; [|split].
  - intros i Hi. apply remove_chunks_lookup_chunk. lia.
  - intros k Hne' Hck. rewrite remove_chunks_lookup_other.
    + rewrite lookup_delete_ne by congruence. rewrite Ht'.
      rewrite lookup_insert_ne by congruence.
      apply store_lookup_other. intros i Hi. apply Hck. lia.
    + intros i Hi. apply Hck. lia.
  - unfold blobtable.Open, blobtable.getChunkCount. now rewrite Hkey.
Qed.

Lemma Create_Open_Reads_witness :
  exists t' b,
    blobtable.Create 4 (-1) (-1) ∅ "k" (gostrings.bytes "hello world") = Some (t', None) /\
    blobtable.Open t' "k" = inl b /\
    blobtable.Reads 20 t' b [3; 5; 7]%nat
    = Some (gostrings.bytes "hello world", Some blobtable.EOF).
Proof.
  apply (Create_Open_Reads 4 (-1) (-1) 4 ∅ "k" (gostrings.bytes "hello world") 20
                           [3; 5; 7]%nat);
    [reflexivity|lia|vm_compute; lia|vm_compute; reflexivity|].
  repeat constructor; vm_compute; lia.
Defined.

Lemma Create_Delete_witness :
  exists t' t'',
    blobtable.Create 4 (-1) (-1) ∅ "k" (gostrings.bytes "hello") = Some (t', None) /\
    blobtable.Delete t' ["k"] = (t'', None) /\
    t'' !! "k" = None /\ t'' !! "k/0" = None /\ t'' !! "k/1" = None /\
    blobtable.Open t'' "k" = inr blobtable.ErrNoSuchBlob.
Proof.
  destruct (Create_Delete 4 (-1) (-1) 4 ∅ "k" (gostrings.bytes "hello"))
    as (t' & t'' & HC & HD & Hk & Hc & _ & HO);
    [reflexivity|lia|vm_compute; lia|vm_compute; reflexivity|].
  exists t', t''. split; [exact HC|]. split; [exact HD|]. split; [exact Hk|].
  split; [exact (Hc 0%nat ltac:(vm_compute; lia))|].
  split; [exact (Hc 1%nat ltac:(vm_compute; lia))|exact HO].
Defined.
